(** * Tweet ingestion pipeline of the Twitter-to-Discord relay (src/index.js)

    A shallow embedding of the polling cycle [processTweets], the retry
    helper [withRetry], the state file handling and the media resolution
    cascade, followed by the properties stated about them.

    Conventions of the embedding.
    - Every call that leaves the process (HTTP requests, the Discord client,
      the clock, the file system) is an oracle of an environment [Env W]:
      a function of an arbitrary world state [W] that returns an outcome and
      the next world.  Nothing is assumed about the oracles.
    - JavaScript exceptions are the [Throw] outcome of the monad [M];
      [try_catch] is try/catch.  Module level variables and the mutable
      locals of the per tweet block live in the state record [St].
    - Everything observable is appended to [trace], oldest event first.
    - JSON values are typed records: a field that can be absent is an
      [option]; arrays are lists.  Values of an unexpected JSON type inside a
      tweet are not representable.
    - A string is the sequence of the bytes of its UTF-8 form, so a character
      beyond ASCII takes two to four elements of the [string].
    - The discord.js builders are outside the source tree.  [EmbedBuilder]
      is a record of the fields set on it; its setters check their arguments
      and throw on a value that they refuse (a text that is too long, a
      string that is not a URL).  What they accept is a predicate of the
      environment, [builder_accepts], consulted wherever a setter is given
      data of the post.  A setter that is given a constant of the program,
      at most with a count or the kind of the post spliced in, stays within
      the limits of the builder and is a plain update.
    - [fs.writeFileSync] opens the file for writing, which empties it, writes
      and closes: a call that throws leaves the file as it was, without its
      complete data, or complete, as the environment decides.
    - [lastProcessedIds] is a finite map.  The object of the program also
      answers, by inheritance, at the names of the members of
      [Object.prototype]; the statements that say that a post is processed
      are about identifiers other than these names ([unseen]). *)

From stdpp Require Import gmap strings list pretty.
From Stdlib Require Import ZArith Permutation.

(** ** JavaScript string and truthiness helpers *)

(** [String.prototype.includes]. *)
Fixpoint includes (needle hay : string) : bool :=
  String.prefix needle hay ||
  match hay with
  | EmptyString => false
  | String _ rest => includes needle rest
  end.

(** [String.prototype.endsWith]. *)
Definition endsWith (suffix s : string) : bool :=
  String.prefix (String.rev suffix) (String.rev s).

(** A string is truthy when it is present and not empty. *)
Definition truthy (o : option string) : bool :=
  match o with
  | Some s => negb (String.eqb s "")
  | None => false
  end.

(** [a || b] on possibly absent strings. *)
Definition or_str (a b : option string) : option string :=
  if truthy a then a else b.

(** [a || 'literal']. *)
Definition or_lit (a : option string) (b : string) : string :=
  match a with
  | Some s => if String.eqb s "" then b else s
  | None => b
  end.

(** [x?.length > 0] on a possibly absent array. *)
Definition nonempty {A} (o : option (list A)) : bool :=
  match o with
  | Some (_ :: _) => true
  | _ => false
  end.

(** [s === 'literal'] on a possibly absent string. *)
Definition str_is (o : option string) (lit : string) : bool :=
  match o with
  | Some s => String.eqb s lit
  | None => false
  end.

(** [Array.prototype.sort] with a comparator.  The specification of the
    language makes the sort stable and reads a NaN comparison as 0; for a
    consistent comparator the result is the one computed here, by stable
    insertion.  [cmp a b > 0] puts [a] after [b]. *)
Fixpoint sort_insert {A} (cmp : A -> A -> option Z) (x : A) (l : list A) : list A :=
  match l with
  | [] => [x]
  | y :: l' =>
      if (default 0%Z (cmp x y) >? 0)%Z then y :: sort_insert cmp x l'
      else x :: y :: l'
  end.

Fixpoint sort {A} (cmp : A -> A -> option Z) (l : list A) : list A :=
  match l with
  | [] => []
  | x :: l' => sort_insert cmp x (sort cmp l')
  end.

(** [path.join(dir, name)] for two plain segments. *)
Definition path_join (dir name : string) : string := dir +:+ "/" +:+ name.

(** ** Data model: the JSON shapes read by the code *)

(** A [created_at] value as [new Date(..).getTime()] sees it. *)
Inductive JsDate :=
| DateMissing              (* undefined or the empty string *)
| DateInvalid              (* a string that does not parse: NaN *)
| DateAt (ms : Z).         (* epoch milliseconds *)

Record Variant := {
  v_type : option string;
  v_src : option string;
  v_url : option string;
  v_content_type : option string;
  v_bitrate : option Z
}.

Record VideoInfo := { vi_variants : option (list Variant) }.

Record Media := {
  m_type : option string;
  m_video_info : option VideoInfo;
  m_media_url_https : option string;
  m_media_url : option string
}.

Record Image := { img_url : option string }.

Record UrlEntity := {
  u_images : option (list Image);
  u_display_url : option string;
  u_expanded_url : option string
}.

Record Entities := {
  ent_media : option (list Media);
  ent_urls : option (list UrlEntity)
}.

Record ExtendedEntities := { ext_media : option (list Media) }.

Record Attachments := { media_keys : option (list string) }.

Record RefTweet := { rt_type : option string }.

Record User := {
  u_username : option string;
  u_screen_name : option string;
  u_name : option string;
  u_profile_image_url_https : option string;
  u_profile_image_url : option string
}.

Record Tweet := {
  tw_id : string;
  tw_created_at : JsDate;
  tw_user : option User;
  tw_text : option string;
  tw_referenced_tweets : option (list RefTweet);
  tw_in_reply_to_user_id : option string;
  tw_attachments : option Attachments;
  tw_extended_entities : option ExtendedEntities;
  tw_entities : option Entities
}.

Record Video := { vid_variants : option (list Variant) }.

Record Parent := { par_video : option Video }.

Record Photo := { ph_url : option string }.

(** The record returned by the single tweet endpoint. *)
Record TweetDetail := {
  d_video : option Video;
  d_parent : option Parent;
  d_mediaDetails : option (list Media);
  d_photos : option (list Photo)
}.

(** ** The embed under construction *)

Inductive EmbedTime :=
| TsUnset                  (* [setTimestamp] has not been called *)
| TsAt (ms : Z).

Record Embed := {
  e_color : string;
  e_author_name : string;
  e_author_icon : string;
  e_author_url : string;
  e_url : string;
  e_description : string;
  e_timestamp : EmbedTime;
  e_fields : list (string * string);
  e_footer : string;
  e_image : option string
}.

Definition FOOTER_ICON : string :=
  "https://abs.twimg.com/icons/apple-touch-icon-192x192.png".

(** [embed.setFooter({ text, iconURL })]: the icon is the same constant at
    every call, so only the text is kept. *)
Definition setFooter (text : string) (e : Embed) : Embed :=
  {| e_color := e_color e; e_author_name := e_author_name e;
     e_author_icon := e_author_icon e; e_author_url := e_author_url e;
     e_url := e_url e; e_description := e_description e;
     e_timestamp := e_timestamp e; e_fields := e_fields e;
     e_footer := text; e_image := e_image e |}.

(** The field update of [embed.setImage(url)], once the argument has been
    accepted: an absent or empty url leaves no image. *)
Definition setImage (url : option string) (e : Embed) : Embed :=
  {| e_color := e_color e; e_author_name := e_author_name e;
     e_author_icon := e_author_icon e; e_author_url := e_author_url e;
     e_url := e_url e; e_description := e_description e;
     e_timestamp := e_timestamp e; e_fields := e_fields e;
     e_footer := e_footer e;
     e_image := if truthy url then url else None |}.

(** [embed.addFields({ name, value })]. *)
Definition addFields (name value : string) (e : Embed) : Embed :=
  {| e_color := e_color e; e_author_name := e_author_name e;
     e_author_icon := e_author_icon e; e_author_url := e_author_url e;
     e_url := e_url e; e_description := e_description e;
     e_timestamp := e_timestamp e; e_fields := e_fields e ++ [(name, value)];
     e_footer := e_footer e; e_image := e_image e |}.

(** The footer suffix appended by every media branch. *)
Definition footer_note (note : string) (e : Embed) : Embed :=
  setFooter (e_footer e +:+ " • " +:+ note) e.

(** ** Outcomes, events, environment and state *)

Inductive error :=
| Err (msg : string)
| ErrUndefined.            (* [throw undefined] *)

Inductive Res (A : Type) :=
| Ok (a : A)
| Throw (e : error).
Arguments Ok {A} a.
Arguments Throw {A} e.

Definition is_throw {A} (r : Res A) : bool :=
  match r with
  | Ok _ => false
  | Throw _ => true
  end.

(** A call of a setter of [EmbedBuilder] on data of the post. *)
Inductive BuilderCall :=
| SetAuthor (name iconURL url : string)
| SetURL (url : string)
| SetDescription (description : string)
| AddFields (name value : string)
| SetImage (url : string).

(** What a call of [fs.writeFileSync] that throws leaves of the file. *)
Inductive Leftover :=
| Untouched                (* thrown by the open: the file is as it was *)
| Partial                  (* thrown once the file was open and emptied: the
                              file holds none or a part of the data *)
| Complete.                (* thrown once the data had been written *)

(** How a call of [fs.writeFileSync] ends. *)
Inductive WriteResult :=
| Written
| Failed (e : error) (left : Leftover).

(** The two persisted records. *)
Inductive StateFile := PROCESSED_IDS_FILE | STATE_FILE.

Inductive FileContent (A : Type) :=
| Absent
| Corrupt                  (* present, but [JSON.parse] throws on it *)
| Content (a : A).
Arguments Absent {A}.
Arguments Corrupt {A}.
Arguments Content {A} a.

Record Disk := {
  processed_ids_json : FileContent (gmap string bool);
  bot_state_json : FileContent (option Z)
}.

(** What one [fs.writeFileSync] of [saveState] serialises. *)
Inductive FileData :=
| IdsData (ids : gmap string bool)
| StateData (lastFetchTimestamp : option Z).

(** What [channel.send] is given. *)
Inductive Payload :=
| PEmbeds (e : Embed)
| PFiles (path : string) (name : option string).

(** An HTTP response as far as the code reads it. *)
Record Response (A : Type) := { status : Z; data : A }.
Arguments status {A} r.
Arguments data {A} r.

(** [response.data?.data] of the feed endpoint. *)
Inductive FeedData :=
| FeedArray (tweets : list Tweet)
| FeedOther                (* truthy, not an array *)
| FeedNone.                (* absent or falsy *)

(** What [fetchTweets] hands to [processTweets]. *)
Inductive TweetsValue :=
| TArray (tweets : list Tweet)
| TNotArray.

Inductive event :=
| EvFeedGet
| EvDetailGet (id : string)
| EvMediaGet (url : option string)
| EvMediaSaved (path : string)
| EvAttemptFailed (attempt maxRetries : nat)
| EvDelay (ms : Z)
| EvChannelFetch
| EvMarkSeen (id : string)
| EvSetTimestamp (t : Z)
| EvWriteFile (d : FileData) (r : WriteResult)
| EvSendEmbed (t : Tweet) (e : Embed) (ok : bool)
| EvSendFile (t : Tweet) (path : string) (name : option string) (ok : bool)
| EvCleanupScheduled (path : string) (ms : Z).

(** The oracles.  Each consumes the world and returns the next one. *)
Record Env (W : Type) := {
  Date_now : W -> Z * W;
  axios_get_feed : W -> Res (Response FeedData) * W;
  axios_get_tweet : string -> W -> Res (Response (option TweetDetail)) * W;
  axios_get_media : option string -> W -> Res unit * W;
  fs_writeFileSync : string -> W -> WriteResult * W;
  channels_fetch : W -> Res bool * W;      (* [true]: a channel object *)
  channel_send : Payload -> W -> Res unit * W;
  builder_accepts : BuilderCall -> bool    (* the checks of [EmbedBuilder] *)
}.
Arguments Date_now {W} _ _.
Arguments axios_get_feed {W} _ _.
Arguments axios_get_tweet {W} _ _ _.
Arguments axios_get_media {W} _ _ _.
Arguments fs_writeFileSync {W} _ _ _.
Arguments channels_fetch {W} _ _.
Arguments channel_send {W} _ _ _.
Arguments builder_accepts {W} _ _.

(** Mutable locals of the per tweet block of [processTweets]. *)
Record Locals := {
  embed : Embed;
  hasFoundImage : bool;
  hasFoundVideo : bool;
  videoPath : option string;
  videoFilename : option string
}.

Record St (W : Type) := {
  lastProcessedIds : gmap string bool;
  lastFetchTimestamp : option Z;
  disk : Disk;
  world : W;
  trace : list event;
  loc : Locals
}.
Arguments lastProcessedIds {W} s.
Arguments lastFetchTimestamp {W} s.
Arguments disk {W} s.
Arguments world {W} s.
Arguments trace {W} s.
Arguments loc {W} s.

(** [lastProcessedIds[id]] read as a condition. *)
Definition seen (ids : gmap string bool) (id : string) : bool :=
  default false (ids !! id).

Definition MAX_RETRIES : nat := 3.
Definition RETRY_DELAY : Z := 1000.
Definition ONE_MINUTE : Z := 60 * 1000.
Definition CACHE_DIR : string := "cache".
Definition TWITTER_SINGLE_TWEET_API_BASE : string := "api-neo.bullx.io/v2/tweet/".

(** ** Message composition helpers (pure) *)

(** [c.toUpperCase()] on one ASCII letter. *)
Definition upper (c : Ascii.ascii) : Ascii.ascii :=
  let n := Ascii.nat_of_ascii c in
  if ((97 <=? n) && (n <=? 122))%nat then Ascii.ascii_of_nat (n - 32) else c.

(** [s.charAt(0).toUpperCase() + s.slice(1)]. *)
Definition capitalize (s : string) : string :=
  match s with
  | EmptyString => EmptyString
  | String c rest => String (upper c) rest
  end.

(** The characters that [String.prototype.trim] strips, by their bytes.
    One byte: U+0009 to U+000D and the space. *)
Definition space1 (a : nat) : bool :=
  (((9 <=? a) && (a <=? 13)) || (a =? 32))%nat.

(** Two bytes: U+00A0, the no-break space (C2 A0). *)
Definition space2 (a b : nat) : bool :=
  ((a =? 194) && (b =? 160))%nat.

(** Three bytes: U+1680 (E1 9A 80); U+2000 to U+200A, U+2028, U+2029 and
    U+202F (E2 80 and 80 to 8A, A8, A9, AF); U+205F (E2 81 9F); U+3000
    (E3 80 80); U+FEFF (EF BB BF). *)
Definition space3 (a b c : nat) : bool :=
  ((a =? 225) && (b =? 154) && (c =? 128)
   || (a =? 226) && (b =? 128)
      && ((128 <=? c) && (c <=? 138) || (c =? 168) || (c =? 169) || (c =? 175))
   || (a =? 226) && (b =? 129) && (c =? 159)
   || (a =? 227) && (b =? 128) && (c =? 128)
   || (a =? 239) && (b =? 187) && (c =? 191))%nat.

(** [s.trim() === '']: [s] is made of white space and line terminators. *)
Fixpoint blank (s : string) : bool :=
  match s with
  | EmptyString => true
  | String c1 rest1 =>
      let a := Ascii.nat_of_ascii c1 in
      if space1 a then blank rest1
      else
        match rest1 with
        | EmptyString => false
        | String c2 rest2 =>
            let b := Ascii.nat_of_ascii c2 in
            if space2 a b then blank rest2
            else
              match rest2 with
              | EmptyString => false
              | String c3 rest3 =>
                  space3 a b (Ascii.nat_of_ascii c3) && blank rest3
              end
        end
  end.

(** Lines 255-259. *)
Definition tweetType (tweet : Tweet) : string :=
  if match tw_referenced_tweets tweet with
     | Some rts =>
         match List.find (fun rt => str_is (rt_type rt) "retweeted") rts with
         | Some _ => true
         | None => false
         end
     | None => false
     end
  then "retweet"
  else if truthy (tw_in_reply_to_user_id tweet) then "reply"
  else "tweet".

Definition username_of (user : User) : string :=
  match or_str (u_username user) (u_screen_name user) with
  | Some s => if String.eqb s "" then "unknown" else s
  | None => "unknown"
  end.

Definition tweetUrl_of (user : User) (tweet : Tweet) : string :=
  "https://twitter.com/" +:+ username_of user +:+ "/status/" +:+ tw_id tweet.

(** [tweet.text || ''], line 252. *)
Definition tweetText_of (tweet : Tweet) : string := or_lit (tw_text tweet) "".

(** The test of line 274: [tweetText && tweetText.trim() !== '']. *)
Definition has_text (tweet : Tweet) : bool :=
  negb (String.eqb (tweetText_of tweet) "") && negb (blank (tweetText_of tweet)).

(** Lines 274-284. *)
Definition description_of (tweet : Tweet) : string :=
  if has_text tweet then tweetText_of tweet
  else if String.eqb (tweetType tweet) "retweet" then "Retweeted"
  else if match tw_attachments tweet with
          | Some a => nonempty (media_keys a)
          | None => false
          end
       then "Shared media"
  else "Posted a tweet".

(** The arguments of [setAuthor], lines 267-271. *)
Definition author_of (user : User) : string :=
  or_lit (u_name user) (username_of user) +:+ " (@" +:+ username_of user +:+ ")".

Definition avatarUrl_of (user : User) : string :=
  match or_str (u_profile_image_url_https user) (u_profile_image_url user) with
  | Some s =>
      if String.eqb s ""
      then "https://abs.twimg.com/sticky/default_profile_images/default_profile_normal.png"
      else s
  | None =>
      "https://abs.twimg.com/sticky/default_profile_images/default_profile_normal.png"
  end.

Definition profileUrl_of (user : User) : string :=
  "https://twitter.com/" +:+ username_of user.

(** The value of the field of lines 289-292. *)
Definition tweetLink_of (user : User) (tweet : Tweet) : string :=
  "[View original tweet](" +:+ tweetUrl_of user tweet +:+ ")".

(** The embed as it stands at line 297, before any media is looked for,
    when no setter has thrown. *)
Definition initial_embed (user : User) (tweet : Tweet) (ts : EmbedTime) : Embed :=
  {| e_color := "#1DA1F2";
     e_author_name := author_of user;
     e_author_icon := avatarUrl_of user;
     e_author_url := profileUrl_of user;
     e_url := tweetUrl_of user tweet;
     e_description := description_of tweet;
     e_timestamp := ts;
     e_fields := [("Tweet Link", tweetLink_of user tweet)];
     e_footer := capitalize (tweetType tweet) +:+ " • via Twitter Feed";
     e_image := None |}.

(** The setter calls of lines 265-292 that are given data of the post, in
    the order in which they are made; the placeholders of lines 277-283 are
    constants. *)
Definition card_calls (user : User) (tweet : Tweet) : list BuilderCall :=
  [SetAuthor (author_of user) (avatarUrl_of user) (profileUrl_of user);
   SetURL (tweetUrl_of user tweet)]
  ++ (if has_text tweet then [SetDescription (tweetText_of tweet)] else [])
  ++ [AddFields "Tweet Link" (tweetLink_of user tweet)].

(** ** Video variant selection (pure) *)

(** The test of lines 317 and 343. *)
Definition is_mp4_variant (v : Variant) : bool :=
  str_is (v_type v) "video/mp4" ||
  match v_src v with
  | Some src => endsWith ".mp4" src
  | None => false
  end.

(** The comparator of lines 372 and 460. *)
Definition by_bitrate_desc (a b : Variant) : option Z :=
  Some (default 0 (v_bitrate b) - default 0 (v_bitrate a))%Z.

(** Lines 370-372 and 458-460. *)
Definition mp4Variants (variants : list Variant) : list Variant :=
  sort by_bitrate_desc
    (List.filter (fun variant => str_is (v_content_type variant) "video/mp4") variants).

Definition is_video_media (media : Media) : bool :=
  str_is (m_type media) "video" || str_is (m_type media) "animated_gif".

(** [media.video_info?.variants] when it is truthy. *)
Definition media_variants (media : Media) : option (list Variant) :=
  match m_video_info media with
  | Some vi => vi_variants vi
  | None => None
  end.

(** ** Recency filter (pure) *)

(** [new Date(a.created_at || 0).getTime()], the sort key; [None] is NaN. *)
Definition sort_time (tweet : Tweet) : option Z :=
  match tw_created_at tweet with
  | DateMissing => Some 0%Z
  | DateInvalid => None
  | DateAt ms => Some ms
  end.

(** The comparator of lines 203-207: [timeB - timeA]. *)
Definition by_created_desc (a b : Tweet) : option Z :=
  match sort_time a, sort_time b with
  | Some timeA, Some timeB => Some (timeB - timeA)%Z
  | _, _ => None
  end.

(** [new Date(tweet.created_at).getTime()], the filter key. *)
Definition tweetTime (tweet : Tweet) : option Z :=
  match tw_created_at tweet with
  | DateAt ms => Some ms
  | _ => None
  end.

(** The predicate of lines 213-216; a comparison with NaN is false. *)
Definition is_recent (currentTime : Z) (tweet : Tweet) : bool :=
  match tweetTime tweet with
  | Some t => (currentTime - t <=? ONE_MINUTE)%Z
  | None => false
  end.

Definition recentTweets_of (currentTime : Z) (tweets : list Tweet) : list Tweet :=
  List.filter (is_recent currentTime) (sort by_created_desc tweets).

(** The disk once [d] has been written. *)
Definition store (d : FileData) (dk : Disk) : Disk :=
  match d with
  | IdsData ids =>
      {| processed_ids_json := Content ids;
         bot_state_json := bot_state_json dk |}
  | StateData ts =>
      {| processed_ids_json := processed_ids_json dk;
         bot_state_json := Content ts |}
  end.

(** The disk once the file of [d] has been emptied and not, or not
    completely, written: what is there does not parse, since the closing
    brace of the object is the last character that [JSON.stringify] gives. *)
Definition cut (d : FileData) (dk : Disk) : Disk :=
  match d with
  | IdsData _ =>
      {| processed_ids_json := Corrupt; bot_state_json := bot_state_json dk |}
  | StateData _ =>
      {| processed_ids_json := processed_ids_json dk; bot_state_json := Corrupt |}
  end.

(** The disk after a call of [fs.writeFileSync] on [d] that ended as [r]. *)
Definition written (d : FileData) (r : WriteResult) (dk : Disk) : Disk :=
  match r with
  | Written | Failed _ Complete => store d dk
  | Failed _ Untouched => dk
  | Failed _ Partial => cut d dk
  end.

(** The disk after the writes recorded in a trace; this is what survives when
    the process stops after these events. *)
Definition replay_event (ev : event) (dk : Disk) : Disk :=
  match ev with
  | EvWriteFile d r => written d r dk
  | _ => dk
  end.

Definition replay (evs : list event) (dk : Disk) : Disk :=
  fold_left (fun dk ev => replay_event ev dk) evs dk.

(** ** The state and exception monad of the program *)

Section Program.
Context {W : Type} (env : Env W).

Definition M (A : Type) : Type := St W -> Res A * St W.

Definition ret {A} (a : A) : M A := fun s => (Ok a, s).

Definition throw {A} (e : error) : M A := fun s => (Throw e, s).

Definition bind {A B} (m : M A) (k : A -> M B) : M B :=
  fun s =>
    match m s with
    | (Ok a, s') => k a s'
    | (Throw e, s') => (Throw e, s')
    end.

(** [try { m } catch (e) { h e }]. *)
Definition try_catch {A} (m : M A) (h : error -> M A) : M A :=
  fun s =>
    match m s with
    | (Ok a, s') => (Ok a, s')
    | (Throw e, s') => h e s'
    end.

Notation "x <- m ;; k" := (bind m (fun x => k))
  (at level 100, m at next level, right associativity).
Notation "m ;; k" := (bind m (fun _ => k))
  (at level 100, right associativity).

Definition get : M (St W) := fun s => (Ok s, s).

Definition emit (ev : event) : M unit :=
  fun s =>
    (Ok tt,
     {| lastProcessedIds := lastProcessedIds s;
        lastFetchTimestamp := lastFetchTimestamp s;
        disk := disk s; world := world s;
        trace := trace s ++ [ev]; loc := loc s |}).

Definition set_world (w : W) (s : St W) : St W :=
  {| lastProcessedIds := lastProcessedIds s;
     lastFetchTimestamp := lastFetchTimestamp s;
     disk := disk s; world := w; trace := trace s; loc := loc s |}.

Definition set_loc (l : Locals) (s : St W) : St W :=
  {| lastProcessedIds := lastProcessedIds s;
     lastFetchTimestamp := lastFetchTimestamp s;
     disk := disk s; world := world s; trace := trace s; loc := l |}.

Definition set_disk (d : Disk) (s : St W) : St W :=
  {| lastProcessedIds := lastProcessedIds s;
     lastFetchTimestamp := lastFetchTimestamp s;
     disk := d; world := world s; trace := trace s; loc := loc s |}.

(** An oracle that cannot fail. *)
Definition ask {A} (f : W -> A * W) : M A :=
  fun s => let '(a, w) := f (world s) in (Ok a, set_world w s).

(** An oracle whose failure is an exception. *)
Definition call {A} (f : W -> Res A * W) : M A :=
  fun s =>
    match f (world s) with
    | (Ok a, w) => (Ok a, set_world w s)
    | (Throw e, w) => (Throw e, set_world w s)
    end.

(** [lastProcessedIds[id] = true]. *)
Definition markSeen (id : string) : M unit :=
  fun s =>
    (Ok tt,
     {| lastProcessedIds := <[id := true]> (lastProcessedIds s);
        lastFetchTimestamp := lastFetchTimestamp s;
        disk := disk s; world := world s;
        trace := trace s ++ [EvMarkSeen id]; loc := loc s |}).

(** [lastFetchTimestamp = t]. *)
Definition setTimestamp (t : Z) : M unit :=
  fun s =>
    (Ok tt,
     {| lastProcessedIds := lastProcessedIds s;
        lastFetchTimestamp := Some t;
        disk := disk s; world := world s;
        trace := trace s ++ [EvSetTimestamp t]; loc := loc s |}).

Definition getLoc : M Locals := fun s => (Ok (loc s), s).

Definition modifyLoc (f : Locals -> Locals) : M unit :=
  fun s => (Ok tt, set_loc (f (loc s)) s).

(** ** State files *)

Definition file_path (f : StateFile) : string :=
  match f with
  | PROCESSED_IDS_FILE => "processed_ids.json"
  | STATE_FILE => "bot_state.json"
  end.

(** The data that [saveState] serialises into file [f]. *)
Definition file_data (f : StateFile) (s : St W) : FileData :=
  match f with
  | PROCESSED_IDS_FILE => IdsData (lastProcessedIds s)
  | STATE_FILE => StateData (lastFetchTimestamp s)
  end.

(** One [fs.writeFileSync(file, JSON.stringify(..))]: the file holds what
    the call left, and a call that failed throws. *)
Definition writeStateFile (f : StateFile) : M unit :=
  fun s =>
    let '(r, w) := fs_writeFileSync env (file_path f) (world s) in
    (emit (EvWriteFile (file_data f s) r);;
     match r with
     | Written => ret tt
     | Failed e _ => throw e
     end)
      (set_disk (written (file_data f s) r (disk s)) (set_world w s)).

(** [saveState], lines 64-76. *)
Definition saveState : M unit :=
  try_catch
    (writeStateFile PROCESSED_IDS_FILE;;
     writeStateFile STATE_FILE)
    (fun _ => ret tt).

(** The load at module start, lines 33-61: what the two variables hold once
    the files have been read. *)
Definition loadState (d : Disk) : gmap string bool * option Z :=
  let ts :=
    match bot_state_json d with
    | Content (Some t) => if (t =? 0)%Z then None else Some t
    | _ => None
    end in
  match processed_ids_json d with
  | Corrupt => (∅, None)
  | Absent => (∅, ts)
  | Content ids => (ids, ts)
  end.

(** ** Retry helper *)

(** The [for] loop of [withRetry], lines 82-94, at iteration [attempt];
    [fuel] bounds the number of iterations still to run. *)
Fixpoint retry_loop {T} (fn : M T) (maxRetries : nat) (delay : Z)
    (fuel attempt : nat) (lastError : error) : M T :=
  match fuel with
  | O => throw lastError
  | S fuel' =>
      if (attempt <=? maxRetries)%nat then
        try_catch fn (fun error =>
          emit (EvAttemptFailed attempt maxRetries);;
          (if (attempt <? maxRetries)%nat then emit (EvDelay delay)
           else ret tt);;
          retry_loop fn maxRetries delay fuel' (S attempt) error)
      else throw lastError
  end.

(** [withRetry], lines 79-97.  The loop starts at attempt 1 and leaves by
    its own test after at most [maxRetries] iterations. *)
Definition withRetry {T} (fn : M T) (maxRetries : nat) (delay : Z) : M T :=
  retry_loop fn maxRetries delay (S maxRetries) 1 ErrUndefined.

(** ** The three network operations *)

Definition status_error (st : Z) : error :=
  Err ("API returned status code " +:+ pretty st).

(** [fetchTweets], lines 100-122. *)
Definition fetchTweets : M TweetsValue :=
  withRetry
    (emit EvFeedGet;;
     response <- call (axios_get_feed env);;
     if (status response =? 200)%Z then
       ret match data response with
           | FeedArray tweets => TArray tweets
           | FeedOther => TNotArray
           | FeedNone => TArray []
           end
     else throw (status_error (status response)))
    MAX_RETRIES RETRY_DELAY.

(** [fetchSingleTweet], lines 125-148. *)
Definition fetchSingleTweet (tweetId : string) : M (option TweetDetail) :=
  withRetry
    (emit (EvDetailGet tweetId);;
     response <- call (axios_get_tweet env
                         ("https://" +:+ TWITTER_SINGLE_TWEET_API_BASE +:+ tweetId));;
     if (status response =? 200)%Z then ret (data response)
     else throw (status_error (status response)))
    MAX_RETRIES RETRY_DELAY.

(** [fs.writeFileSync] on a file of the cache directory, whose content is
    not followed: only whether the call throws. *)
Definition writeCacheFile (path : string) : M unit :=
  call (fun w =>
          let '(r, w') := fs_writeFileSync env path w in
          (match r with
           | Written => Ok tt
           | Failed e _ => Throw e
           end, w')).

(** [downloadMedia], lines 151-167. *)
Definition downloadMedia (url : option string) (filename : string) : M string :=
  withRetry
    (emit (EvMediaGet url);;
     call (axios_get_media env url);;
     let filePath := path_join CACHE_DIR filename in
     writeCacheFile filePath;;
     emit (EvMediaSaved filePath);;
     ret filePath)
    MAX_RETRIES RETRY_DELAY.

(** ** The checks of the embed builder *)

Definition validation_error : error := Err "Invalid embed data".

(** A setter of [EmbedBuilder] checks its argument before it stores it, and
    throws when it refuses it. *)
Definition validate (c : BuilderCall) : M unit :=
  if builder_accepts env c then ret tt else throw validation_error.

(** ** Per tweet block: locals *)

Definition initLocals (e : Embed) : Locals :=
  {| embed := e; hasFoundImage := false; hasFoundVideo := false;
     videoPath := None; videoFilename := None |}.

Definition set_embed (f : Embed -> Embed) (l : Locals) : Locals :=
  {| embed := f (embed l); hasFoundImage := hasFoundImage l;
     hasFoundVideo := hasFoundVideo l; videoPath := videoPath l;
     videoFilename := videoFilename l |}.

Definition set_hasFoundImage (l : Locals) : Locals :=
  {| embed := embed l; hasFoundImage := true;
     hasFoundVideo := hasFoundVideo l; videoPath := videoPath l;
     videoFilename := videoFilename l |}.

Definition set_hasFoundVideo (l : Locals) : Locals :=
  {| embed := embed l; hasFoundImage := hasFoundImage l;
     hasFoundVideo := true; videoPath := videoPath l;
     videoFilename := videoFilename l |}.

Definition set_videoPath (p : string) (l : Locals) : Locals :=
  {| embed := embed l; hasFoundImage := hasFoundImage l;
     hasFoundVideo := hasFoundVideo l; videoPath := Some p;
     videoFilename := videoFilename l |}.

Definition set_videoFilename (n : string) (l : Locals) : Locals :=
  {| embed := embed l; hasFoundImage := hasFoundImage l;
     hasFoundVideo := hasFoundVideo l; videoPath := videoPath l;
     videoFilename := Some n |}.

(** [embed.setImage(url); hasFoundImage = true;] and the footer note when
    [count > 1].  The setter checks a string; [undefined] clears the image
    unchecked.  When it throws, nothing has been assigned. *)
Definition useImage (url : option string) (count : nat) : M unit :=
  match url with
  | Some u => validate (SetImage u)
  | None => ret tt
  end;;
  modifyLoc (fun l => set_hasFoundImage (set_embed (setImage url) l));;
  if (1 <? count)%nat
  then modifyLoc (set_embed (footer_note (pretty count +:+ " images")))
  else ret tt.

(** The download block written out at lines 322-334, 348-360, 378-392 and
    466-478: name the file, download, and on a truthy path record the video
    and extend the footer.  Returns whether the video was recorded. *)
Definition attachVideo (videoUrl : option string) (filename note : string) : M bool :=
  modifyLoc (set_videoFilename filename);;
  path <- downloadMedia videoUrl filename;;
  modifyLoc (set_videoPath path);;
  if truthy (Some path) then
    modifyLoc (fun l => set_embed (footer_note note) (set_hasFoundVideo l));;
    ret true
  else ret false.

(** ** Media resolution from the detail record, lines 311-438 *)

(** Case 1, lines 313-337. *)
Definition detail_video (tweet : Tweet) (d : TweetDetail) : M unit :=
  l <- getLoc;;
  match d_video d with
  | Some video =>
      if negb (hasFoundVideo l) && nonempty (vid_variants video) then
        match List.find is_mp4_variant (default [] (vid_variants video)) with
        | Some mp4Variant =>
            attachVideo (or_str (v_src mp4Variant) (v_url mp4Variant))
              ("video_" +:+ tw_id tweet +:+ ".mp4") "Video will follow";;
            ret tt
        | None => ret tt
        end
      else ret tt
  | None => ret tt
  end.

(** Case 2, lines 340-363. *)
Definition detail_parent_video (tweet : Tweet) (d : TweetDetail) : M unit :=
  l <- getLoc;;
  match d_parent d with
  | Some parent =>
      match par_video parent with
      | Some parentVideo =>
          if negb (hasFoundVideo l) && nonempty (vid_variants parentVideo) then
            match List.find is_mp4_variant (default [] (vid_variants parentVideo)) with
            | Some mp4Variant =>
                attachVideo (or_str (v_src mp4Variant) (v_url mp4Variant))
                  ("video_parent_" +:+ tw_id tweet +:+ ".mp4")
                  "Video from referenced tweet will follow";;
                ret tt
            | None => ret tt
            end
          else ret tt
      | None => ret tt
      end
  | None => ret tt
  end.

(** The loop of case 3, lines 367-395; returning without the recursive call
    is the [break]. *)
Fixpoint mediaDetails_video_loop (tweet : Tweet) (medias : list Media) : M unit :=
  match medias with
  | [] => ret tt
  | media :: rest =>
      match (if is_video_media media then media_variants media else None) with
      | Some variants =>
          match mp4Variants variants with
          | best :: _ =>
              found <- attachVideo (v_url best)
                         ("video_" +:+ tw_id tweet +:+ ".mp4") "Video will follow";;
              if found then ret tt
              else mediaDetails_video_loop tweet rest
          | [] => mediaDetails_video_loop tweet rest
          end
      | None => mediaDetails_video_loop tweet rest
      end
  end.

(** Case 3, lines 366-396. *)
Definition detail_mediaDetails_video (tweet : Tweet) (d : TweetDetail) : M unit :=
  l <- getLoc;;
  if negb (hasFoundVideo l) && nonempty (d_mediaDetails d)
  then mediaDetails_video_loop tweet (default [] (d_mediaDetails d))
  else ret tt.

(** The test of line 403. *)
Definition is_media_photo (photo : Photo) : bool :=
  truthy (ph_url photo) &&
  match ph_url photo with
  | Some url => includes "media/" url
  | None => false
  end.

(** The test of line 421. *)
Definition is_photo_media (media : Media) : bool :=
  truthy (m_media_url_https media) && str_is (m_type media) "photo".

(** Lines 398-437.  Each [for] loop stops at its first match, which is
    [List.find]. *)
Definition detail_photos (d : TweetDetail) : M unit :=
  l <- getLoc;;
  if negb (hasFoundVideo l) then
    if nonempty (d_photos d) then
      let photos := default [] (d_photos d) in
      match List.find is_media_photo photos with
      | Some photo => useImage (ph_url photo) (length photos)
      | None => ret tt
      end
    else if nonempty (d_mediaDetails d) then
      let medias := default [] (d_mediaDetails d) in
      match List.find is_photo_media medias with
      | Some media => useImage (m_media_url_https media) (length medias)
      | None => ret tt
      end
    else ret tt
  else ret tt.

(** The body of the inner [try] of lines 306-438. *)
Definition detail_block (tweet : Tweet) : M unit :=
  detailedTweet <- fetchSingleTweet (tw_id tweet);;
  match detailedTweet with
  | Some d =>
      detail_video tweet d;;
      detail_parent_video tweet d;;
      detail_mediaDetails_video tweet d;;
      detail_photos d
  | None => ret tt
  end.

(** ** Media resolution from the raw tweet, lines 445-577 *)

(** [media[0].media_url_https || media[0].media_url]. *)
Definition first_media_url (medias : list Media) : option string :=
  match medias with
  | media :: _ => or_str (m_media_url_https media) (m_media_url media)
  | [] => None
  end.

(** [tweet.extended_entities.media] when it has an element, else []. *)
Definition extended_medias (tweet : Tweet) : list Media :=
  match tw_extended_entities tweet with
  | Some ee => default [] (ext_media ee)
  | None => []
  end.

(** Lines 450-483: a video among the extended entities. *)
Definition raw_extended_video (tweet : Tweet) (medias : list Media) : M unit :=
  match List.find is_video_media medias with
  | Some videoMedia =>
      match media_variants videoMedia with
      | Some variants =>
          try_catch
            match mp4Variants variants with
            | best :: _ =>
                attachVideo (v_url best)
                  ("video_" +:+ tw_id tweet +:+ ".mp4") "Video will follow";;
                ret tt
            | [] => ret tt
            end
            (fun videoError => ret tt)
      | None => ret tt
      end
  | None => ret tt
  end.

(** Lines 485-502: else the first of the extended entities as an image. *)
Definition raw_extended_image (medias : list Media) : M unit :=
  l <- getLoc;;
  if negb (hasFoundVideo l) && negb (hasFoundImage l) then
    let mediaUrl := first_media_url medias in
    if truthy mediaUrl then useImage mediaUrl (length medias)
    else ret tt
  else ret tt.

(** Lines 447-503. *)
Definition raw_extended_entities (tweet : Tweet) : M unit :=
  match extended_medias tweet with
  | [] => ret tt
  | _ :: _ =>
      raw_extended_video tweet (extended_medias tweet);;
      raw_extended_image (extended_medias tweet)
  end.

(** The filter of lines 540-544. *)
Definition is_photo_link (url : UrlEntity) : bool :=
  match u_display_url url with
  | Some d => includes "pic.twitter.com" d || includes "pic.x.com" d
  | None => false
  end ||
  match u_expanded_url url with
  | Some x => includes "/photo/" x
  | None => false
  end.

(** [imageUrlsWithData[0].images[0].url]. *)
Definition first_image_url (urls : list UrlEntity) : option string :=
  match urls with
  | url :: _ =>
      match u_images url with
      | Some (image :: _) => img_url image
      | _ => None
      end
  | [] => None
  end.

(** Lines 518-561. *)
Definition raw_entities_urls (entities : Entities) : M unit :=
  l <- getLoc;;
  if negb (hasFoundImage l) && nonempty (ent_urls entities) then
    let urls := default [] (ent_urls entities) in
    let imageUrlsWithData := List.filter (fun url => nonempty (u_images url)) urls in
    match imageUrlsWithData with
    | _ :: _ =>
        useImage (first_image_url imageUrlsWithData) (length imageUrlsWithData)
    | [] => ret tt
    end;;
    l <- getLoc;;
    if negb (hasFoundImage l) then
      let mediaUrls := List.map u_expanded_url (List.filter is_photo_link urls) in
      match mediaUrls with
      | first :: _ => useImage first (length mediaUrls)
      | [] => ret tt
      end
    else ret tt
  else ret tt.

(** Lines 506-562. *)
Definition raw_entities (tweet : Tweet) : M unit :=
  l <- getLoc;;
  match tw_entities tweet with
  | Some entities =>
      if negb (hasFoundImage l) && negb (hasFoundVideo l) then
        (if nonempty (ent_media entities) then
           let mediaUrl := first_media_url (default [] (ent_media entities)) in
           if truthy mediaUrl then useImage mediaUrl 1 else ret tt
         else ret tt);;
        raw_entities_urls entities
      else ret tt
  | None => ret tt
  end.

(** Lines 445-563. *)
Definition raw_block (tweet : Tweet) : M unit :=
  l <- getLoc;;
  if negb (hasFoundImage l) && negb (hasFoundVideo l) then
    raw_extended_entities tweet;;
    raw_entities tweet
  else ret tt.

(** Lines 566-577. *)
Definition attachments_note (tweet : Tweet) : M unit :=
  l <- getLoc;;
  match tw_attachments tweet with
  | Some a =>
      if negb (hasFoundImage l) && negb (hasFoundVideo l) && nonempty (media_keys a)
      then modifyLoc (set_embed (footer_note "Contains media"))
      else ret tt
  | None => ret tt
  end.

(** Lines 306-577: everything that decides the media of one tweet. *)
Definition resolveMedia (tweet : Tweet) : M unit :=
  try_catch (detail_block tweet) (fun detailError => ret tt);;
  raw_block tweet;;
  attachments_note tweet.

(** ** Publishing, lines 580-615 *)

Definition send_event (tweet : Tweet) (p : Payload) (ok : bool) : event :=
  match p with
  | PEmbeds e => EvSendEmbed tweet e ok
  | PFiles path name => EvSendFile tweet path name ok
  end.

(** [await channel.send(payload)]; the tweet only labels the event. *)
Definition channelSend (tweet : Tweet) (p : Payload) : M unit :=
  fun s =>
    match channel_send env p (world s) with
    | (Ok _, w) => emit (send_event tweet p true) (set_world w s)
    | (Throw e, w) => (emit (send_event tweet p false);; throw e) (set_world w s)
    end.

Definition publish (tweet : Tweet) : M unit :=
  (if truthy (tw_in_reply_to_user_id tweet)
   then modifyLoc (set_embed (addFields "Replying to a tweet"
                                "This is a reply to another user's tweet."))
   else ret tt);;
  l <- getLoc;;
  channelSend tweet (PEmbeds (embed l));;
  match videoPath l with
  | Some path =>
      if hasFoundVideo l && truthy (Some path) then
        try_catch
          (channelSend tweet (PFiles path (videoFilename l));;
           emit (EvCleanupScheduled path 5000))
          (fun videoError => ret tt)
      else ret tt
  | None => ret tt
  end.

(** ** The polling cycle *)

(** Lines 246-297: the card of the post is built.  The setters are called
    in the order of the source, and the first one that refuses its argument
    ends the block by its exception.  [setTimestamp] turns the date into a
    string by [toISOString], which throws on a date that is not a number. *)
Definition buildEmbed (user : User) (tweet : Tweet) : M Embed :=
  validate (SetAuthor (author_of user) (avatarUrl_of user) (profileUrl_of user));;
  validate (SetURL (tweetUrl_of user tweet));;
  (if has_text tweet then validate (SetDescription (tweetText_of tweet))
   else ret tt);;
  ts <- match tw_created_at tweet with
        | DateMissing => now <- ask (Date_now env);; ret (TsAt now)
        | DateInvalid => throw (Err "Invalid time value")
        | DateAt ms => ret (TsAt ms)
        end;;
  validate (AddFields "Tweet Link" (tweetLink_of user tweet));;
  ret (initial_embed user tweet ts).

(** Lines 239-615, the body of the per tweet [try]. *)
Definition handleTweet (tweet : Tweet) : M unit :=
  match tw_user tweet with
  | None => ret tt
  | Some user =>
      e <- buildEmbed user tweet;;
      modifyLoc (fun _ => initLocals e);;
      resolveMedia tweet;;
      publish tweet
  end.

(** One iteration of the loop of lines 228-620. *)
Definition processTweet (tweet : Tweet) : M unit :=
  s <- get;;
  if seen (lastProcessedIds s) (tw_id tweet) then ret tt
  else
    markSeen (tw_id tweet);;
    try_catch (handleTweet tweet) (fun error => ret tt).

Fixpoint forEach {A} (f : A -> M unit) (l : list A) : M unit :=
  match l with
  | [] => ret tt
  | x :: l' => f x;; forEach f l'
  end.

(** The first run branch, lines 184-193. *)
Definition firstRun (tweets : list Tweet) (currentFetchTime : Z) : M unit :=
  forEach (fun tweet => markSeen (tw_id tweet)) tweets;;
  setTimestamp currentFetchTime;;
  saveState.

(** Lines 218-629: what is done with the recent tweets. *)
Definition processRecent (recentTweets : list Tweet) (currentFetchTime : Z) : M unit :=
  match recentTweets with
  | [] => setTimestamp currentFetchTime
  | _ :: _ =>
      forEach processTweet recentTweets;;
      if (0 <? length recentTweets)%nat then
        setTimestamp currentFetchTime;;
        saveState
      else setTimestamp currentFetchTime
  end.

(** Lines 202-629, once the channel is at hand. *)
Definition laterRun (tweets : list Tweet) (currentFetchTime : Z) : M unit :=
  currentTime <- ask (Date_now env);;
  processRecent (recentTweets_of currentTime tweets) currentFetchTime.

(** [processTweets], lines 170-634. *)
Definition processTweets : M unit :=
  try_catch
    (tweets <- fetchTweets;;
     match tweets with
     | TNotArray => ret tt
     | TArray tweets =>
         currentFetchTime <- ask (Date_now env);;
         s <- get;;
         match lastFetchTimestamp s with
         | None => firstRun tweets currentFetchTime
         | Some _ =>
             emit EvChannelFetch;;
             channel <- call (channels_fetch env);;
             if channel then laterRun tweets currentFetchTime
             else ret tt
         end
     end)
    (fun error => ret tt).

End Program.

Notation "x <- m ;; k" := (bind m (fun x => k))
  (at level 100, m at next level, right associativity).
Notation "m ;; k" := (bind m (fun _ => k))
  (at level 100, right associativity).

(** ** Vocabulary of the statements *)

Definition is_delay (ev : event) : bool :=
  match ev with
  | EvDelay _ => true
  | _ => false
  end.

(** Number of waits recorded in a trace. *)
Definition delays (evs : list event) : nat := length (List.filter is_delay evs).

(** The [catch] block of [withRetry], lines 86-92, at iteration [attempt]. *)
Definition after_failure {W} (attempt maxRetries : nat) (delay : Z) : M (W:=W) unit :=
  emit (EvAttemptFailed attempt maxRetries);;
  if (attempt <? maxRetries)%nat then emit (EvDelay delay) else ret tt.

(** The state reached when [j] attempts in a row, the first of them numbered
    [a], have failed. *)
Fixpoint run_failures {W T} (fn : M (W:=W) T) (maxRetries : nat) (delay : Z)
    (a j : nat) (s : St W) : St W :=
  match j with
  | O => s
  | S j' =>
      run_failures fn maxRetries delay (S a) j'
        (after_failure a maxRetries delay (fn s).2).2
  end.

(** Outcome and final state of attempt [k] (counted from 1) of
    [withRetry fn maxRetries delay] started in [s], the earlier attempts
    having failed. *)
Definition attempt_run {W T} (fn : M (W:=W) T) (maxRetries : nat) (delay : Z)
    (k : nat) (s : St W) : Res T * St W :=
  fn (run_failures fn maxRetries delay 1 (k - 1) s).

(** The operation does not wait by itself. *)
Definition quiet {W T} (fn : M (W:=W) T) : Prop :=
  forall s, delays (trace (fn s).2) = delays (trace s).

(** The events appended to the trace between two states. *)
Definition emitted {W} (s s' : St W) : list event :=
  drop (length (trace s)) (trace s').

(** A message sent to the channel. *)
Definition is_send (ev : event) : Prop :=
  match ev with
  | EvSendEmbed _ _ _ | EvSendFile _ _ _ _ => True
  | _ => False
  end.

(** A message sent to the channel for the fetched post [t]. *)
Definition sent_for (t : Tweet) (ev : event) : Prop :=
  match ev with
  | EvSendEmbed t' _ _ | EvSendFile t' _ _ _ => t' = t
  | _ => False
  end.

(** A message sent to the channel for a post with identifier [id]. *)
Definition sent_for_id (id : string) (ev : event) : Prop :=
  match ev with
  | EvSendEmbed t _ _ | EvSendFile t _ _ _ => tw_id t = id
  | _ => False
  end.

(** Events of the detail fetch and of the media download. *)
Definition media_event (ev : event) : Prop :=
  match ev with
  | EvDetailGet _ | EvMediaGet _ | EvMediaSaved _
  | EvAttemptFailed _ _ | EvDelay _ => True
  | _ => False
  end.

(** Events of requests that neither publish nor touch the program state. *)
Definition io_event (ev : event) : Prop :=
  match ev with
  | EvFeedGet | EvChannelFetch | EvDetailGet _ | EvMediaGet _ | EvMediaSaved _
  | EvAttemptFailed _ _ | EvDelay _ => True
  | _ => False
  end.

(** Events of the feed request and of the channel lookup. *)
Definition feed_event (ev : event) : Prop :=
  match ev with
  | EvFeedGet | EvChannelFetch | EvAttemptFailed _ _ | EvDelay _ => True
  | _ => False
  end.

(** Events that processing the post [t] may cause once it is marked. *)
Definition net_event (t : Tweet) (ev : event) : Prop :=
  match ev with
  | EvSendEmbed t' _ _ | EvSendFile t' _ _ _ => t' = t
  | EvMarkSeen _ | EvSetTimestamp _ | EvWriteFile _ _ => False
  | _ => True
  end.

(** A predicate on states that changes of the world, changes of the locals
    and events of class [E] do not falsify. *)
Record Frame {W} (I : St W -> Prop) (E : event -> Prop) : Prop := {
  frame_world : forall s w, I s -> I (set_world w s);
  frame_loc : forall s l, I s -> I (set_loc l s);
  frame_emit : forall s ev, E ev -> I s -> I (emit ev s).2
}.

Definition preserves {W A} (I : St W -> Prop) (m : M (W:=W) A) : Prop :=
  forall s, I s -> I (m s).2.

(** [m] acts on the state only through the world, the locals and events of
    class [E]. *)
Definition frames {W A} (E : event -> Prop) (m : M (W:=W) A) : Prop :=
  forall I, Frame I E -> preserves I m.

(** The variables and files are those of [s0], and the trace is the one of
    [s0] followed by events of class [E]. *)
Definition same_memory {W} (E : event -> Prop) (s0 s : St W) : Prop :=
  lastProcessedIds s = lastProcessedIds s0 /\
  lastFetchTimestamp s = lastFetchTimestamp s0 /\
  disk s = disk s0 /\
  exists evs, trace s = trace s0 ++ evs /\ Forall E evs.

(** A cycle that is not the first one, whose fetch returned [tweets], whose
    channel lookup returned a channel, and that read the clock as
    [currentFetchTime] after the fetch and as [currentTime] before the
    recency filter. *)
Definition later_cycle {W} (env : Env W) (s : St W) (tweets : list Tweet)
    (currentFetchTime currentTime : Z) : Prop :=
  lastFetchTimestamp s <> None /\
  exists s1 w2 w3 w4,
    fetchTweets env s = (Ok (TArray tweets), s1) /\
    Date_now env (world s1) = (currentFetchTime, w2) /\
    channels_fetch env w2 = (Ok true, w3) /\
    Date_now env w3 = (currentTime, w4).

(** The first cycle ever: no timestamp yet, the fetch returned [tweets] and
    the clock read [currentFetchTime]. *)
Definition first_cycle {W} (env : Env W) (s : St W) (tweets : list Tweet)
    (currentFetchTime : Z) : Prop :=
  lastFetchTimestamp s = None /\
  exists s1 w2,
    fetchTweets env s = (Ok (TArray tweets), s1) /\
    Date_now env (world s1) = (currentFetchTime, w2).

(** What the loop over the recent tweets [L] may do to a state [s0]: mark
    identifiers of tweets of [L], and cause events of these tweets. *)
Definition loop_event (L : list Tweet) (ev : event) : Prop :=
  exists t, In t L /\ (net_event t ev \/ ev = EvMarkSeen (tw_id t)).

Definition loop_effect {W} (L : list Tweet) (s0 s : St W) : Prop :=
  lastFetchTimestamp s = lastFetchTimestamp s0 /\
  disk s = disk s0 /\
  (forall id, (forall t, In t L -> tw_id t <> id) ->
     lastProcessedIds s !! id = lastProcessedIds s0 !! id) /\
  exists evs, trace s = trace s0 ++ evs /\ Forall (loop_event L) evs.

(** The identifier [id] stays marked and nothing is sent for it. *)
Definition seen_kept {W} (id : string) (s0 s : St W) : Prop :=
  seen (lastProcessedIds s) id = true /\
  exists evs, trace s = trace s0 ++ evs /\
    Forall (fun ev => ~ sent_for_id id ev) evs.

(** The events with which a cycle ends: the new timestamp and the writes of
    [saveState]. *)
Definition closing_event (ev : event) : Prop :=
  match ev with
  | EvSetTimestamp _ | EvWriteFile _ _ => True
  | _ => False
  end.

(** The state of a process that starts on the disk [d]: the variables hold
    what [loadState] reads, nothing has happened yet. *)
Definition no_embed : Embed :=
  {| e_color := ""; e_author_name := ""; e_author_icon := ""; e_author_url := "";
     e_url := ""; e_description := ""; e_timestamp := TsUnset; e_fields := [];
     e_footer := ""; e_image := None |}.

Definition restart {W} (d : Disk) (w : W) : St W :=
  {| lastProcessedIds := (loadState d).1;
     lastFetchTimestamp := (loadState d).2;
     disk := d; world := w; trace := []; loc := initLocals no_embed |}.

(** ** Concrete posts, environments and states used as instances *)

Definition alice : User :=
  {| u_username := Some "alice"; u_screen_name := None; u_name := Some "Alice";
     u_profile_image_url_https := None; u_profile_image_url := None |}.

Definition post (id : string) (created : Z) (user : option User) : Tweet :=
  {| tw_id := id; tw_created_at := DateAt created; tw_user := user;
     tw_text := Some "gm"; tw_referenced_tweets := None;
     tw_in_reply_to_user_id := None; tw_attachments := None;
     tw_extended_entities := None; tw_entities := None |}.

(** The clock of the instances reads 100000 ms: a post created at 99000 is
    one second old, a post created at 1000 is 99 seconds old. *)
Definition fresh_post : Tweet := post "2" 99000 (Some alice).
Definition stale_post : Tweet := post "1" 1000 (Some alice).
Definition anonymous_post : Tweet := post "3" 99000 None.

(** An environment without state: the feed always returns [feed], the clock
    always reads 100000, the detail endpoint always returns [detail], a
    media download succeeds iff [media_ok], everything else succeeds and the
    builder accepts every argument. *)
Definition fixed_env (feed : list Tweet) (detail : option TweetDetail)
    (media_ok : bool) : Env unit :=
  {| Date_now := fun w => (100000%Z, w);
     axios_get_feed := fun w => (Ok {| status := 200; data := FeedArray feed |}, w);
     axios_get_tweet := fun _ w => (Ok {| status := 200; data := detail |}, w);
     axios_get_media := fun _ w =>
       (if media_ok then Ok tt else Throw (Err "timeout of 15000ms exceeded"), w);
     fs_writeFileSync := fun _ w => (Written, w);
     channels_fetch := fun w => (Ok true, w);
     channel_send := fun _ w => (Ok tt, w);
     builder_accepts := fun _ => true |}.

(** A process that has run before (timestamp 5000) and has seen nothing. *)
Definition running_disk : Disk :=
  {| processed_ids_json := Content ∅; bot_state_json := Content (Some 5000%Z) |}.

Definition running_state : St unit := restart running_disk tt.

(** A process that has never run. *)
Definition empty_disk : Disk :=
  {| processed_ids_json := Absent; bot_state_json := Absent |}.

Definition new_state : St unit := restart empty_disk tt.

(** An operation that fails on its first [failures] calls and then returns
    7; the world is the number of calls made so far. *)
Definition failure_of_call (n : nat) : error :=
  match n with
  | 1%nat => Err "ECONNRESET on call 1"
  | 2%nat => Err "ECONNRESET on call 2"
  | _ => Err "ECONNRESET on call 3"
  end.

Definition flaky (failures : nat) : M (W:=nat) Z :=
  call (fun n =>
          (if (n <? failures)%nat then Throw (failure_of_call (S n)) else Ok 7%Z,
           S n)).

(** The first sentence of the testable properties, read literally for the
    cycles after the first: a fetched post older than the window ends up
    marked and is not published. *)
Definition old_posts_marked_and_unpublished {W} (env : Env W) (s : St W) : Prop :=
  forall tweets currentFetchTime currentTime,
    later_cycle env s tweets currentFetchTime currentTime ->
    forall P c,
      In P tweets -> tw_created_at P = DateAt c ->
      (ONE_MINUTE < currentTime - c)%Z ->
      seen (lastProcessedIds (processTweets env s).2) (tw_id P) = true /\
      forall ev, In ev (emitted s (processTweets env s).2) -> ~ sent_for P ev.

(** Crash safety of the seen marker, read literally: if the process stops
    after any number [n] of events of a cycle, by which time the embed of a
    post has been sent, the process restarted on the disk as it is then does
    not send the same embed for this post again. *)
Definition crash_safe {W} (env : Env W) (s : St W) : Prop :=
  forall n P e,
    let evs := emitted s (processTweets env s).2 in
    In (EvSendEmbed P e true) (firstn n evs) ->
    forall w ok,
      ~ In (EvSendEmbed P e ok)
           (trace (processTweets env (restart (replay (firstn n evs) (disk s)) w)).2).

(** The trace is the one of [s0] followed by events whose writes, replayed
    on the disk of [s0], give the disk. *)
Definition disk_replayed {W} (s0 s : St W) : Prop :=
  exists evs, trace s = trace s0 ++ evs /\ disk s = replay evs (disk s0).

(** Marking every tweet of a list. *)
Definition mark_all (tweets : list Tweet) (ids : gmap string bool) : gmap string bool :=
  fold_left (fun ids tweet => <[tw_id tweet := true]> ids) tweets ids.

(** [variant.bitrate || 0]. *)
Definition bitrate (v : Variant) : Z := default 0%Z (v_bitrate v).

(** The variants of the example: two MP4 files of bitrate 100 and 500 and a
    WebM file of bitrate 900, every field filled in whichever tier reads it. *)
Definition variant (kind url : string) (rate : Z) : Variant :=
  {| v_type := Some kind; v_src := Some url; v_url := Some url;
     v_content_type := Some kind; v_bitrate := Some rate |}.

Definition mp4_100 : Variant := variant "video/mp4" "https://video.twimg.com/v/100.mp4" 100.
Definition mp4_500 : Variant := variant "video/mp4" "https://video.twimg.com/v/500.mp4" 500.
Definition webm_900 : Variant := variant "video/webm" "https://video.twimg.com/v/900.webm" 900.

Definition example_variants : list Variant := [mp4_100; mp4_500; webm_900].

Definition no_detail : TweetDetail :=
  {| d_video := None; d_parent := None; d_mediaDetails := None; d_photos := None |}.

(** A detail record whose [video] object carries the example variants. *)
Definition detail_with_video : TweetDetail :=
  {| d_video := Some {| vid_variants := Some example_variants |};
     d_parent := None; d_mediaDetails := None; d_photos := None |}.

(** A detail record whose [mediaDetails] carry them. *)
Definition detail_with_mediaDetails : TweetDetail :=
  {| d_video := None; d_parent := None;
     d_mediaDetails :=
       Some [{| m_type := Some "video";
                m_video_info := Some {| vi_variants := Some example_variants |};
                m_media_url_https := Some "https://pbs.twimg.com/media/thumb.jpg";
                m_media_url := None |}];
     d_photos := None |}.

(** ** Vocabulary of the statements about media resolution *)

(** A download went through; a download was requested. *)
Definition saved (evs : list event) : Prop := exists p, In (EvMediaSaved p) evs.
Definition tried (evs : list event) : Prop := exists u, In (EvMediaGet u) evs.

(** Events of the detail fetch and of the waits between attempts. *)
Definition quiet_event (ev : event) : Prop :=
  match ev with
  | EvDetailGet _ | EvAttemptFailed _ _ | EvDelay _ => True
  | _ => False
  end.

(** The image that lines 485-561 choose from the raw tweet when no video
    has been found: the first extended entity, else the first entity, else
    the first URL carrying an image list, else the first photo link. *)
Definition raw_urls_image (entities : Entities) : option string :=
  if nonempty (ent_urls entities) then
    let urls := default [] (ent_urls entities) in
    match List.filter (fun url => nonempty (u_images url)) urls with
    | url :: rest =>
        if truthy (first_image_url (url :: rest))
        then first_image_url (url :: rest) else None
    | [] =>
        match List.map u_expanded_url (List.filter is_photo_link urls) with
        | first :: _ => if truthy first then first else None
        | [] => None
        end
    end
  else None.

Definition raw_entities_image (tweet : Tweet) : option string :=
  match tw_entities tweet with
  | Some entities =>
      if nonempty (ent_media entities)
         && truthy (first_media_url (default [] (ent_media entities)))
      then first_media_url (default [] (ent_media entities))
      else raw_urls_image entities
  | None => None
  end.

Definition raw_image (tweet : Tweet) : option string :=
  if truthy (first_media_url (extended_medias tweet))
  then first_media_url (extended_medias tweet)
  else raw_entities_image tweet.

(** The locals once a video has been recorded by [attachVideo]. *)
Definition video_found (filename note : string) (l : Locals) : Locals :=
  set_embed (footer_note note)
    (set_hasFoundVideo
       (set_videoPath (path_join CACHE_DIR filename)
          (set_videoFilename filename l))).

(** The outcome of a computation satisfies [Good] when it returns and [Inv]
    when it throws. *)
Definition ends {W T} (Inv : St W -> Prop) (Good : T -> St W -> Prop)
    (r : Res T * St W) : Prop :=
  match r with
  | (Ok v, s') => Good v s'
  | (Throw _, s') => Inv s'
  end.

(** Events of the second message of a post: the file and its clean up. *)
Definition file_event (t : Tweet) (ev : event) : Prop :=
  match ev with
  | EvSendFile t' _ _ _ => t' = t
  | EvCleanupScheduled _ _ => True
  | _ => False
  end.

(** A detail record with a video and a photo, and a raw tweet that carries
    an image of its own among its entities. *)
Definition detail_with_video_and_photo : TweetDetail :=
  {| d_video := Some {| vid_variants := Some example_variants |};
     d_parent := None; d_mediaDetails := None;
     d_photos := Some [{| ph_url := Some "https://pbs.twimg.com/media/detail.jpg" |}] |}.

Definition picture_post : Tweet :=
  {| tw_id := "4"; tw_created_at := DateAt 99000; tw_user := Some alice;
     tw_text := Some "look"; tw_referenced_tweets := None;
     tw_in_reply_to_user_id := None; tw_attachments := None;
     tw_extended_entities := None;
     tw_entities :=
       Some {| ent_media :=
                 Some [{| m_type := Some "photo"; m_video_info := None;
                          m_media_url_https :=
                            Some "https://pbs.twimg.com/media/raw.jpg";
                          m_media_url := None |}];
               ent_urls := None |} |}.

(** The image that lines 398-437 choose from the detail record, when they
    choose one. *)
Definition detail_image (d : TweetDetail) : option (option string) :=
  if nonempty (d_photos d) then
    match List.find is_media_photo (default [] (d_photos d)) with
    | Some photo => Some (ph_url photo)
    | None => None
    end
  else if nonempty (d_mediaDetails d) then
    match List.find is_photo_media (default [] (d_mediaDetails d)) with
    | Some media => Some (m_media_url_https media)
    | None => None
    end
  else None.

(** ** Vocabulary of the statements about several cycles and about start up *)

(** [n] polling cycles run one after the other, each one complete before the
    next one starts. *)
Fixpoint runCycles {W} (env : Env W) (n : nat) : M (W:=W) unit :=
  match n with
  | O => ret tt
  | S n' => processTweets env;; runCycles env n'
  end.

(** The embed messages of a trace that are for a post with identifier [id]. *)
Definition is_embed_for (id : string) (ev : event) : bool :=
  match ev with
  | EvSendEmbed t _ _ => String.eqb (tw_id t) id
  | _ => false
  end.

Definition embeds_for (id : string) (evs : list event) : nat :=
  length (List.filter (is_embed_for id) evs).

(** What [axios.get] hands to the code when the server answers with status
    [st] and body [d]: the response for a status from 200 to 299, and an
    exception for any other status, as the default [validateStatus] has it. *)
Definition http_error (st : Z) : error :=
  Err ("Request failed with status code " +:+ pretty st).

Definition axios_result {A} (st : Z) (d : A) : Res (Response A) :=
  if ((200 <=? st) && (st <? 300))%Z then Ok {| status := st; data := d |}
  else Throw (http_error st).

(** The error with which one attempt of [fetchTweets] ends on an answer of
    status [st] other than 200. *)
Definition rejection (st : Z) : error :=
  if ((200 <=? st) && (st <? 300))%Z then status_error st else http_error st.

(** An environment without state, as [fixed_env], whose feed server
    answers with status [st] and body [feed], whose channel lookup gives
    [channel], and whose file writes succeed iff [write_ok]; a write that
    fails has emptied the file. *)
Definition plain_env (st : Z) (feed : FeedData) (channel : Res bool)
    (write_ok : bool) : Env unit :=
  {| Date_now := fun w => (100000%Z, w);
     axios_get_feed := fun w => (axios_result st feed, w);
     axios_get_tweet := fun _ w => (Ok {| status := 200; data := None |}, w);
     axios_get_media := fun _ w => (Ok tt, w);
     fs_writeFileSync := fun _ w =>
       (if write_ok then Written
        else Failed (Err "ENOSPC: no space left on device") Partial, w);
     channels_fetch := fun w => (channel, w);
     channel_send := fun _ w => (Ok tt, w);
     builder_accepts := fun _ => true |}.

(** A process that has run before and has already published post 2. *)
Definition seen_disk : Disk :=
  {| processed_ids_json := Content (<["2" := true]> ∅);
     bot_state_json := Content (Some 5000%Z) |}.

Definition seen_state : St unit := restart seen_disk tt.

(** The embeds for [id] since the state [s0] number at most one, and none
    while [id] is not marked. *)
Definition once {W} (id : string) (s0 s : St W) : Prop :=
  exists evs, trace s = trace s0 ++ evs /\
    (embeds_for id evs <= 1)%nat /\
    (seen (lastProcessedIds s) id = false -> embeds_for id evs = 0%nat).

(** ** The reset script (src/reset.js)

    The script resolves the same two paths as the bot and deletes the files
    that exist.  The disk is the one of the bot; [fs.unlinkSync] is an oracle,
    and a call that throws is taken to leave the file in place. *)

(** [fs.existsSync(file)]. *)
Definition existsSync (f : StateFile) (d : Disk) : bool :=
  match f with
  | PROCESSED_IDS_FILE =>
      match processed_ids_json d with Absent => false | _ => true end
  | STATE_FILE =>
      match bot_state_json d with Absent => false | _ => true end
  end.

(** The disk once [f] has been unlinked. *)
Definition unlinked (f : StateFile) (d : Disk) : Disk :=
  match f with
  | PROCESSED_IDS_FILE =>
      {| processed_ids_json := Absent; bot_state_json := bot_state_json d |}
  | STATE_FILE =>
      {| processed_ids_json := processed_ids_json d; bot_state_json := Absent |}
  end.

(** The lines that the script prints. *)
Inductive console :=
| LogResetting
| LogDeleted (f : StateFile)
| LogDeleteError (f : StateFile) (e : error)
| LogNoNeed (f : StateFile)
| LogHasBeenReset
| LogAlreadyFresh.

Record ResetSt (V : Type) := {
  r_disk : Disk;
  r_world : V;
  r_console : list console;
  resetOccurred : bool
}.
Arguments r_disk {V} r.
Arguments r_world {V} r.
Arguments r_console {V} r.
Arguments resetOccurred {V} r.

(** One of the two blocks of lines 20-31 and 34-45, for the file [f]. *)
Definition deleteIfExists {V} (fs_unlinkSync : string -> V -> Res unit * V)
    (f : StateFile) (st : ResetSt V) : ResetSt V :=
  if existsSync f (r_disk st) then
    match fs_unlinkSync (file_path f) (r_world st) with
    | (Ok _, v) =>
        {| r_disk := unlinked f (r_disk st); r_world := v;
           r_console := r_console st ++ [LogDeleted f];
           resetOccurred := true |}
    | (Throw e, v) =>
        {| r_disk := r_disk st; r_world := v;
           r_console := r_console st ++ [LogDeleteError f e];
           resetOccurred := resetOccurred st |}
    end
  else
    {| r_disk := r_disk st; r_world := r_world st;
       r_console := r_console st ++ [LogNoNeed f];
       resetOccurred := resetOccurred st |}.

(** [resetBotState], lines 14-50. *)
Definition resetBotState {V} (fs_unlinkSync : string -> V -> Res unit * V)
    (d : Disk) (v : V) : ResetSt V :=
  let st := {| r_disk := d; r_world := v; r_console := [LogResetting];
               resetOccurred := false |} in
  let st := deleteIfExists fs_unlinkSync PROCESSED_IDS_FILE st in
  let st := deleteIfExists fs_unlinkSync STATE_FILE st in
  {| r_disk := r_disk st; r_world := r_world st;
     r_console := r_console st
                  ++ [if resetOccurred st then LogHasBeenReset else LogAlreadyFresh];
     resetOccurred := resetOccurred st |}.

(** A file system on which every unlink succeeds, and one on which the
    unlink of [bot_state.json] fails. *)
Definition unlink_ok (path : string) (v : unit) : Res unit * unit := (Ok tt, v).

Definition unlink_state_locked (path : string) (v : unit) : Res unit * unit :=
  (if String.eqb path "bot_state.json"
   then Throw (Err "EPERM: operation not permitted, unlink")
   else Ok tt, v).

(** ** Vocabulary of the statements about the recency filter *)

(** The sort key of line 204 as a number, for a date that is not NaN. *)
Definition sort_key (tweet : Tweet) : Z := default 0%Z (sort_time tweet).

(** Every element is at least as new as the ones after it. *)
Fixpoint newest_first (l : list Tweet) : Prop :=
  match l with
  | [] => True
  | a :: l' => Forall (fun b => (sort_key b <= sort_key a)%Z) l' /\ newest_first l'
  end.

(** Every message of the trace since [s0] is for a post that has a user. *)
Definition sender_has_user (ev : event) : Prop :=
  match ev with
  | EvSendEmbed t _ _ | EvSendFile t _ _ _ => tw_user t <> None
  | _ => True
  end.

Definition senders_have_users {W} (s0 s : St W) : Prop :=
  exists evs, trace s = trace s0 ++ evs /\ Forall sender_has_user evs.

(** ** Vocabulary of the statements about the published message *)

(** The two names under which a video is cached, lines 322, 348, 378, 466. *)
Definition good_name (tweet : Tweet) (fn : string) : Prop :=
  fn = "video_" +:+ tw_id tweet +:+ ".mp4" \/
  fn = "video_parent_" +:+ tw_id tweet +:+ ".mp4".

(** [e] is [e0] but for the image and for notes appended to the footer. *)
Definition same_card (e0 e : Embed) : Prop :=
  e_color e = e_color e0 /\ e_author_name e = e_author_name e0 /\
  e_author_icon e = e_author_icon e0 /\ e_author_url e = e_author_url e0 /\
  e_url e = e_url e0 /\ e_description e = e_description e0 /\
  e_timestamp e = e_timestamp e0 /\ e_fields e = e_fields e0 /\
  exists notes, e_footer e = e_footer e0 +:+ notes.

(** The locals during media resolution: the embed is still the card [e0],
    and a recorded video is a cached file under one of the two names. *)
Definition resolved (tweet : Tweet) (e0 : Embed) (l : Locals) : Prop :=
  same_card e0 (embed l) /\
  (hasFoundVideo l = true ->
   exists fn, good_name tweet fn /\ videoFilename l = Some fn /\
              videoPath l = Some (path_join CACHE_DIR fn)).

(** Triples on the locals: started in [P], [m] returns in [Q] or throws in
    [T]. *)
Definition tri {W A} (P : Locals -> Prop) (m : M (W:=W) A)
    (Q : A -> Locals -> Prop) (T : Locals -> Prop) : Prop :=
  forall s, P (loc s) ->
    match (m s).1 with
    | Ok a => Q a (loc (m s).2)
    | Throw _ => T (loc (m s).2)
    end.

(** The embed that [publish] sends when the locals are [l], lines 580-588. *)
Definition embed_to_send (tweet : Tweet) (l : Locals) : Embed :=
  if truthy (tw_in_reply_to_user_id tweet)
  then addFields "Replying to a tweet" "This is a reply to another user's tweet."
         (embed l)
  else embed l.

(** What the embed of a post shows, whatever media resolution found. *)
Definition card_of (user : User) (tweet : Tweet) (e : Embed) : Prop :=
  e_color e = "#1DA1F2" /\
  e_author_name e
  = or_lit (u_name user) (username_of user) +:+ " (@" +:+ username_of user +:+ ")" /\
  e_author_url e = "https://twitter.com/" +:+ username_of user /\
  e_url e = tweetUrl_of user tweet /\
  e_description e = description_of tweet /\
  blank (e_description e) = false /\
  (forall ms, tw_created_at tweet = DateAt ms -> e_timestamp e = TsAt ms) /\
  e_fields e
  = ("Tweet Link", "[View original tweet](" +:+ tweetUrl_of user tweet +:+ ")")
    :: (if truthy (tw_in_reply_to_user_id tweet)
        then [("Replying to a tweet", "This is a reply to another user's tweet.")]
        else []) /\
  exists notes,
    e_footer e = capitalize (tweetType tweet) +:+ " • via Twitter Feed" +:+ notes.

(** A message as the bot composes it: an embed is the card of its post, a
    file is a cached video named after its post. *)
Definition well_formed_message (ev : event) : Prop :=
  match ev with
  | EvSendEmbed t e _ => exists user, tw_user t = Some user /\ card_of user t e
  | EvSendFile t path name _ =>
      exists fn, good_name t fn /\ name = Some fn /\ path = path_join CACHE_DIR fn
  | _ => True
  end.

Definition messages_well_formed {W} (s0 s : St W) : Prop :=
  exists evs, trace s = trace s0 ++ evs /\ Forall well_formed_message evs.

(** The messages that follow the embed of a post: nothing, or the video
    file, followed by the scheduling of its clean up when it went through. *)
Definition file_part (tweet : Tweet) (ok : bool) (l : Locals) (rest : list event) : Prop :=
  rest = [] \/
  ok = true /\ hasFoundVideo l = true /\
  exists path,
    videoPath l = Some path /\
    (rest = [EvSendFile tweet path (videoFilename l) false] \/
     rest = [EvSendFile tweet path (videoFilename l) true;
             EvCleanupScheduled path 5000]).

(** The identifiers of the posts for which something was sent since [s0]
    are marked in [s]. *)
Definition sent_are_marked {W} (s0 s : St W) : Prop :=
  exists evs, trace s = trace s0 ++ evs /\
    forall ev id, In ev evs -> sent_for_id id ev ->
      seen (lastProcessedIds s) id = true.

(** The note that [useImage] appends to the footer for [count] images. *)
Definition images_note (count : nat) : string :=
  if (1 <? count)%nat then " • " +:+ pretty count +:+ " images" else "".

(** A detail record with two photos, the first of which is not a media URL. *)
Definition detail_with_photos : TweetDetail :=
  {| d_video := None; d_parent := None; d_mediaDetails := None;
     d_photos :=
       Some [{| ph_url := Some "https://pbs.twimg.com/profile_images/1/avatar.jpg" |};
             {| ph_url := Some "https://pbs.twimg.com/media/first.jpg" |}] |}.

(** ** The configuration check, lines 637-649 *)

(** What [validateApiConfig] prints. *)
Inductive config_log :=
| LogNoApiUrl            (* console.error: no API URL provided *)
| LogNotBullX.           (* console.warn: the URL does not look like BullX *)

(** [validateApiConfig] on the value of [process.env.AXIOM_TWITTER_API_URL]. *)
Definition validateApiConfig (TWITTER_API_URL : option string) : bool * list config_log :=
  if negb (truthy TWITTER_API_URL) then (false, [LogNoApiUrl])
  else
    (true,
     if negb (includes "api-neo.bullx.io" (default "" TWITTER_API_URL))
     then [LogNotBullX] else []).

(** ** Vocabulary of the statement about the number of downloads *)

(** Triples on the whole state: started in [P], [m] returns in [Q] or throws
    in [T]. *)
Definition tris {W A} (P : St W -> Prop) (m : M (W:=W) A)
    (Q : A -> St W -> Prop) (T : St W -> Prop) : Prop :=
  forall s, P s ->
    match m s with
    | (Ok a, s') => Q a s'
    | (Throw _, s') => T s'
    end.

(** Since [s0]: while no video is recorded no download has gone through;
    once one is recorded, the download that went through is the last event
    and the only one of its kind. *)
Definition download_is_last {W} (s0 s : St W) : Prop :=
  exists evs, trace s = trace s0 ++ evs /\
    if hasFoundVideo (loc s)
    then exists pre p, evs = pre ++ [EvMediaSaved p] /\ ~ saved pre
    else ~ saved evs.


(** Since [s0] no download has gone through and no video is recorded. *)
Definition unfound {W} (s0 s : St W) : Prop :=
  download_is_last s0 s /\ hasFoundVideo (loc s) = false.

(** ** Vocabulary of the statements about what happens to a new post *)

(** The names of the members of [Object.prototype].  [lastProcessedIds] is a
    plain object: read at one of these keys it gives the inherited member,
    which is truthy whatever has been marked, so a post with such an
    identifier is always skipped.  [seen] does not follow this; the
    statements that say that a post is processed exclude these
    identifiers. *)
Definition inherited_key (id : string) : bool :=
  existsb (String.eqb id)
    ["constructor"; "hasOwnProperty"; "isPrototypeOf"; "propertyIsEnumerable";
     "toLocaleString"; "toString"; "valueOf"; "__proto__";
     "__defineGetter__"; "__defineSetter__"; "__lookupGetter__";
     "__lookupSetter__"].

(** The test of line 230 is false for [id]. *)
Definition unseen (ids : gmap string bool) (id : string) : bool :=
  negb (seen ids id) && negb (inherited_key id).

(** The builder accepts every setter call of lines 265-292. *)
Definition card_accepted {W} (env : Env W) (user : User) (tweet : Tweet) : bool :=
  forallb (builder_accepts env) (card_calls user tweet).

(** The builder accepts the argument of [setImage]; [undefined] is not
    checked. *)
Definition image_accepted {W} (env : Env W) (url : option string) : bool :=
  match url with
  | Some u => builder_accepts env (SetImage u)
  | None => true
  end.

(** The arguments that lines 485-561 may give to [setImage]: the first
    extended entity, the first entity, the first image of the first URL that
    has images, the first photo link. *)
Definition raw_image_urls (tweet : Tweet) : list (option string) :=
  first_media_url (extended_medias tweet)
  :: match tw_entities tweet with
     | Some entities =>
         let urls := default [] (ent_urls entities) in
         [first_media_url (default [] (ent_media entities));
          first_image_url (List.filter (fun url => nonempty (u_images url)) urls);
          List.hd None (List.map u_expanded_url (List.filter is_photo_link urls))]
     | None => []
     end.

Definition raw_images_accepted {W} (env : Env W) (tweet : Tweet) : bool :=
  forallb (image_accepted env) (raw_image_urls tweet).

(** How the raw tier stands when it throws: the card is intact, and the
    builder has refused an image of the raw post. *)
Definition refused_raw {W} (env : Env W) (tweet : Tweet) (e0 : Embed)
    (l : Locals) : Prop :=
  resolved tweet e0 l /\ raw_images_accepted env tweet = false.

(** The post can be published: it has a user, and the builder accepts its
    card and the images of its raw form. *)
Definition publishable {W} (env : Env W) (tweet : Tweet) : Prop :=
  exists user,
    tw_user tweet = Some user /\ card_accepted env user tweet = true /\
    raw_images_accepted env tweet = true.

(** The single tweet endpoint is in a condition in which [fetchSingleTweet]
    ends as [detail] for the post, whenever it is called. *)
Definition detail_is {W} (env : Env W) (tweet : Tweet)
    (detail : Res (option TweetDetail)) : Prop :=
  forall s, (fetchSingleTweet env (tw_id tweet) s).1 = detail.


(** A video that the cascade has found: what it downloads, the name of the
    cache file and the note for the footer. *)
Record VideoSource := {
  src_url : option string;
  src_filename : string;
  src_note : string
}.

(** The variant that lines 314-319 and 341-345 take from a [video] object. *)
Definition find_source (video : Video) (filename note : string) : option VideoSource :=
  if nonempty (vid_variants video) then
    match List.find is_mp4_variant (default [] (vid_variants video)) with
    | Some mp4Variant =>
        Some {| src_url := or_str (v_src mp4Variant) (v_url mp4Variant);
                src_filename := filename; src_note := note |}
    | None => None
    end
  else None.

(** The variant at which the loop of lines 367-395 makes its download: the
    best MP4 of the first video that has one. *)
Fixpoint mediaDetails_best (medias : list Media) : option Variant :=
  match medias with
  | [] => None
  | media :: rest =>
      match (if is_video_media media then media_variants media else None) with
      | Some variants =>
          match mp4Variants variants with
          | best :: _ => Some best
          | [] => mediaDetails_best rest
          end
      | None => mediaDetails_best rest
      end
  end.

Definition video_source_1 (tweet : Tweet) (d : TweetDetail) : option VideoSource :=
  match d_video d with
  | Some video =>
      find_source video ("video_" +:+ tw_id tweet +:+ ".mp4") "Video will follow"
  | None => None
  end.

Definition video_source_2 (tweet : Tweet) (d : TweetDetail) : option VideoSource :=
  match d_parent d with
  | Some parent =>
      match par_video parent with
      | Some parentVideo =>
          find_source parentVideo ("video_parent_" +:+ tw_id tweet +:+ ".mp4")
            "Video from referenced tweet will follow"
      | None => None
      end
  | None => None
  end.

Definition video_source_3 (tweet : Tweet) (d : TweetDetail) : option VideoSource :=
  if nonempty (d_mediaDetails d) then
    match mediaDetails_best (default [] (d_mediaDetails d)) with
    | Some best =>
        Some {| src_url := v_url best;
                src_filename := "video_" +:+ tw_id tweet +:+ ".mp4";
                src_note := "Video will follow" |}
    | None => None
    end
  else None.

(** The video of a detail record: the one of the first of the three cases
    of lines 313-396 that has one. *)
Definition detail_video_source (tweet : Tweet) (d : TweetDetail) : option VideoSource :=
  match video_source_1 tweet d with
  | Some src => Some src
  | None =>
      match video_source_2 tweet d with
      | Some src => Some src
      | None => video_source_3 tweet d
      end
  end.



(** Events of the download of a file. *)
Definition download_event (ev : event) : Prop :=
  match ev with
  | EvMediaGet _ | EvMediaSaved _ | EvAttemptFailed _ _ | EvDelay _ => True
  | _ => False
  end.



(** An event that concerns the post with identifier [id]: a request for its
    detail record or a message sent for it. *)
Definition about (id : string) (ev : event) : Prop :=
  match ev with
  | EvDetailGet id' => id' = id
  | EvSendEmbed t _ _ | EvSendFile t _ _ _ => tw_id t = id
  | _ => False
  end.

(** Events that processing the post [t] may cause once it is marked, the
    detail request being the one for [t]. *)
Definition own_event (t : Tweet) (ev : event) : Prop :=
  match ev with
  | EvDetailGet id => id = tw_id t
  | EvSendEmbed t' _ _ | EvSendFile t' _ _ _ => t' = t
  | EvMediaGet _ | EvMediaSaved _ | EvAttemptFailed _ _ | EvDelay _
  | EvCleanupScheduled _ _ => True
  | _ => False
  end.

(** The identifier [id] stays marked and nothing happens that concerns it. *)
Definition left_alone {W} (id : string) (s0 s : St W) : Prop :=
  seen (lastProcessedIds s) id = true /\
  exists evs, trace s = trace s0 ++ evs /\ Forall (fun ev => ~ about id ev) evs.

(** A mark, or the timestamp that closes the loop: what follows the events
    of a post in the trace of a cycle. *)
Definition next_step (ev : event) : Prop :=
  match ev with
  | EvMarkSeen _ | EvSetTimestamp _ => True
  | _ => False
  end.

(** The URLs that the downloads recorded in a trace asked for, in order. *)
Definition requested_urls (evs : list event) : list (option string) :=
  flat_map (fun ev => match ev with EvMediaGet url => [url] | _ => [] end) evs.

(** The images of the embeds recorded in a trace, in order. *)
Definition sent_images (evs : list event) : list (option string) :=
  flat_map (fun ev => match ev with EvSendEmbed _ e _ => [e_image e] | _ => [] end)
    evs.

(** A detail record whose parent carries the example variants. *)
Definition detail_with_parent_video : TweetDetail :=
  {| d_video := None;
     d_parent := Some {| par_video := Some {| vid_variants := Some example_variants |} |};
     d_mediaDetails := None; d_photos := None |}.

(** A raw post whose extended entities hold a video with the example
    variants, whose preview is an image. *)
Definition clip_post : Tweet :=
  {| tw_id := "5"; tw_created_at := DateAt 99000; tw_user := Some alice;
     tw_text := Some "watch"; tw_referenced_tweets := None;
     tw_in_reply_to_user_id := None; tw_attachments := None;
     tw_extended_entities :=
       Some {| ext_media :=
                 Some [{| m_type := Some "video";
                          m_video_info := Some {| vi_variants := Some example_variants |};
                          m_media_url_https :=
                            Some "https://pbs.twimg.com/media/preview.jpg";
                          m_media_url := None |}] |};
     tw_entities := None |}.

(** * Properties *)

(** ** Retry helper *)

Section RetryFacts.
Context {W T : Type} (fn : M (W:=W) T) (maxRetries : nat) (delay : Z).

Lemma retry_loop_succeeds j : forall a fuel s lastError v,
  (a + j <= maxRetries)%nat -> (j < fuel)%nat ->
  (forall i, (i < j)%nat ->
     is_throw (fn (run_failures fn maxRetries delay a i s)).1 = true) ->
  (fn (run_failures fn maxRetries delay a j s)).1 = Ok v ->
  retry_loop fn maxRetries delay fuel a lastError s
  = (Ok v, (fn (run_failures fn maxRetries delay a j s)).2).
Proof.
  induction j as [|j IH]; intros a fuel s lastError v Ha Hfuel Hfail Hok.
  - destruct fuel as [|fuel]; [lia|]. simpl in *.
    destruct (Nat.leb_spec a maxRetries); [|lia].
    unfold try_catch. destruct (fn s) as [[x|e] s1]; simpl in *; congruence.
  - destruct fuel as [|fuel]; [lia|]. simpl.
    destruct (Nat.leb_spec a maxRetries); [|lia].
    pose proof (Hfail 0%nat ltac:(lia)) as H0. simpl in H0.
    unfold try_catch. destruct (fn s) as [[x|e] s1] eqn:Hfn; simpl in H0; [done|].
    specialize (IH (S a) fuel
      (after_failure a maxRetries delay s1).2 e v ltac:(lia) ltac:(lia)).
    simpl in Hok. rewrite Hfn in Hok. simpl in Hok.
    assert (Hstep : forall k : M (W:=W) T,
      (emit (EvAttemptFailed a maxRetries);;
       (if (a <? maxRetries)%nat then emit (EvDelay delay) else ret tt);; k) s1
      = k (after_failure a maxRetries delay s1).2).
    { intros k. unfold after_failure, bind, emit. simpl.
      destruct (a <? maxRetries)%nat; reflexivity. }
    rewrite Hstep, IH; [reflexivity| |exact Hok].
    intros i Hi. specialize (Hfail (S i) ltac:(lia)). simpl in Hfail.
    rewrite Hfn in Hfail. exact Hfail.
Qed.

Lemma retry_loop_exhausts j : forall a fuel s lastError (err : nat -> error),
  (a + j = S maxRetries)%nat -> (j < fuel)%nat ->
  (forall i, (i < j)%nat ->
     (fn (run_failures fn maxRetries delay a i s)).1 = Throw (err (a + i)%nat)) ->
  retry_loop fn maxRetries delay fuel a lastError s
  = (Throw (match j with O => lastError | S _ => err maxRetries end),
     run_failures fn maxRetries delay a j s).
Proof.
  induction j as [|j IH]; intros a fuel s lastError err Ha Hfuel Hfail.
  - destruct fuel as [|fuel]; [lia|]. simpl.
    destruct (Nat.leb_spec a maxRetries); [lia|]. reflexivity.
  - destruct fuel as [|fuel]; [lia|]. simpl.
    destruct (Nat.leb_spec a maxRetries); [|lia].
    pose proof (Hfail 0%nat ltac:(lia)) as H0. simpl in H0.
    unfold try_catch. destruct (fn s) as [[x|e] s1] eqn:Hfn; simpl in H0; [done|].
    injection H0 as ->.
    specialize (IH (S a) fuel
      (after_failure a maxRetries delay s1).2 (err (a + 0)%nat) err
      ltac:(lia) ltac:(lia)).
    assert (Hstep : forall k : M (W:=W) T,
      (emit (EvAttemptFailed a maxRetries);;
       (if (a <? maxRetries)%nat then emit (EvDelay delay) else ret tt);; k) s1
      = k (after_failure a maxRetries delay s1).2).
    { intros k. unfold after_failure, bind, emit. simpl.
      destruct (a <? maxRetries)%nat; reflexivity. }
    rewrite Hstep, IH.
    + destruct j as [|j]; [|reflexivity].
      replace (a + 0)%nat with maxRetries by lia. reflexivity.
    + intros i Hi. specialize (Hfail (S i) ltac:(lia)). simpl in Hfail.
      rewrite Hfn in Hfail. simpl in Hfail.
      replace (S a + i)%nat with (a + S i)%nat by lia. exact Hfail.
Qed.

Lemma delays_app evs evs' : delays (evs ++ evs') = (delays evs + delays evs')%nat.
Proof. unfold delays. rewrite List.filter_app, length_app. reflexivity. Qed.

Lemma delays_after_failure a s :
  delays (trace (after_failure (W:=W) a maxRetries delay s).2)
  = (delays (trace s) + (if (a <? maxRetries)%nat then 1 else 0))%nat.
Proof.
  unfold after_failure, bind, emit. simpl.
  destruct (a <? maxRetries)%nat; simpl; rewrite ?delays_app;
    unfold delays; simpl; lia.
Qed.

(** While the attempt number stays below [maxRetries], every failure costs
    one wait. *)
Lemma delays_run_failures j : forall a s,
  quiet fn -> (a + j <= maxRetries)%nat ->
  delays (trace (run_failures fn maxRetries delay a j s))
  = (delays (trace s) + (j - (a + j - maxRetries)))%nat.
Proof.
  induction j as [|j IH]; intros a s Hq Ha; simpl; [lia|].
  rewrite IH by (auto; lia). rewrite delays_after_failure, Hq.
  destruct (Nat.ltb_spec a maxRetries); lia.
Qed.

(** The last failure, the one of attempt [maxRetries], is not followed by a
    wait. *)
Lemma delays_run_all_failures j : forall a s,
  quiet fn -> (a + j = S maxRetries)%nat ->
  delays (trace (run_failures fn maxRetries delay a j s))
  = (delays (trace s) + (j - 1))%nat.
Proof.
  induction j as [|j IH]; intros a s Hq Ha; simpl; [lia|].
  destruct j as [|j].
  - simpl. rewrite delays_after_failure, Hq.
    destruct (Nat.ltb_spec a maxRetries); lia.
  - rewrite IH by (auto; lia). rewrite delays_after_failure, Hq.
    destruct (Nat.ltb_spec a maxRetries); lia.
Qed.

End RetryFacts.

(** C8.  [withRetry] with budget [maxRetries]: when the operation fails on
    attempts 1..k-1 and succeeds on attempt k <= maxRetries, the call returns
    the value of attempt k and has waited exactly k-1 times; when it fails on
    every one of the maxRetries >= 1 attempts, the call throws the error of
    the last attempt and has waited exactly maxRetries-1 times.  The waits
    counted are those of the trace, the operation having none of its own. *)
Theorem withRetry_attempts_and_delays {W T : Type}
    (fn : M (W:=W) T) (maxRetries : nat) (delay : Z) (s : St W) :
  quiet fn ->
  (forall k v, (1 <= k <= maxRetries)%nat ->
     (forall i, (1 <= i < k)%nat ->
        is_throw (attempt_run fn maxRetries delay i s).1 = true) ->
     (attempt_run fn maxRetries delay k s).1 = Ok v ->
     (withRetry fn maxRetries delay s).1 = Ok v /\
     delays (trace (withRetry fn maxRetries delay s).2)
     = (delays (trace s) + (k - 1))%nat) /\
  (forall err : nat -> error, (1 <= maxRetries)%nat ->
     (forall i, (1 <= i <= maxRetries)%nat ->
        (attempt_run fn maxRetries delay i s).1 = Throw (err i)) ->
     (withRetry fn maxRetries delay s).1 = Throw (err maxRetries) /\
     delays (trace (withRetry fn maxRetries delay s).2)
     = (delays (trace s) + (maxRetries - 1))%nat).
Proof.
  intros Hq. split.
  - intros k v Hk Hfail Hok. unfold withRetry, attempt_run in *.
    rewrite (retry_loop_succeeds fn maxRetries delay (k - 1) 1 (S maxRetries) s
               ErrUndefined v); [|lia|lia| |exact Hok].
    + split; [reflexivity|]. simpl. rewrite Hq.
      rewrite delays_run_failures by (auto; lia). lia.
    + intros i Hi. specialize (Hfail (S i) ltac:(lia)).
      replace (S i - 1)%nat with i in Hfail by lia. exact Hfail.
  - intros err HN Hfail. unfold withRetry, attempt_run in *.
    rewrite (retry_loop_exhausts fn maxRetries delay maxRetries 1 (S maxRetries) s
               ErrUndefined err); [|lia|lia|].
    + simpl. destruct maxRetries as [|n]; [lia|]. split; [reflexivity|].
      rewrite delays_run_all_failures by (auto; lia). lia.
    + intros i Hi. specialize (Hfail (S i) ltac:(lia)).
      replace (S i - 1)%nat with i in Hfail by lia. exact Hfail.
Qed.

Lemma withRetry_attempts_and_delays_witness :
  quiet (flaky 2) /\
  ((withRetry (flaky 2) 3 1000 (restart empty_disk 0%nat)).1 = Ok 7%Z /\
   delays (trace (withRetry (flaky 2) 3 1000 (restart empty_disk 0%nat)).2)
   = 2%nat) /\
  ((withRetry (flaky 5) 3 1000 (restart empty_disk 0%nat)).1
   = Throw (Err "ECONNRESET on call 3") /\
   delays (trace (withRetry (flaky 5) 3 1000 (restart empty_disk 0%nat)).2)
   = 2%nat).
Proof.
  assert (Hq : forall n, quiet (flaky n)).
  { intros n s. unfold flaky, call. destruct (_ <? _)%nat; reflexivity. }
  split; [apply Hq|]. split.
  - apply (proj1 (withRetry_attempts_and_delays (flaky 2) 3 1000
                    (restart empty_disk 0%nat) (Hq 2%nat)) 3%nat 7%Z).
    + lia.
    + intros i Hi. assert (i = 1 \/ i = 2)%nat as [->| ->] by lia; reflexivity.
    + reflexivity.
  - apply (proj2 (withRetry_attempts_and_delays (flaky 5) 3 1000
                    (restart empty_disk 0%nat) (Hq 5%nat))
             failure_of_call).
    + lia.
    + intros i Hi.
      assert (i = 1 \/ i = 2 \/ i = 3)%nat as [->|[->| ->]] by lia; reflexivity.
Defined.

(** ** Framing *)

Section Frames.
Context {W : Type}.
Implicit Types (s : St W) (E : event -> Prop).

Lemma Forall_In {A} (P : A -> Prop) l x : Forall P l -> In x l -> P x.
Proof. intros H. apply List.Forall_forall, H. Qed.

Lemma emitted_app s s' evs : trace s' = trace s ++ evs -> emitted s s' = evs.
Proof. unfold emitted. intros ->. apply drop_app_length. Qed.

Lemma bind_ok {A B} (m : M A) (k : A -> M B) s a :
  (m s).1 = Ok a -> bind m k s = k a (m s).2.
Proof.
  unfold bind. destruct (m s) as [[x|e] s1]; simpl; intros H;
    [injection H as ->; reflexivity|discriminate].
Qed.

Lemma frames_ret {A} E (a : A) : frames (W:=W) E (ret a).
Proof. intros I HI s Hs. exact Hs. Qed.

Lemma frames_throw {A} E e : frames (W:=W) (A:=A) E (throw e).
Proof. intros I HI s Hs. exact Hs. Qed.

Lemma frames_get E : frames (W:=W) E get.
Proof. intros I HI s Hs. exact Hs. Qed.

Lemma frames_getLoc E : frames (W:=W) E getLoc.
Proof. intros I HI s Hs. exact Hs. Qed.

Lemma frames_modifyLoc E f : frames (W:=W) E (modifyLoc f).
Proof. intros I HI s Hs. apply (frame_loc I E HI), Hs. Qed.

Lemma frames_emit E ev : E ev -> frames (W:=W) E (emit ev).
Proof. intros Hev I HI s Hs. apply (frame_emit I E HI); assumption. Qed.

Lemma frames_ask {A} E (f : W -> A * W) : frames E (ask f).
Proof.
  intros I HI s Hs. unfold ask. destruct (f (world s)) as [a w]. simpl.
  apply (frame_world I E HI), Hs.
Qed.

Lemma frames_call {A} E (f : W -> Res A * W) : frames E (call f).
Proof.
  intros I HI s Hs. unfold call. destruct (f (world s)) as [[a|e] w]; simpl;
    apply (frame_world I E HI), Hs.
Qed.

Lemma frames_bind {A B} E (m : M A) (k : A -> M B) :
  frames E m -> (forall a, frames E (k a)) -> frames (W:=W) E (bind m k).
Proof.
  intros Hm Hk I HI s Hs. unfold bind.
  pose proof (Hm I HI s Hs) as H1. destruct (m s) as [[a|e] s1]; simpl in *.
  - apply (Hk a I HI), H1.
  - exact H1.
Qed.

Lemma frames_try_catch {A} E (m : M A) (h : error -> M A) :
  frames E m -> (forall e, frames E (h e)) -> frames (W:=W) E (try_catch m h).
Proof.
  intros Hm Hh I HI s Hs. unfold try_catch.
  pose proof (Hm I HI s Hs) as H1. destruct (m s) as [[a|e] s1]; simpl in *.
  - exact H1.
  - apply (Hh e I HI), H1.
Qed.

Lemma frames_mono {A} E E' (m : M A) :
  (forall ev, E ev -> E' ev) -> frames E m -> frames (W:=W) E' m.
Proof.
  intros Hsub Hm I HI. apply Hm. destruct HI as [Hw Hl He].
  split; auto.
Qed.

Lemma frames_forEach {A} E (f : A -> M unit) (l : list A) :
  (forall x, In x l -> frames E (f x)) -> frames (W:=W) E (forEach f l).
Proof.
  induction l as [|x l IH]; intros Hf; simpl.
  - apply frames_ret.
  - apply frames_bind; [apply Hf; left; reflexivity|].
    intros _. apply IH. intros y Hy. apply Hf. right. exact Hy.
Qed.

Lemma frames_retry_loop {T} E (fn : M T) maxRetries delay fuel :
  frames E fn ->
  (forall a, E (EvAttemptFailed a maxRetries)) -> E (EvDelay delay) ->
  forall attempt lastError,
    frames (W:=W) E (retry_loop fn maxRetries delay fuel attempt lastError).
Proof.
  intros Hfn Hfail Hdelay.
  induction fuel as [|fuel IH]; intros attempt lastError; simpl.
  - apply frames_throw.
  - destruct (attempt <=? maxRetries)%nat; [|apply frames_throw].
    apply frames_try_catch; [exact Hfn|]. intros e.
    apply frames_bind; [apply frames_emit, Hfail|]. intros _.
    apply frames_bind; [|intros _; apply IH].
    destruct (attempt <? maxRetries)%nat;
      [apply frames_emit, Hdelay | apply frames_ret].
Qed.

Lemma frames_withRetry {T} E (fn : M T) maxRetries delay :
  frames E fn ->
  (forall a, E (EvAttemptFailed a maxRetries)) -> E (EvDelay delay) ->
  frames (W:=W) E (withRetry fn maxRetries delay).
Proof. intros. apply frames_retry_loop; assumption. Qed.

(** [same_memory] is the frame that the statements below use. *)
Lemma Frame_same_memory E s0 : Frame (same_memory E s0) E.
Proof.
  split.
  - intros s w Hs. exact Hs.
  - intros s l Hs. exact Hs.
  - intros s ev Hev (Hi & Ht & Hd & evs & Htr & Hevs). simpl.
    repeat split; try assumption.
    exists (evs ++ [ev]). rewrite Htr, app_assoc. split; [reflexivity|].
    apply Forall_app. split; [assumption|]. constructor; [assumption|constructor].
Qed.

Lemma same_memory_refl E s : same_memory E s s.
Proof.
  repeat split. exists []. rewrite app_nil_r. split; [reflexivity|constructor].
Qed.

Lemma frames_same_memory {A} E (m : M A) s :
  frames E m -> same_memory E s (m s).2.
Proof. intros Hm. apply (Hm _ (Frame_same_memory E s)), same_memory_refl. Qed.

End Frames.

Create HintDb frames.

Ltac frames_step :=
  first
    [ solve [auto 1 with frames nocore]
    | apply frames_ret
    | apply frames_throw
    | apply frames_get
    | apply frames_getLoc
    | apply frames_modifyLoc
    | apply frames_ask
    | apply frames_call
    | apply frames_emit; simpl; solve [auto]
    | apply frames_bind; [|intros ?]
    | apply frames_try_catch; [|intros ?]
    | apply frames_withRetry; [|intros ?; simpl; solve [auto]|simpl; solve [auto]]
    | match goal with
      | |- frames _ (match ?x with _ => _ end) => destruct x
      | |- frames _ (let _ := _ in _) => cbv zeta
      end ].

Ltac frames_tac := repeat frames_step.

Section ProgramFrames.
Context {W : Type} (env : Env W).

Lemma frames_fetchTweets_feed : frames feed_event (fetchTweets env).
Proof. unfold fetchTweets. frames_tac. Qed.

Lemma feed_event_io ev : feed_event ev -> io_event ev.
Proof. destruct ev; simpl; tauto. Qed.

Lemma frames_fetchTweets : frames io_event (fetchTweets env).
Proof. eapply frames_mono; [apply feed_event_io|apply frames_fetchTweets_feed]. Qed.

Lemma frames_fetchSingleTweet tweetId :
  frames media_event (fetchSingleTweet env tweetId).
Proof. unfold fetchSingleTweet. frames_tac. Qed.

Lemma frames_downloadMedia url filename :
  frames media_event (downloadMedia env url filename).
Proof. unfold downloadMedia, writeCacheFile. frames_tac. Qed.

Lemma frames_validate E c : frames E (validate env c).
Proof. unfold validate. frames_tac. Qed.

#[local] Hint Resolve frames_validate : frames.

Lemma frames_useImage E url count : frames E (useImage env url count).
Proof. unfold useImage. frames_tac. Qed.

#[local] Hint Resolve frames_fetchSingleTweet frames_downloadMedia
  frames_useImage : frames.

Lemma frames_attachVideo url filename note :
  frames media_event (attachVideo env url filename note).
Proof. unfold attachVideo. frames_tac. Qed.

#[local] Hint Resolve frames_attachVideo : frames.

Lemma frames_mediaDetails_video_loop tweet medias :
  frames media_event (mediaDetails_video_loop env tweet medias).
Proof.
  induction medias as [|media rest IH]; simpl; frames_tac; exact IH.
Qed.

#[local] Hint Resolve frames_mediaDetails_video_loop : frames.

Lemma frames_detail_block tweet : frames media_event (detail_block env tweet).
Proof.
  unfold detail_block, detail_video, detail_parent_video,
    detail_mediaDetails_video, detail_photos.
  frames_tac.
Qed.

Lemma frames_raw_block tweet : frames media_event (raw_block env tweet).
Proof.
  unfold raw_block, raw_extended_entities, raw_extended_video,
    raw_extended_image, raw_entities, raw_entities_urls.
  frames_tac.
Qed.

#[local] Hint Resolve frames_detail_block frames_raw_block : frames.

Lemma frames_resolveMedia tweet : frames media_event (resolveMedia env tweet).
Proof. unfold resolveMedia, attachments_note. frames_tac. Qed.

Lemma frames_channelSend tweet p :
  frames (net_event tweet) (channelSend env tweet p).
Proof.
  intros I HI s Hs. unfold channelSend.
  destruct (channel_send env p (world s)) as [[a|e] w].
  - apply (frame_emit I _ HI); [destruct p; reflexivity|].
    apply (frame_world I _ HI), Hs.
  - apply (frame_emit I _ HI (set_world w s) (send_event tweet p false));
      [destruct p; reflexivity|].
    apply (frame_world I _ HI), Hs.
Qed.

Lemma media_event_net tweet ev : media_event ev -> net_event tweet ev.
Proof. destruct ev; simpl; tauto. Qed.

Lemma io_event_net tweet ev : io_event ev -> net_event tweet ev.
Proof. destruct ev; simpl; tauto. Qed.

Lemma frames_resolveMedia_net tweet :
  frames (net_event tweet) (resolveMedia env tweet).
Proof.
  eapply frames_mono; [apply media_event_net|apply frames_resolveMedia].
Qed.

#[local] Hint Resolve frames_channelSend frames_resolveMedia_net : frames.

Lemma frames_publish tweet : frames (net_event tweet) (publish env tweet).
Proof. unfold publish. frames_tac. Qed.

#[local] Hint Resolve frames_publish : frames.

Lemma frames_buildEmbed E user tweet : frames E (buildEmbed env user tweet).
Proof. unfold buildEmbed. frames_tac. Qed.

#[local] Hint Resolve frames_buildEmbed : frames.

Lemma frames_handleTweet tweet : frames (net_event tweet) (handleTweet env tweet).
Proof. unfold handleTweet. frames_tac. Qed.

End ProgramFrames.

(** ** One iteration of the loop *)

Section Iteration.
Context {W : Type} (env : Env W).
Implicit Types (s : St W) (tweet : Tweet).

Lemma preserves_bind {A B} (I : St W -> Prop) (m : M A) (k : A -> M B) :
  preserves I m -> (forall a, preserves I (k a)) -> preserves I (bind m k).
Proof.
  intros Hm Hk s Hs. unfold bind. pose proof (Hm s Hs) as H1.
  destruct (m s) as [[a|e] s1]; simpl in *; [apply Hk, H1 | exact H1].
Qed.

Lemma preserves_try_catch {A} (I : St W -> Prop) (m : M A) (h : error -> M A) :
  preserves I m -> (forall e, preserves I (h e)) -> preserves I (try_catch m h).
Proof.
  intros Hm Hh s Hs. unfold try_catch. pose proof (Hm s Hs) as H1.
  destruct (m s) as [[a|e] s1]; simpl in *; [exact H1 | apply Hh, H1].
Qed.

Lemma preserves_ret {A} (I : St W -> Prop) (a : A) : preserves I (ret a).
Proof. intros s Hs. exact Hs. Qed.

Lemma preserves_forEach {A} (I : St W -> Prop) (f : A -> M unit) (l : list A) :
  (forall x, In x l -> preserves I (f x)) -> preserves I (forEach f l).
Proof.
  induction l as [|x l IH]; intros Hf; simpl.
  - apply preserves_ret.
  - apply preserves_bind; [apply Hf; left; reflexivity|].
    intros _. apply IH. intros y Hy. apply Hf. right. exact Hy.
Qed.

(** A tweet that is already marked is skipped: nothing changes. *)
Lemma processTweet_seen tweet s :
  seen (lastProcessedIds s) (tw_id tweet) = true ->
  processTweet env tweet s = (Ok tt, s).
Proof. intros H. unfold processTweet, bind, get. rewrite H. reflexivity. Qed.

(** A tweet that is not marked is marked first, then handled; whatever
    happens while it is handled, the iteration ends normally. *)
Lemma processTweet_unseen tweet s :
  seen (lastProcessedIds s) (tw_id tweet) = false ->
  processTweet env tweet s
  = (Ok tt, (handleTweet env tweet (markSeen (tw_id tweet) s).2).2).
Proof.
  intros H. unfold processTweet, bind, get, try_catch. rewrite H. simpl.
  destruct (handleTweet env tweet _) as [[[]|e] s1]; reflexivity.
Qed.

Lemma handleTweet_same_memory tweet s :
  same_memory (net_event tweet) s (handleTweet env tweet s).2.
Proof. apply frames_same_memory, frames_handleTweet. Qed.

(** The effect of one iteration on an unmarked tweet, spelled out. *)
Lemma processTweet_unseen_effect tweet s :
  seen (lastProcessedIds s) (tw_id tweet) = false ->
  let s' := (processTweet env tweet s).2 in
  lastProcessedIds s' = <[tw_id tweet := true]> (lastProcessedIds s) /\
  lastFetchTimestamp s' = lastFetchTimestamp s /\
  disk s' = disk s /\
  exists evs, trace s' = trace s ++ EvMarkSeen (tw_id tweet) :: evs /\
    Forall (net_event tweet) evs.
Proof.
  intros H. rewrite (processTweet_unseen _ _ H). simpl.
  destruct (handleTweet_same_memory tweet (markSeen (tw_id tweet) s).2)
    as (Hi & Ht & Hd & evs & Htr & Hevs).
  simpl in *. repeat split; try assumption.
  exists evs. rewrite Htr, <- app_assoc. split; [reflexivity|assumption].
Qed.

Lemma seen_insert (ids : gmap string bool) id id' :
  seen (<[id' := true]> ids) id = if decide (id' = id) then true else seen ids id.
Proof.
  unfold seen. rewrite lookup_insert. destruct (decide (id' = id)); reflexivity.
Qed.

Lemma seen_insert_mono (ids : gmap string bool) id id' :
  seen ids id = true -> seen (<[id' := true]> ids) id = true.
Proof. intros H. rewrite seen_insert. destruct (decide _); auto. Qed.

Lemma preserves_loop_effect L s0 tweet :
  In tweet L -> preserves (loop_effect L s0) (processTweet env tweet).
Proof.
  intros Hin s (Ht & Hd & Hids & evs & Htr & Hevs).
  destruct (seen (lastProcessedIds s) (tw_id tweet)) eqn:Hseen.
  - rewrite (processTweet_seen _ _ Hseen). simpl.
    repeat split; try assumption. exists evs. auto.
  - destruct (processTweet_unseen_effect tweet s Hseen)
      as (Hi' & Ht' & Hd' & evs' & Htr' & Hevs').
    repeat split.
    + congruence.
    + congruence.
    + intros id Hid. rewrite Hi', lookup_insert_ne; [apply Hids, Hid|].
      apply Hid, Hin.
    + exists (evs ++ EvMarkSeen (tw_id tweet) :: evs').
      rewrite Htr', Htr, <- app_assoc. split; [reflexivity|].
      apply Forall_app. split; [assumption|]. constructor.
      * exists tweet. auto.
      * eapply Forall_impl; [exact Hevs'|]. intros ev Hev. exists tweet. auto.
Qed.

Lemma loop_effect_refl L s : loop_effect L s s.
Proof.
  repeat split. exists []. rewrite app_nil_r. split; [reflexivity|constructor].
Qed.

(** The whole loop over [L]. *)
Lemma forEach_loop_effect L s :
  loop_effect L s (forEach (processTweet env) L s).2.
Proof.
  apply (preserves_forEach (loop_effect L s)); [|apply loop_effect_refl].
  intros x Hx. apply preserves_loop_effect, Hx.
Qed.

Lemma forEach_processTweet_ok l : forall s,
  (forEach (processTweet env) l s).1 = Ok tt.
Proof.
  induction l as [|x l IH]; intros s; simpl; [reflexivity|].
  unfold bind.
  destruct (seen (lastProcessedIds s) (tw_id x)) eqn:Hseen.
  - rewrite (processTweet_seen _ _ Hseen). apply IH.
  - rewrite (processTweet_unseen _ _ Hseen). apply IH.
Qed.

End Iteration.

(** ** The cycle *)

Section CycleFacts.
Context {W : Type} (env : Env W).
Implicit Types (s : St W) (tweet : Tweet).

Lemma sort_insert_In {A} (cmp : A -> A -> option Z) x y l :
  In y (sort_insert cmp x l) <-> y = x \/ In y l.
Proof.
  induction l as [|z l IH]; simpl; [intuition|].
  destruct (default 0%Z (cmp x z) >? 0)%Z; simpl; rewrite ?IH; intuition.
Qed.

Lemma sort_In {A} (cmp : A -> A -> option Z) y l :
  In y (sort cmp l) <-> In y l.
Proof.
  induction l as [|x l IH]; simpl; [reflexivity|].
  rewrite sort_insert_In, IH. intuition.
Qed.

(** The recent tweets are the fetched tweets that pass the filter. *)
Lemma recentTweets_of_In currentTime tweets tweet :
  In tweet (recentTweets_of currentTime tweets) <->
  In tweet tweets /\ is_recent currentTime tweet = true.
Proof. unfold recentTweets_of. rewrite List.filter_In, sort_In. reflexivity. Qed.

(** [saveState] never throws, leaves the variables alone, and always starts
    by writing the identifiers; the second write follows when the first one
    went through. *)
Lemma saveState_effect s :
  exists ok1 rest,
    (saveState env s).1 = Ok tt /\
    lastProcessedIds (saveState env s).2 = lastProcessedIds s /\
    lastFetchTimestamp (saveState env s).2 = lastFetchTimestamp s /\
    trace (saveState env s).2
    = trace s ++ EvWriteFile (IdsData (lastProcessedIds s)) ok1 :: rest /\
    disk (saveState env s).2
    = replay (EvWriteFile (IdsData (lastProcessedIds s)) ok1 :: rest) (disk s) /\
    match ok1 with
    | Written =>
        exists ok2, rest = [EvWriteFile (StateData (lastFetchTimestamp s)) ok2]
    | Failed _ _ => rest = []
    end.
Proof.
  unfold saveState, try_catch, bind, writeStateFile. simpl.
  destruct (fs_writeFileSync env "processed_ids.json" (world s)) as [[|e1 l1] w1];
    simpl.
  - destruct (fs_writeFileSync env "bot_state.json" w1) as [[|e2 l2] w2]; simpl.
    + exists Written, [EvWriteFile (StateData (lastFetchTimestamp s)) Written].
      rewrite <- app_assoc. simpl. repeat split; eauto.
    + exists Written, [EvWriteFile (StateData (lastFetchTimestamp s)) (Failed e2 l2)].
      rewrite <- app_assoc. simpl. repeat split; eauto.
  - exists (Failed e1 l1), []. simpl. repeat split; eauto.
Qed.

(** A cycle ends normally whatever happens inside. *)
Lemma processTweets_ok s : (processTweets env s).1 = Ok tt.
Proof.
  unfold processTweets, try_catch.
  match goal with |- (match ?m with _ => _ end).1 = _ => destruct m as [[[]|e] s1] end;
    reflexivity.
Qed.

(** Where a later cycle stands when it reaches the recency filter. *)
Lemma later_cycle_run_feed s tweets cft ct :
  later_cycle env s tweets cft ct ->
  exists s4,
    same_memory feed_event s s4 /\
    (processTweets env s).2
    = (processRecent env (recentTweets_of ct tweets) cft s4).2.
Proof.
  intros (Hts & s1 & w2 & w3 & w4 & Hfetch & Hnow1 & Hch & Hnow2).
  pose proof (frames_same_memory feed_event (fetchTweets env) s
                (frames_fetchTweets_feed env)) as Hsame.
  rewrite Hfetch in Hsame. simpl in Hsame.
  destruct Hsame as (Hi & Ht & Hd & evs & Htr & Hevs).
  exists (set_world w4 (emit EvChannelFetch (set_world w2 s1)).2). split.
  - simpl. repeat split; try assumption.
    exists (evs ++ [EvChannelFetch]). rewrite Htr, app_assoc.
    split; [reflexivity|]. apply Forall_app. split; [assumption|].
    constructor; [exact I|constructor].
  - unfold processTweets, try_catch, bind at 1. rewrite Hfetch.
    unfold bind at 1, ask at 1. rewrite Hnow1. simpl.
    unfold bind at 1, get. simpl.
    destruct (lastFetchTimestamp s1) as [t1|] eqn:Hts1; [|congruence].
    unfold bind at 1. simpl. unfold bind at 1, call. simpl. rewrite Hch.
    unfold laterRun, bind at 1, ask. simpl. rewrite Hnow2, ?Hts1.
    unfold set_world. simpl.
    match goal with
    | |- (let (_, _) := ?m in _).2 = _ => destruct m as [[[]|e] s5]
    end; reflexivity.
Qed.

Lemma later_cycle_run s tweets cft ct :
  later_cycle env s tweets cft ct ->
  exists s4,
    same_memory io_event s s4 /\
    (processTweets env s).2
    = (processRecent env (recentTweets_of ct tweets) cft s4).2.
Proof.
  intros Hlater.
  destruct (later_cycle_run_feed s tweets cft ct Hlater)
    as (s4 & (Hi & Ht & Hd & evs & Htr & Hevs) & Hrun).
  exists s4. split; [|exact Hrun]. repeat split; try assumption.
  exists evs. split; [exact Htr|].
  eapply Forall_impl; [exact Hevs|]. apply feed_event_io.
Qed.

(** What [processRecent] does with an empty list and with a list that has
    an element. *)
Lemma processRecent_nil cft s :
  processRecent env [] cft s = setTimestamp cft s.
Proof. reflexivity. Qed.

Lemma processRecent_cons tweet L cft s :
  (processRecent env (tweet :: L) cft s).2
  = (saveState env
       (setTimestamp cft (forEach (processTweet env) (tweet :: L) s).2).2).2.
Proof.
  unfold processRecent. unfold bind at 1.
  pose proof (forEach_processTweet_ok env (tweet :: L) s) as Hok.
  destruct (forEach (processTweet env) (tweet :: L) s) as [r s1].
  simpl in Hok. subst r. reflexivity.
Qed.

(** The trace and the state of a later cycle, in three parts: the requests
    before the filter, the loop over the recent tweets, the closing. *)
Lemma later_cycle_shape s tweets cft ct :
  later_cycle env s tweets cft ct ->
  let L := recentTweets_of ct tweets in
  let s' := (processTweets env s).2 in
  exists evs0 evsL tail,
    emitted s s' = evs0 ++ evsL ++ tail /\
    Forall io_event evs0 /\ Forall (loop_event L) evsL /\
    Forall closing_event tail /\
    lastFetchTimestamp s' = Some cft /\
    (forall id, (forall t, In t L -> tw_id t <> id) ->
       lastProcessedIds s' !! id = lastProcessedIds s !! id) /\
    match L with
    | [] => tail = [EvSetTimestamp cft] /\ disk s' = disk s
    | _ :: _ =>
        exists ok rest,
          tail = EvSetTimestamp cft
                 :: EvWriteFile (IdsData (lastProcessedIds s')) ok :: rest
    end.
Proof.
  intros Hlater L s'.
  destruct (later_cycle_run s tweets cft ct Hlater)
    as (s4 & (Hi4 & Ht4 & Hd4 & evs0 & Htr4 & Hevs0) & Hrun).
  subst s'. rewrite Hrun. fold L. clear Hrun.
  destruct L as [|tweet L'] eqn:HL.
  - rewrite processRecent_nil. simpl.
    exists evs0, [], [EvSetTimestamp cft]. repeat split.
    + apply emitted_app. simpl. rewrite Htr4, <- app_assoc. reflexivity.
    + assumption.
    + constructor.
    + repeat constructor.
    + intros id _. congruence.
    + assumption.
  - rewrite processRecent_cons.
    destruct (forEach_loop_effect env (tweet :: L') s4)
      as (HtL & HdL & HidsL & evsL & HtrL & HevsL).
    set (sL := (forEach (processTweet env) (tweet :: L') s4).2) in *.
    destruct (saveState_effect (setTimestamp cft sL).2)
      as (ok1 & rest & _ & Hi & Ht & Htr & Hd & Hrest).
    set (s' := (saveState env (setTimestamp cft sL).2).2) in *.
    simpl in Hi, Ht, Htr.
    exists evs0, evsL,
      (EvSetTimestamp cft :: EvWriteFile (IdsData (lastProcessedIds s')) ok1 :: rest).
    repeat split.
    + apply emitted_app. rewrite Htr, HtrL, Htr4, Hi, <- !app_assoc. reflexivity.
    + assumption.
    + assumption.
    + constructor; [exact I|]. constructor; [exact I|].
      destruct ok1; [destruct Hrest as [ok2 ->]; repeat constructor|subst rest; constructor].
    + assumption.
    + intros id Hid. rewrite Hi, (HidsL id Hid). congruence.
    + eauto.
Qed.

End CycleFacts.

(** ** Invariants of a whole cycle *)

Section CycleInvariants.
Context {W : Type} (env : Env W).
Implicit Types (s : St W) (tweet : Tweet).

(** A predicate kept by the requests, by the assignments to the two
    variables, by [saveState] and by every iteration is kept by a cycle. *)
Lemma preserves_processTweets_feed (Inv : St W -> Prop) :
  Frame Inv feed_event ->
  (forall id, preserves Inv (markSeen id)) ->
  (forall t, preserves Inv (setTimestamp t)) ->
  preserves Inv (saveState env) ->
  (forall tweet, preserves Inv (processTweet env tweet)) ->
  preserves Inv (processTweets env).
Proof.
  intros HF Hmark Hts Hsave Hiter.
  assert (Hfr : forall A (m : M A), frames feed_event m -> preserves Inv m).
  { intros A m Hm. apply Hm, HF. }
  unfold processTweets.
  apply preserves_try_catch; [|intros; apply preserves_ret].
  apply preserves_bind; [apply Hfr, frames_fetchTweets_feed|]. intros [tweets|].
  2: apply preserves_ret.
  apply preserves_bind; [apply Hfr, frames_ask|]. intros cft.
  apply preserves_bind; [apply Hfr, frames_get|]. intros s0.
  destruct (lastFetchTimestamp s0).
  - apply preserves_bind; [apply Hfr, frames_emit; exact I|]. intros _.
    apply preserves_bind; [apply Hfr, frames_call|]. intros [|].
    2: apply preserves_ret.
    unfold laterRun. apply preserves_bind; [apply Hfr, frames_ask|]. intros ct.
    unfold processRecent. destruct (recentTweets_of ct tweets) as [|t L] eqn:HL.
    + apply Hts.
    + apply preserves_bind; [apply preserves_forEach; intros; apply Hiter|].
      intros _. simpl. apply preserves_bind; [apply Hts|]. intros _. apply Hsave.
  - unfold firstRun.
    apply preserves_bind; [apply preserves_forEach; intros; apply Hmark|].
    intros _. apply preserves_bind; [apply Hts|]. intros _. apply Hsave.
Qed.

Lemma preserves_processTweets (Inv : St W -> Prop) :
  Frame Inv io_event ->
  (forall id, preserves Inv (markSeen id)) ->
  (forall t, preserves Inv (setTimestamp t)) ->
  preserves Inv (saveState env) ->
  (forall tweet, preserves Inv (processTweet env tweet)) ->
  preserves Inv (processTweets env).
Proof.
  intros [Hw Hl He]. apply preserves_processTweets_feed.
  split; auto. intros s ev Hev. apply He, feed_event_io, Hev.
Qed.

Lemma not_sent_io id ev : io_event ev -> ~ sent_for_id id ev.
Proof. destruct ev; simpl; tauto. Qed.

Lemma Frame_seen_kept id s0 :
  Frame (seen_kept (W:=W) id s0) (fun ev => ~ sent_for_id id ev).
Proof.
  split.
  - intros s w Hs. exact Hs.
  - intros s l Hs. exact Hs.
  - intros s ev Hev (Hseen & evs & Htr & Hevs). split; [exact Hseen|].
    exists (evs ++ [ev]). simpl. rewrite Htr, app_assoc. split; [reflexivity|].
    apply Forall_app. split; [assumption|]. constructor; [assumption|constructor].
Qed.

Lemma seen_kept_step id s0 s s' evs :
  seen_kept id s0 s ->
  seen (lastProcessedIds s') id = true ->
  trace s' = trace s ++ evs ->
  Forall (fun ev => ~ sent_for_id id ev) evs ->
  seen_kept id s0 s'.
Proof.
  intros (_ & evs0 & Htr0 & Hevs0) Hseen Htr Hevs. split; [assumption|].
  exists (evs0 ++ evs). rewrite Htr, Htr0, app_assoc. split; [reflexivity|].
  apply Forall_app. split; assumption.
Qed.

(** Once an identifier is marked, a cycle keeps it marked and sends nothing
    for it. *)
Lemma cycle_keeps_seen s id :
  seen (lastProcessedIds s) id = true ->
  seen_kept id s (processTweets env s).2.
Proof.
  intros Hseen. apply (preserves_processTweets (seen_kept id s)).
  - destruct (Frame_seen_kept id s) as [Hw Hl He]. split; auto.
    intros s1 ev Hev. apply He, not_sent_io, Hev.
  - intros id' s1 Hs1. apply (seen_kept_step id s s1 _ [EvMarkSeen id'] Hs1).
    + simpl. apply seen_insert_mono, Hs1.
    + reflexivity.
    + constructor; [simpl; tauto|constructor].
  - intros t s1 Hs1. apply (seen_kept_step id s s1 _ [EvSetTimestamp t] Hs1).
    + apply Hs1.
    + reflexivity.
    + constructor; [simpl; tauto|constructor].
  - intros s1 Hs1.
    destruct (saveState_effect env s1) as (ok1 & rest & _ & Hi & _ & Htr & _ & Hrest).
    apply (seen_kept_step id s s1 _ _ Hs1 ltac:(rewrite Hi; apply Hs1) Htr).
    constructor; [simpl; tauto|].
    destruct ok1; [destruct Hrest as [ok2 ->]|subst rest]; repeat constructor.
    simpl. tauto.
  - intros tweet s1 Hs1.
    destruct (seen (lastProcessedIds s1) (tw_id tweet)) eqn:Hseen1.
    + rewrite (processTweet_seen _ _ _ Hseen1). exact Hs1.
    + destruct (processTweet_unseen_effect env tweet s1 Hseen1)
        as (Hi & _ & _ & evs & Htr & Hevs).
      assert (Hne : tw_id tweet <> id).
      { intros Heq. destruct Hs1 as [Hs1 _]. rewrite <- Heq in Hs1. congruence. }
      apply (seen_kept_step id s s1 _ (EvMarkSeen (tw_id tweet) :: evs) Hs1);
        [|exact Htr|].
      * rewrite Hi. apply seen_insert_mono, Hs1.
      * constructor; [simpl; tauto|].
        eapply Forall_impl; [exact Hevs|]. intros ev Hev Hsent.
        destruct ev; simpl in *; try tauto; congruence.
  - split; [assumption|]. exists []. rewrite app_nil_r. split; [reflexivity|constructor].
Qed.

Lemma replay_app evs evs' dk : replay (evs ++ evs') dk = replay evs' (replay evs dk).
Proof. unfold replay. apply fold_left_app. Qed.

Lemma replay_no_write evs dk :
  Forall (fun ev => forall d r, ev <> EvWriteFile d r) evs -> replay evs dk = dk.
Proof.
  induction 1 as [|ev evs Hev _ IH]; [reflexivity|].
  unfold replay in *. simpl. rewrite <- IH at 2.
  destruct ev; try reflexivity.
  exfalso. eapply Hev. reflexivity.
Qed.

Lemma disk_replayed_step s0 s s' evs :
  disk_replayed s0 s ->
  trace s' = trace s ++ evs ->
  disk s' = replay evs (disk s) ->
  disk_replayed s0 s'.
Proof.
  intros (evs0 & Htr0 & Hd0) Htr Hd. exists (evs0 ++ evs).
  rewrite Htr, Htr0, app_assoc, replay_app, <- Hd0. auto.
Qed.

(** The disk at the end of a cycle is the disk at its start with the writes
    of the trace replayed: [replay] tells what is on disk at any point. *)
Lemma cycle_disk_replayed s : disk_replayed s (processTweets env s).2.
Proof.
  apply (preserves_processTweets (disk_replayed s)).
  - split.
    + intros s1 w Hs1. exact Hs1.
    + intros s1 l Hs1. exact Hs1.
    + intros s1 ev Hev Hs1. apply (disk_replayed_step s s1 _ [ev] Hs1);
        [reflexivity|]. destruct ev; simpl in Hev; try reflexivity; tauto.
  - intros id s1 Hs1.
    apply (disk_replayed_step s s1 _ [EvMarkSeen id] Hs1); reflexivity.
  - intros t s1 Hs1.
    apply (disk_replayed_step s s1 _ [EvSetTimestamp t] Hs1); reflexivity.
  - intros s1 Hs1.
    destruct (saveState_effect env s1) as (ok1 & rest & _ & _ & _ & Htr & Hd & _).
    apply (disk_replayed_step s s1 _ _ Hs1 Htr Hd).
  - intros tweet s1 Hs1.
    destruct (seen (lastProcessedIds s1) (tw_id tweet)) eqn:Hseen1.
    + rewrite (processTweet_seen _ _ _ Hseen1). exact Hs1.
    + destruct (processTweet_unseen_effect env tweet s1 Hseen1)
        as (_ & _ & Hd & evs & Htr & Hevs).
      apply (disk_replayed_step s s1 _ _ Hs1 Htr).
      rewrite Hd, replay_no_write; [reflexivity|].
      constructor; [discriminate|].
      eapply Forall_impl; [exact Hevs|]. intros ev Hev d r ->. exact Hev.
  - exists []. rewrite app_nil_r. split; reflexivity.
Qed.

(** The first run loop marks every tweet of the batch and nothing else. *)
Lemma forEach_markSeen tweets : forall s,
  forEach (fun tweet => markSeen (W:=W) (tw_id tweet)) tweets s
  = (Ok tt,
     {| lastProcessedIds := mark_all tweets (lastProcessedIds s);
        lastFetchTimestamp := lastFetchTimestamp s;
        disk := disk s; world := world s;
        trace := trace s ++ map (fun tweet => EvMarkSeen (tw_id tweet)) tweets;
        loc := loc s |}).
Proof.
  induction tweets as [|t l IH]; intros s; simpl.
  - rewrite app_nil_r. destruct s; reflexivity.
  - unfold bind. simpl. rewrite IH. simpl. rewrite <- app_assoc. reflexivity.
Qed.

Lemma mark_all_seen tweets : forall ids id,
  seen (mark_all tweets ids) id = true <->
  seen ids id = true \/ exists t, In t tweets /\ tw_id t = id.
Proof.
  induction tweets as [|t l IH]; intros ids id; simpl.
  - split; [auto|]. intros [H|(t & [] & _)]. exact H.
  - rewrite IH, seen_insert. destruct (decide (tw_id t = id)) as [Heq|Hne].
    + split; [|auto]. intros _. right. exists t. auto.
    + split.
      * intros [H|(t' & Hin & Hid)]; [auto|]. right. exists t'. auto.
      * intros [H|(t' & [->|Hin] & Hid)]; [auto|congruence|].
        right. exists t'. auto.
Qed.

End CycleInvariants.

(** ** Statements about the cycle *)

(** C9.  In a cycle after the first one that reaches the recency filter,
    [saveState] is invoked (a state file write is attempted) if and only if
    there is at least one recent tweet; with no recent tweet the cycle only
    sets [lastFetchTimestamp]: the seen identifiers and both files stay as
    they were. *)
Theorem save_iff_recent_posts {W} (env : Env W) (s : St W)
    (tweets : list Tweet) (currentFetchTime currentTime : Z) :
  later_cycle env s tweets currentFetchTime currentTime ->
  let s' := (processTweets env s).2 in
  ((exists d ok, In (EvWriteFile d ok) (emitted s s')) <->
   recentTweets_of currentTime tweets <> []) /\
  (recentTweets_of currentTime tweets = [] ->
   lastFetchTimestamp s' = Some currentFetchTime /\
   lastProcessedIds s' = lastProcessedIds s /\
   disk s' = disk s /\
   emitted s s' = removelast (emitted s s') ++ [EvSetTimestamp currentFetchTime]).
Proof.
  intros Hlater s'.
  destruct (later_cycle_shape env s tweets currentFetchTime currentTime Hlater)
    as (evs0 & evsL & tail & Hem & H0 & HL & Htail & Hts & Hids & Hcase).
  fold s' in Hem, Hts, Hids, Hcase. split; [split|].
  - intros (d & ok & Hin) Hnil. rewrite Hnil in *.
    destruct Hcase as [-> _]. rewrite Hem in Hin.
    apply in_app_or in Hin as [Hin|Hin].
    + apply (Forall_In _ _ _ H0 Hin).
    + apply in_app_or in Hin as [Hin|Hin].
      * destruct (Forall_In _ _ _ HL Hin) as (t & [] & _).
      * destruct Hin as [Hin|[]]. discriminate.
  - intros Hne. destruct (recentTweets_of currentTime tweets) as [|t L];
      [congruence|].
    destruct Hcase as (ok & rest & ->).
    exists (IdsData (lastProcessedIds s')), ok. rewrite Hem.
    apply in_or_app. right. apply in_or_app. right. right. left. reflexivity.
  - intros Hnil. rewrite Hnil in *. destruct Hcase as [-> Hd].
    repeat split; try assumption.
    + apply map_eq. intros id. apply Hids. intros t [].
    + rewrite Hem, !app_assoc, removelast_last. reflexivity.
Qed.

Lemma save_iff_recent_posts_witness :
  later_cycle (fixed_env [stale_post; fresh_post] None true) running_state
    [stale_post; fresh_post] 100000 100000 /\
  ((exists d ok,
      In (EvWriteFile d ok)
         (emitted running_state
            (processTweets (fixed_env [stale_post; fresh_post] None true)
               running_state).2)) <->
   recentTweets_of 100000 [stale_post; fresh_post] <> []).
Proof.
  assert (H : later_cycle (fixed_env [stale_post; fresh_post] None true)
                running_state [stale_post; fresh_post] 100000 100000).
  { split; [discriminate|]. eexists _, tt, tt, tt. repeat split; reflexivity. }
  split; [exact H|].
  apply (save_iff_recent_posts (fixed_env [stale_post; fresh_post] None true)
           running_state [stale_post; fresh_post] 100000 100000 H).
Defined.

Lemma stale_post_cycle :
  later_cycle (fixed_env [stale_post; fresh_post] None true) running_state
    [stale_post; fresh_post] 100000 100000.
Proof.
  split; [discriminate|]. eexists _, tt, tt, tt. repeat split; reflexivity.
Qed.

(** C1, as stated, fails: in a later cycle a fetched post that is 99 seconds
    old is still unmarked when the cycle ends. *)
Lemma old_post_is_not_marked :
  ~ old_posts_marked_and_unpublished
      (fixed_env [stale_post; fresh_post] None true) running_state.
Proof.
  intros H.
  destruct (H [stale_post; fresh_post] 100000%Z 100000%Z stale_post_cycle
              stale_post 1000%Z) as [Hseen _].
  - left. reflexivity.
  - reflexivity.
  - reflexivity.
  - vm_compute in Hseen. discriminate.
Qed.

(** C1, amended.  In a cycle after the first one that reaches the recency
    filter, a fetched post older than the 60 second window is not published,
    and the cycle does not mark it: the entry of its identifier in
    [lastProcessedIds] is left as it was, unless a post inside the window
    carries the same identifier. *)
Theorem old_posts_neither_published_nor_marked {W} (env : Env W) (s : St W)
    (tweets : list Tweet) (currentFetchTime currentTime : Z) (P : Tweet) (c : Z) :
  later_cycle env s tweets currentFetchTime currentTime ->
  In P tweets -> tw_created_at P = DateAt c ->
  (ONE_MINUTE < currentTime - c)%Z ->
  let s' := (processTweets env s).2 in
  (forall ev, In ev (emitted s s') -> ~ sent_for P ev) /\
  ((forall t, In t tweets -> is_recent currentTime t = true -> tw_id t <> tw_id P) ->
   lastProcessedIds s' !! tw_id P = lastProcessedIds s !! tw_id P).
Proof.
  intros Hlater HP Hc Hold s'.
  destruct (later_cycle_shape env s tweets currentFetchTime currentTime Hlater)
    as (evs0 & evsL & tail & Hem & H0 & HL & Htail & _ & Hids & _).
  fold s' in Hem, Hids.
  assert (Hnot : is_recent currentTime P = false).
  { unfold is_recent, tweetTime. rewrite Hc. apply Z.leb_gt. exact Hold. }
  split.
  - intros ev Hin Hsent. rewrite Hem in Hin.
    apply in_app_or in Hin as [Hin|Hin].
    + apply (Forall_In _ _ _ H0) in Hin. destruct ev; simpl in *; tauto.
    + apply in_app_or in Hin as [Hin|Hin].
      * destruct (Forall_In _ _ _ HL Hin) as (t & Ht & [Hev| ->]); [|exact Hsent].
        apply recentTweets_of_In in Ht as [_ Ht].
        destruct ev; simpl in *; try tauto; congruence.
      * apply (Forall_In _ _ _ Htail) in Hin. destruct ev; simpl in *; tauto.
  - intros Hother. apply Hids. intros t Ht.
    apply recentTweets_of_In in Ht as [Ht1 Ht2]. apply Hother; assumption.
Qed.

Lemma old_posts_neither_published_nor_marked_witness :
  let s' := (processTweets (fixed_env [stale_post; fresh_post] None true)
               running_state).2 in
  (forall ev, In ev (emitted running_state s') -> ~ sent_for stale_post ev) /\
  lastProcessedIds s' !! "1" = None.
Proof.
  destruct (old_posts_neither_published_nor_marked
              (fixed_env [stale_post; fresh_post] None true) running_state
              [stale_post; fresh_post] 100000 100000 stale_post 1000
              stale_post_cycle ltac:(left; reflexivity) eq_refl eq_refl)
    as [Hsent Hids].
  split; [exact Hsent|].
  change (lastProcessedIds running_state !! "1") with (@None bool) in Hids.
  apply Hids. intros t [<-|[<-|[]]]; vm_compute; discriminate.
Defined.

(** C3.  A post whose identifier is marked when the loop examines it is
    skipped: the iteration changes nothing and sends nothing.  When the
    identifier is marked at the start of a cycle, the whole cycle sends no
    message for it. *)
Theorem seen_post_is_not_published {W} (env : Env W) (s : St W) (tweet : Tweet) :
  seen (lastProcessedIds s) (tw_id tweet) = true ->
  processTweet env tweet s = (Ok tt, s) /\
  forall ev, In ev (emitted s (processTweets env s).2) ->
    ~ sent_for_id (tw_id tweet) ev.
Proof.
  intros Hseen. split; [apply processTweet_seen, Hseen|].
  destruct (cycle_keeps_seen env s (tw_id tweet) Hseen) as (_ & evs & Htr & Hevs).
  rewrite (emitted_app _ _ _ Htr). intros ev Hin. apply (Forall_In _ _ _ Hevs Hin).
Qed.

Lemma seen_post_is_not_published_witness :
  let s := (processTweets (fixed_env [fresh_post] None true) running_state).2 in
  seen (lastProcessedIds s) "2" = true /\
  processTweet (fixed_env [fresh_post] None true) fresh_post s = (Ok tt, s) /\
  forall ev,
    In ev (emitted s (processTweets (fixed_env [fresh_post] None true) s).2) ->
    ~ sent_for_id "2" ev.
Proof.
  split; [reflexivity|].
  apply (seen_post_is_not_published (fixed_env [fresh_post] None true)
           (processTweets (fixed_env [fresh_post] None true) running_state).2
           fresh_post).
  reflexivity.
Defined.

(** C2, as stated, fails: the cycle that publishes the fresh post is stopped
    after its fifth event, the send of the embed; the files are then as they
    were before the cycle, and the restarted process sends the same embed
    again. *)
Lemma crash_before_save_resends :
  ~ crash_safe (fixed_env [fresh_post] None true) running_state.
Proof.
  intros H.
  apply (H 5%nat fresh_post (initial_embed alice fresh_post (TsAt 99000)))
    with (w := tt) (ok := true).
  - vm_compute. tauto.
  - vm_compute. tauto.
Qed.

(** C2, amended.  When the loop processes a post that is not marked, the
    first thing that happens is the assignment [lastProcessedIds[id] = true]:
    every request and every message caused by the post comes after it in the
    trace.  The mark is in memory only: the state files are not written
    while the post is processed. *)
Theorem post_is_marked_before_network {W} (env : Env W) (s : St W) (tweet : Tweet) :
  seen (lastProcessedIds s) (tw_id tweet) = false ->
  let s' := (processTweet env tweet s).2 in
  (exists evs,
     emitted s s' = EvMarkSeen (tw_id tweet) :: evs /\
     Forall (net_event tweet) evs) /\
  seen (lastProcessedIds s') (tw_id tweet) = true /\
  disk s' = disk s.
Proof.
  intros Hseen s'.
  destruct (processTweet_unseen_effect env tweet s Hseen)
    as (Hi & _ & Hd & evs & Htr & Hevs).
  fold s' in Hi, Hd, Htr. split; [|split].
  - exists evs. split; [apply emitted_app, Htr|exact Hevs].
  - rewrite Hi, seen_insert. destruct (decide _); congruence.
  - exact Hd.
Qed.

Lemma post_is_marked_before_network_witness :
  let s' := (processTweet (fixed_env [fresh_post] None true) fresh_post
               running_state).2 in
  (exists evs,
     emitted running_state s' = EvMarkSeen "2" :: evs /\
     Forall (net_event fresh_post) evs) /\
  seen (lastProcessedIds s') "2" = true /\
  disk s' = running_disk.
Proof.
  apply (post_is_marked_before_network (fixed_env [fresh_post] None true)
           running_state fresh_post).
  reflexivity.
Defined.

(** C4.  On the first cycle ever, whatever the fetched batch holds: nothing
    is sent, every fetched post is marked, the fetch time is recorded, and
    [saveState] is invoked on that state: the write of the identifiers is
    attempted, and unless a write fails both files hold the new state. *)
Theorem first_cycle_marks_everything {W} (env : Env W) (s : St W)
    (tweets : list Tweet) (currentFetchTime : Z) :
  first_cycle env s tweets currentFetchTime ->
  let s' := (processTweets env s).2 in
  (forall ev, In ev (emitted s s') -> ~ is_send ev) /\
  (forall t, In t tweets -> seen (lastProcessedIds s') (tw_id t) = true) /\
  lastFetchTimestamp s' = Some currentFetchTime /\
  (exists ok, In (EvWriteFile (IdsData (lastProcessedIds s')) ok) (emitted s s')) /\
  ((forall d e left, ~ In (EvWriteFile d (Failed e left)) (emitted s s')) ->
   disk s' = {| processed_ids_json := Content (lastProcessedIds s');
                bot_state_json := Content (Some currentFetchTime) |}).
Proof.
  intros (Hts & s1 & w2 & Hfetch & Hnow) s'.
  pose proof (frames_same_memory io_event (fetchTweets env) s
                (frames_fetchTweets env)) as Hsame.
  rewrite Hfetch in Hsame. simpl in Hsame.
  destruct Hsame as (Hi1 & Ht1 & Hd1 & evs0 & Htr1 & Hevs0).
  set (s3 := {| lastProcessedIds := mark_all tweets (lastProcessedIds s1);
                lastFetchTimestamp := Some currentFetchTime;
                disk := disk s1; world := w2;
                trace := (trace s1
                          ++ map (fun tweet => EvMarkSeen (tw_id tweet)) tweets)
                         ++ [EvSetTimestamp currentFetchTime];
                loc := loc s1 |}).
  assert (Hrun : s' = (saveState env s3).2).
  { subst s'. unfold processTweets, try_catch, bind at 1. rewrite Hfetch.
    unfold bind at 1, ask at 1. rewrite Hnow. simpl.
    unfold bind at 1, get. simpl. rewrite Ht1, Hts.
    unfold firstRun, bind at 1. rewrite forEach_markSeen.
    unfold bind at 1. simpl. fold s3.
    destruct (saveState env s3) as [[[]|e] s4]; reflexivity. }
  destruct (saveState_effect env s3) as (ok1 & rest & _ & Hi & Ht & Htr & Hd & Hrest).
  rewrite <- Hrun in Hi, Ht, Htr, Hd. simpl in Hi, Ht, Htr, Hd.
  assert (Hem : emitted s s'
                = evs0 ++ map (fun tweet => EvMarkSeen (tw_id tweet)) tweets
                  ++ EvSetTimestamp currentFetchTime
                  :: EvWriteFile (IdsData (lastProcessedIds s')) ok1 :: rest).
  { apply emitted_app. rewrite Htr, Htr1, Hi, <- !app_assoc. reflexivity. }
  split; [|split; [|split; [|split]]].
  - intros ev Hin Hsend. rewrite Hem in Hin.
    apply in_app_or in Hin as [Hin|Hin].
    + apply (Forall_In _ _ _ Hevs0) in Hin. destruct ev; simpl in *; tauto.
    + apply in_app_or in Hin as [Hin|Hin].
      * apply in_map_iff in Hin as (t & <- & _). exact Hsend.
      * destruct Hin as [<-|[<-|Hin]]; try exact Hsend.
        destruct ok1; [destruct Hrest as [ok2 ->]|subst rest];
          simpl in Hin; [destruct Hin as [<-|[]]; exact Hsend|tauto].
  - intros t Hin. rewrite Hi. apply mark_all_seen. right. eauto.
  - exact Ht.
  - exists ok1. rewrite Hem. apply in_or_app. right. apply in_or_app. right.
    right. left. reflexivity.
  - intros Hnofail. rewrite Hd, Hi.
    destruct ok1 as [|e1 l1].
    + destruct Hrest as [[|e2 l2] ->]; [reflexivity|].
      exfalso. apply (Hnofail (StateData (Some currentFetchTime)) e2 l2).
      rewrite Hem. apply in_or_app. right. apply in_or_app. right.
      right. right. left. reflexivity.
    + exfalso. apply (Hnofail (IdsData (lastProcessedIds s')) e1 l1).
      rewrite Hem. apply in_or_app. right. apply in_or_app. right.
      right. left. reflexivity.
Qed.

Lemma first_cycle_marks_everything_witness :
  let env := fixed_env [stale_post; fresh_post] None true in
  let s' := (processTweets env new_state).2 in
  first_cycle env new_state [stale_post; fresh_post] 100000 /\
  (forall ev, In ev (emitted new_state s') -> ~ is_send ev) /\
  (forall t, In t [stale_post; fresh_post] ->
     seen (lastProcessedIds s') (tw_id t) = true) /\
  lastFetchTimestamp s' = Some 100000%Z.
Proof.
  assert (H : first_cycle (fixed_env [stale_post; fresh_post] None true)
                new_state [stale_post; fresh_post] 100000).
  { split; [reflexivity|]. eexists _, tt. split; reflexivity. }
  split; [exact H|].
  destruct (first_cycle_marks_everything
              (fixed_env [stale_post; fresh_post] None true) new_state
              [stale_post; fresh_post] 100000 H) as (H1 & H2 & H3 & _).
  split; [exact H1|]. split; [exact H2|exact H3].
Defined.

(** ** Video variant selection *)

(** C5.  The four places that choose a video variant, each run on the
    variants of the example, [{mp4,100}; {mp4,500}; {webm,900}], with every
    download going through.  The two that filter by content type and sort by
    bitrate, [mediaDetails] of the detail record and [extended_entities] of
    the raw post, request the MP4 of bitrate 500 and nothing else.  The two
    that use [find], [detail.video] and [detail.parent.video], request the
    first MP4 of the list, the one of bitrate 100, and never the one of
    bitrate 500, although line 316 announces the variant of highest
    quality. *)
Theorem find_tiers_take_first_mp4 :
  let requested := fun detail tweet =>
    requested_urls
      (trace (processTweet (fixed_env [tweet] detail true) tweet running_state).2) in
  requested (Some detail_with_mediaDetails) fresh_post = [v_url mp4_500] /\
  requested None clip_post = [v_url mp4_500] /\
  requested (Some detail_with_video) fresh_post = [v_url mp4_100] /\
  requested (Some detail_with_parent_video) fresh_post = [v_url mp4_100] /\
  (bitrate mp4_100 < bitrate mp4_500)%Z /\
  v_content_type mp4_500 = Some "video/mp4".
Proof. vm_compute. repeat split. Qed.
(** ** Media resolution *)

Section RetryLogic.
Context {W T : Type} (fn : M (W:=W) T) (maxRetries : nat) (delay : Z).
Context (Inv : St W -> Prop) (Good : T -> St W -> Prop).

Hypothesis attempt_ends : forall s, Inv s -> ends Inv Good (fn s).
Hypothesis Inv_failed : forall s a, Inv s -> Inv (emit (EvAttemptFailed a maxRetries) s).2.
Hypothesis Inv_delay : forall s, Inv s -> Inv (emit (EvDelay delay) s).2.

Lemma retry_loop_S fuel attempt lastError :
  retry_loop fn maxRetries delay (S fuel) attempt lastError
  = if (attempt <=? maxRetries)%nat then
      try_catch fn (fun error =>
        emit (EvAttemptFailed attempt maxRetries);;
        (if (attempt <? maxRetries)%nat then emit (EvDelay delay) else ret tt);;
        retry_loop fn maxRetries delay fuel (S attempt) error)
    else throw lastError.
Proof. reflexivity. Qed.

Lemma retry_loop_ends fuel : forall attempt lastError s,
  Inv s -> ends Inv Good (retry_loop fn maxRetries delay fuel attempt lastError s).
Proof.
  induction fuel as [|fuel IH]; intros attempt lastError s Hs.
  - exact Hs.
  - rewrite retry_loop_S.
    destruct (attempt <=? maxRetries)%nat; [|exact Hs].
    unfold try_catch. pose proof (attempt_ends s Hs) as Hfn.
    destruct (fn s) as [[v|e] s1]; [exact Hfn|].
    unfold bind at 1. unfold emit at 1. unfold bind at 1.
    destruct (attempt <? maxRetries)%nat; apply IH.
    + exact (Inv_delay _ (Inv_failed s1 attempt Hfn)).
    + exact (Inv_failed s1 attempt Hfn).
Qed.

(** With a budget of at least one attempt the operation runs at least once:
    it is enough that the first attempt, started under [Pre], ends well. *)
Lemma withRetry_ends (Pre : St W -> Prop) s :
  (1 <= maxRetries)%nat ->
  (forall s, Pre s -> ends Inv Good (fn s)) ->
  Pre s -> ends Inv Good (withRetry fn maxRetries delay s).
Proof.
  intros HN Hfirst Hs. unfold withRetry. rewrite retry_loop_S.
  destruct (Nat.leb_spec 1 maxRetries); [|lia].
  unfold try_catch. pose proof (Hfirst s Hs) as Hfn.
  destruct (fn s) as [[v|e] s1]; [exact Hfn|].
  unfold bind at 1. unfold emit at 1. unfold bind at 1.
  destruct (1 <? maxRetries)%nat; apply retry_loop_ends.
  - exact (Inv_delay _ (Inv_failed s1 1%nat Hfn)).
  - exact (Inv_failed s1 1%nat Hfn).
Qed.

End RetryLogic.

Section MediaFacts.
Context {W : Type} (env : Env W).
Implicit Types (s : St W) (tweet : Tweet) (l : Locals) (evs : list event).

Lemma not_saved_app evs evs' : ~ saved evs -> ~ saved evs' -> ~ saved (evs ++ evs').
Proof. intros H1 H2 (p & Hin). apply in_app_or in Hin as [Hin|Hin]; [apply H1|apply H2]; exists p; exact Hin. Qed.

Lemma quiet_not_saved evs : Forall quiet_event evs -> ~ saved evs.
Proof. intros H (p & Hin). apply (Forall_In _ _ _ H) in Hin. exact Hin. Qed.

(** The detail fetch leaves the locals alone and causes quiet events only. *)
Lemma fetchSingleTweet_post tweetId s :
  loc (fetchSingleTweet env tweetId s).2 = loc s /\
  exists evs,
    trace (fetchSingleTweet env tweetId s).2 = trace s ++ evs /\
    Forall quiet_event evs.
Proof.
  set (Inv := fun s' : St W =>
    loc s' = loc s /\
    exists evs, trace s' = trace s ++ evs /\ Forall quiet_event evs).
  assert (Hstep : forall s' ev, quiet_event ev -> Inv s' -> Inv (emit ev s').2).
  { intros s' ev Hev (Hl & evs & Htr & Hevs). split; [exact Hl|].
    exists (evs ++ [ev]). simpl. rewrite Htr, app_assoc. split; [reflexivity|].
    apply Forall_app. split; [exact Hevs|]. constructor; [exact Hev|constructor]. }
  assert (H : ends Inv (fun _ => Inv) (fetchSingleTweet env tweetId s)).
  { unfold fetchSingleTweet.
    apply (retry_loop_ends _ _ _ Inv (fun _ => Inv)).
    - intros s' Hs'. unfold bind at 1.
      pose proof (Hstep s' (EvDetailGet tweetId) I Hs') as Hs1.
      destruct (emit (EvDetailGet tweetId) s') as [[[]|e] s1] eqn:He;
        [|discriminate He]. simpl in Hs1.
      unfold bind, call.
      destruct (axios_get_tweet env _ (world s1)) as [[response|e] w]; simpl.
      + destruct (status response =? 200)%Z; exact Hs1.
      + exact Hs1.
    - intros s' a. apply Hstep. exact I.
    - intros s'. apply Hstep. exact I.
    - split; [reflexivity|]. exists []. rewrite app_nil_r. split; [reflexivity|constructor]. }
  unfold ends in H. destruct (fetchSingleTweet env tweetId s) as [[d|e] s1]; exact H.
Qed.

(** A download leaves the locals alone, requests the URL at least once, and
    returns the path of the cache file exactly when a file has been saved. *)
Lemma downloadMedia_post url filename s :
  loc (downloadMedia env url filename s).2 = loc s /\
  exists evs,
    trace (downloadMedia env url filename s).2 = trace s ++ evs /\
    Forall download_event evs /\ In (EvMediaGet url) evs /\
    match (downloadMedia env url filename s).1 with
    | Ok path => path = path_join CACHE_DIR filename /\ saved evs
    | Throw _ => ~ saved evs
    end.
Proof.
  set (Pre := fun s' : St W => s' = s).
  set (Inv := fun s' : St W =>
    loc s' = loc s /\
    exists evs, trace s' = trace s ++ evs /\
      Forall download_event evs /\ In (EvMediaGet url) evs /\ ~ saved evs).
  set (Good := fun (path : string) (s' : St W) =>
    loc s' = loc s /\ path = path_join CACHE_DIR filename /\
    exists evs, trace s' = trace s ++ evs /\
      Forall download_event evs /\ In (EvMediaGet url) evs /\ saved evs).
  assert (Hstep : forall s' ev, quiet_event ev -> download_event ev ->
            Inv s' -> Inv (emit ev s').2).
  { intros s' ev Hev Hdl (Hl & evs & Htr & Hevs & Htried & Hsaved). split; [exact Hl|].
    exists (evs ++ [ev]). simpl. rewrite Htr, app_assoc. split; [reflexivity|].
    split; [|split].
    - apply Forall_app. split; [exact Hevs|]. constructor; [exact Hdl|constructor].
    - apply in_or_app. left. exact Htried.
    - apply not_saved_app; [exact Hsaved|].
      apply quiet_not_saved. constructor; [exact Hev|constructor]. }
  assert (Hattempt : forall s' evs,
    loc s' = loc s -> trace s' = trace s ++ evs ->
    Forall download_event evs -> ~ saved evs ->
    ends Inv Good
      ((emit (EvMediaGet url);;
        call (axios_get_media env url);;
        writeCacheFile env (path_join CACHE_DIR filename);;
        emit (EvMediaSaved (path_join CACHE_DIR filename));;
        ret (path_join CACHE_DIR filename)) s')).
  { intros s' evs Hl Htr Hevs Hsaved.
    assert (Hinv : Inv (emit (EvMediaGet url) s').2).
    { split; [exact Hl|]. exists (evs ++ [EvMediaGet url]). simpl.
      rewrite Htr, app_assoc. split; [reflexivity|]. split; [|split].
      - apply Forall_app. split; [exact Hevs|]. repeat constructor.
      - apply in_or_app. right. left. reflexivity.
      - apply not_saved_app; [exact Hsaved|]. intros (p & [Hp|[]]). discriminate. }
    unfold bind at 1. simpl. unfold bind at 1, call at 1. simpl.
    destruct (axios_get_media env url (world s')) as [[[]|e] w]; simpl;
      [|exact Hinv].
    unfold bind at 1, writeCacheFile, call at 1. simpl.
    destruct (fs_writeFileSync env _ w) as [[|e lf] w']; simpl; [|exact Hinv].
    split; [exact Hl|]. split; [reflexivity|].
    exists ((evs ++ [EvMediaGet url])
            ++ [EvMediaSaved (path_join CACHE_DIR filename)]).
    rewrite Htr, !app_assoc. split; [reflexivity|]. split; [|split].
    - repeat (apply Forall_app; split); try exact Hevs; repeat constructor.
    - apply in_or_app. left. apply in_or_app. right. left. reflexivity.
    - exists (path_join CACHE_DIR filename). apply in_or_app. right. left.
      reflexivity. }
  assert (H : ends Inv Good (downloadMedia env url filename s)).
  { unfold downloadMedia.
    apply (withRetry_ends _ _ _ Inv Good) with (Pre := Pre).
    - intros s' (Hl & evs & Htr & Hevs & _ & Hsaved).
      apply (Hattempt s' evs); assumption.
    - intros s' a. apply Hstep; exact I.
    - intros s'. apply Hstep; exact I.
    - unfold MAX_RETRIES. lia.
    - intros s' ->. apply (Hattempt s []).
      + reflexivity.
      + rewrite app_nil_r. reflexivity.
      + constructor.
      + intros (p & []).
    - reflexivity. }
  unfold ends in H.
  destruct (downloadMedia env url filename s) as [[path|e] s1]; simpl.
  - destruct H as (Hl & Hp & evs & Htr & Hevs & Htried & Hsaved). eauto 10.
  - destruct H as (Hl & evs & Htr & Hevs & Htried & Hsaved). eauto 10.
Qed.

(** [attachVideo]: either the download goes through and the video is
    recorded, or it throws and only the file name has been assigned. *)
Lemma attachVideo_post url filename note s :
  exists evs,
    trace (attachVideo env url filename note s).2 = trace s ++ evs /\
    Forall download_event evs /\ In (EvMediaGet url) evs /\
    match (attachVideo env url filename note s).1 with
    | Ok found =>
        found = true /\ saved evs /\
        loc (attachVideo env url filename note s).2
        = video_found filename note (loc s)
    | Throw _ =>
        ~ saved evs /\
        loc (attachVideo env url filename note s).2
        = set_videoFilename filename (loc s)
    end.
Proof.
  destruct (downloadMedia_post url filename
              (set_loc (set_videoFilename filename (loc s)) s))
    as (Hl & evs & Htr & Hevs & Htried & Hres).
  unfold attachVideo, bind, modifyLoc. simpl.
  destruct (downloadMedia env url filename _) as [[path|e] s1]; simpl in *.
  - destruct Hres as [-> Hsaved]. exists evs. simpl. rewrite Hl.
    repeat split; assumption.
  - exists evs. auto.
Qed.


(** [useImage] on an argument that the builder accepts. *)
Lemma useImage_locals url count s :
  image_accepted env url = true ->
  useImage env url count s
  = (Ok tt,
     set_loc ((if (1 <? count)%nat
               then set_embed (footer_note (pretty count +:+ " images"))
               else fun l => l)
                (set_hasFoundImage (set_embed (setImage url) (loc s)))) s).
Proof.
  intros Hacc. unfold useImage, validate, bind, modifyLoc.
  destruct url as [u|]; simpl in *; rewrite ?Hacc; simpl;
    (destruct (1 <? count)%nat; simpl; [reflexivity|destruct s; reflexivity]).
Qed.

Lemma useImage_run url count s :
  image_accepted env url = true ->
  exists l',
    useImage env url count s = (Ok tt, set_loc l' s) /\
    hasFoundVideo l' = hasFoundVideo (loc s) /\
    hasFoundImage l' = true /\
    videoPath l' = videoPath (loc s) /\
    e_image (embed l') = if truthy url then url else None.
Proof.
  intros Hacc. rewrite (useImage_locals url count s Hacc).
  eexists. split; [reflexivity|]. destruct (1 <? count)%nat; simpl; auto.
Qed.

(** [useImage] on an argument that the builder refuses: the setter throws
    and nothing is assigned. *)
Lemma useImage_refused url count s :
  image_accepted env url = false ->
  useImage env url count s = (Throw validation_error, s).
Proof.
  intros Hacc. unfold useImage, validate, bind.
  destruct url as [u|]; simpl in *; [rewrite Hacc; reflexivity|discriminate].
Qed.

End MediaFacts.

(** ** Triples on the locals *)

Section Triples.
Context {W : Type}.
Implicit Types (P T : Locals -> Prop).

Lemma tri_ret {A} P (Q : A -> Locals -> Prop) T (a : A) :
  (forall l, P l -> Q a l) -> tri (W:=W) P (ret a) Q T.
Proof. intros H s Hs. simpl. apply H, Hs. Qed.

Lemma tri_bind {A B} P (Mid : A -> Locals -> Prop) (Q : B -> Locals -> Prop) T
    (m : M (W:=W) A) (k : A -> M B) :
  tri P m Mid T -> (forall a, tri (Mid a) (k a) Q T) -> tri P (bind m k) Q T.
Proof.
  intros Hm Hk s Hs. unfold bind. specialize (Hm s Hs).
  destruct (m s) as [[a|e] s1]; simpl in *; [apply Hk, Hm|exact Hm].
Qed.

Lemma tri_getLoc {B} P (Q : B -> Locals -> Prop) T (k : Locals -> M (W:=W) B) :
  (forall l0, P l0 -> tri (fun l => l = l0) (k l0) Q T) ->
  tri P (bind getLoc k) Q T.
Proof. intros H s Hs. unfold bind, getLoc. simpl. apply (H (loc s) Hs). reflexivity. Qed.

Lemma tri_modifyLoc P (Q : unit -> Locals -> Prop) T f :
  (forall l, P l -> Q tt (f l)) -> tri (W:=W) P (modifyLoc f) Q T.
Proof. intros H s Hs. simpl. apply H, Hs. Qed.

Lemma tri_try_catch {A} P (Q : A -> Locals -> Prop) T T'
    (m : M (W:=W) A) (h : error -> M A) :
  tri P m Q T' -> (forall e, tri T' (h e) Q T) -> tri P (try_catch m h) Q T.
Proof.
  intros Hm Hh s Hs. unfold try_catch. specialize (Hm s Hs).
  destruct (m s) as [[a|e] s1]; simpl in *; [exact Hm|apply Hh, Hm].
Qed.

Lemma tri_weaken {A} P P' (Q Q' : A -> Locals -> Prop) T T' (m : M (W:=W) A) :
  tri P m Q T ->
  (forall l, P' l -> P l) -> (forall a l, Q a l -> Q' a l) ->
  (forall l, T l -> T' l) ->
  tri P' m Q' T'.
Proof.
  intros Hm HP HQ HT s Hs. specialize (Hm s (HP _ Hs)).
  destruct (m s).1; auto.
Qed.

End Triples.

Section Card.
Context {W : Type} (env : Env W) (tweet : Tweet) (e0 : Embed).
Implicit Types (s : St W) (l : Locals).

Lemma append_empty_r (a : string) : a +:+ "" = a.
Proof.
  induction a as [|x a IH]; [reflexivity|].
  change (String x (a +:+ "") = String x a). congruence.
Qed.

Lemma append_assoc (a b c : string) : (a +:+ b) +:+ c = a +:+ (b +:+ c).
Proof.
  induction a as [|x a IH]; [reflexivity|].
  change (String x ((a +:+ b) +:+ c) = String x (a +:+ (b +:+ c))). congruence.
Qed.

Lemma same_card_refl e : same_card e e.
Proof. repeat split. exists "". rewrite append_empty_r. reflexivity. Qed.

Lemma same_card_footer_note e note :
  same_card e0 e -> same_card e0 (footer_note note e).
Proof.
  intros (H1 & H2 & H3 & H4 & H5 & H6 & H7 & H8 & notes & H9).
  repeat split; try assumption. simpl. rewrite H9, append_assoc. eauto.
Qed.

Lemma resolved_start : resolved tweet e0 (initLocals e0).
Proof. split; [apply same_card_refl|discriminate]. Qed.

Lemma resolved_video_found l fn note :
  (resolved tweet e0) l -> good_name tweet fn -> (resolved tweet e0) (video_found fn note l).
Proof.
  intros [Hc _] Hfn. split.
  - apply same_card_footer_note, Hc.
  - intros ?. exists fn. auto.
Qed.

Lemma resolved_set_videoFilename l fn :
  (resolved tweet e0) l -> hasFoundVideo l = false -> (resolved tweet e0) (set_videoFilename fn l).
Proof. intros [Hc _] Hv. split; [exact Hc|]. simpl. congruence. Qed.

Lemma resolved_note l note : (resolved tweet e0) l -> (resolved tweet e0) (set_embed (footer_note note) l).
Proof. intros [Hc Hv]. split; [apply same_card_footer_note, Hc|exact Hv]. Qed.

Lemma resolved_image l url :
  (resolved tweet e0) l -> (resolved tweet e0) (set_hasFoundImage (set_embed (setImage url) l)).
Proof. intros [Hc Hv]. split; [exact Hc|exact Hv]. Qed.

(** The triples of the operations.  A block of the detail tier that throws
    leaves the card intact; the raw tier throws only when the builder
    refuses one of the images of the raw post. *)
Lemma tri_fetchSingleTweet P id :
  tri P (fetchSingleTweet env id) (fun _ => P) P.
Proof.
  intros s Hs. destruct (fetchSingleTweet_post env id s) as [Hl _].
  rewrite Hl. destruct (fetchSingleTweet env id s).1; exact Hs.
Qed.

Lemma tri_attachVideo url fn note :
  good_name tweet fn ->
  tri (fun l => (resolved tweet e0) l /\ hasFoundVideo l = false)
      (attachVideo env url fn note)
      (fun found l => found = true /\ (resolved tweet e0) l) (resolved tweet e0).
Proof.
  intros Hfn s [HR Hv].
  destruct (attachVideo_post env url fn note s) as (evs & _ & _ & _ & Hres).
  destruct (attachVideo env url fn note s) as [[found|e] s1]; simpl in *.
  - destruct Hres as (-> & _ & ->). split; [reflexivity|].
    apply resolved_video_found; assumption.
  - destruct Hres as (_ & ->). apply resolved_set_videoFilename; assumption.
Qed.

Lemma tri_useImage url count :
  tri (resolved tweet e0) (useImage env url count) (fun _ => resolved tweet e0)
      (fun l => resolved tweet e0 l /\ image_accepted env url = false).
Proof.
  intros s Hs. destruct (image_accepted env url) eqn:Hacc.
  - rewrite (useImage_locals env url count s Hacc). simpl.
    destruct (1 <? count)%nat; [apply resolved_note|]; apply resolved_image, Hs.
  - rewrite (useImage_refused env url count s Hacc). simpl. auto.
Qed.

(** In the detail tier. *)
Lemma tri_useImage_detail url count :
  tri (resolved tweet e0) (useImage env url count) (fun _ => resolved tweet e0)
      (resolved tweet e0).
Proof.
  eapply tri_weaken; [apply tri_useImage| | |]; auto. intros l [Hl _]. exact Hl.
Qed.

Lemma refused_in_raw url :
  In url (raw_image_urls tweet) -> image_accepted env url = false ->
  raw_images_accepted env tweet = false.
Proof.
  intros Hin Hacc. unfold raw_images_accepted.
  destruct (forallb (image_accepted env) (raw_image_urls tweet)) eqn:Hall;
    [|reflexivity].
  rewrite forallb_forall in Hall. rewrite (Hall url Hin) in Hacc. discriminate.
Qed.

(** In the raw tier. *)
Lemma tri_useImage_raw url count :
  In url (raw_image_urls tweet) ->
  tri (resolved tweet e0) (useImage env url count) (fun _ => resolved tweet e0)
      (refused_raw env tweet e0).
Proof.
  intros Hin. eapply tri_weaken; [apply tri_useImage| | |]; auto.
  intros l [Hl Hacc]. split; [exact Hl|]. apply (refused_in_raw url); assumption.
Qed.

Lemma tri_skip T :
  tri (W:=W) (resolved tweet e0) (ret tt) (fun _ => (resolved tweet e0)) T.
Proof. apply tri_ret. auto. Qed.

(** A block that starts by reading the locals. *)
Lemma tri_guard {B} (k : Locals -> M (W:=W) B) (Q : B -> Locals -> Prop) T :
  (forall l0, (resolved tweet e0) l0 -> tri (fun l => l = l0) (k l0) Q T) ->
  tri (resolved tweet e0) (bind getLoc k) Q T.
Proof. apply tri_getLoc. Qed.

Lemma tri_at {A} l0 (P : Locals -> Prop) (m : M (W:=W) A) Q T :
  P l0 -> tri P m Q T -> tri (fun l => l = l0) m Q T.
Proof. intros H0 Hm. eapply tri_weaken; [exact Hm| | |]; auto. intros l ->. exact H0. Qed.

Lemma good_video : good_name tweet ("video_" +:+ tw_id tweet +:+ ".mp4").
Proof. left. reflexivity. Qed.

Lemma good_parent : good_name tweet ("video_parent_" +:+ tw_id tweet +:+ ".mp4").
Proof. right. reflexivity. Qed.

Lemma tri_attach_unit l0 url fn note :
  (resolved tweet e0) l0 -> hasFoundVideo l0 = false -> good_name tweet fn ->
  tri (fun l => l = l0) (attachVideo env url fn note;; ret tt) (fun _ => (resolved tweet e0)) (resolved tweet e0).
Proof.
  intros HR Hv Hfn. eapply tri_bind.
  - apply (tri_at l0 (fun l => resolved tweet e0 l /\ hasFoundVideo l = false));
      [exact (conj HR Hv)|apply tri_attachVideo, Hfn].
  - intros found. apply tri_ret. intros l [_ Hl]. exact Hl.
Qed.

Ltac skip_at l0 HR := apply (tri_at l0 (resolved tweet e0)); [exact HR|apply tri_skip].

Lemma tri_detail_video d :
  tri (resolved tweet e0) (detail_video env tweet d) (fun _ => (resolved tweet e0)) (resolved tweet e0).
Proof.
  unfold detail_video. apply tri_guard. intros l0 HR.
  destruct (d_video d) as [video|]; [|skip_at l0 HR].
  destruct (hasFoundVideo l0) eqn:Hv; simpl; [skip_at l0 HR|].
  destruct (nonempty (vid_variants video)); [|skip_at l0 HR].
  destruct (List.find _ _) as [mp4Variant|]; [|skip_at l0 HR].
  apply tri_attach_unit; [exact HR|exact Hv|apply good_video].
Qed.

Lemma tri_detail_parent_video d :
  tri (resolved tweet e0) (detail_parent_video env tweet d) (fun _ => (resolved tweet e0)) (resolved tweet e0).
Proof.
  unfold detail_parent_video. apply tri_guard. intros l0 HR.
  destruct (d_parent d) as [parent|]; [|skip_at l0 HR].
  destruct (par_video parent) as [video|]; [|skip_at l0 HR].
  destruct (hasFoundVideo l0) eqn:Hv; simpl; [skip_at l0 HR|].
  destruct (nonempty (vid_variants video)); [|skip_at l0 HR].
  destruct (List.find _ _) as [mp4Variant|]; [|skip_at l0 HR].
  apply tri_attach_unit; [exact HR|exact Hv|apply good_parent].
Qed.

Lemma tri_mediaDetails_video_loop medias :
  tri (fun l => (resolved tweet e0) l /\ hasFoundVideo l = false)
      (mediaDetails_video_loop env tweet medias) (fun _ => (resolved tweet e0)) (resolved tweet e0).
Proof.
  induction medias as [|media rest IH]; simpl.
  - apply tri_ret. intros l [Hl _]. exact Hl.
  - destruct (if is_video_media media then media_variants media else None)
      as [variants|]; [|exact IH].
    destruct (mp4Variants variants) as [|best others]; [exact IH|].
    eapply tri_bind; [apply tri_attachVideo, good_video|].
    intros [|].
    + apply tri_ret. intros l [_ Hl]. exact Hl.
    + intros s [Hf _]. discriminate Hf.
Qed.

Lemma tri_detail_mediaDetails_video d :
  tri (resolved tweet e0) (detail_mediaDetails_video env tweet d) (fun _ => (resolved tweet e0)) (resolved tweet e0).
Proof.
  unfold detail_mediaDetails_video. apply tri_guard. intros l0 HR.
  destruct (hasFoundVideo l0) eqn:Hv; simpl; [skip_at l0 HR|].
  destruct (nonempty (d_mediaDetails d)); [|skip_at l0 HR].
  apply (tri_at l0 (fun l => resolved tweet e0 l /\ hasFoundVideo l = false));
    [exact (conj HR Hv)|apply tri_mediaDetails_video_loop].
Qed.

Lemma tri_detail_photos d :
  tri (resolved tweet e0) (detail_photos env d) (fun _ => (resolved tweet e0)) (resolved tweet e0).
Proof.
  unfold detail_photos. apply tri_guard. intros l0 HR.
  destruct (negb (hasFoundVideo l0)); [|skip_at l0 HR].
  destruct (nonempty (d_photos d)).
  - cbv zeta. destruct (List.find _ _) as [photo|];
      [apply (tri_at l0 (resolved tweet e0)), tri_useImage_detail; exact HR
      |skip_at l0 HR].
  - destruct (nonempty (d_mediaDetails d)); [|skip_at l0 HR].
    cbv zeta. destruct (List.find _ _) as [media|];
      [apply (tri_at l0 (resolved tweet e0)), tri_useImage_detail; exact HR
      |skip_at l0 HR].
Qed.

Lemma tri_detail_block :
  tri (resolved tweet e0) (detail_block env tweet) (fun _ => (resolved tweet e0)) (resolved tweet e0).
Proof.
  unfold detail_block. eapply tri_bind; [apply tri_fetchSingleTweet|].
  intros [d|]; [|apply tri_skip].
  eapply tri_bind; [apply tri_detail_video|]. intros ?.
  eapply tri_bind; [apply tri_detail_parent_video|]. intros ?.
  eapply tri_bind; [apply tri_detail_mediaDetails_video|]. intros ?.
  apply tri_detail_photos.
Qed.

Lemma tri_raw_extended_video medias T :
  tri (fun l => (resolved tweet e0) l /\ hasFoundVideo l = false)
      (raw_extended_video env tweet medias) (fun _ => (resolved tweet e0)) T.
Proof.
  assert (Hskip : forall T', tri (W:=W) (fun l => (resolved tweet e0) l /\ hasFoundVideo l = false)
                    (ret tt) (fun _ => (resolved tweet e0)) T').
  { intros T'. apply tri_ret. intros l [Hl _]. exact Hl. }
  unfold raw_extended_video.
  destruct (List.find _ _) as [videoMedia|]; [|apply Hskip].
  destruct (media_variants videoMedia) as [variants|]; [|apply Hskip].
  eapply tri_try_catch with (T' := (resolved tweet e0)); [|intros e; apply tri_skip].
  destruct (mp4Variants variants) as [|best others]; [apply Hskip|].
  eapply tri_bind; [apply tri_attachVideo, good_video|].
  intros found. apply tri_ret. intros l [_ Hl]. exact Hl.
Qed.

Lemma tri_raw_extended_image medias :
  In (first_media_url medias) (raw_image_urls tweet) ->
  tri (resolved tweet e0) (raw_extended_image env medias) (fun _ => (resolved tweet e0))
      (refused_raw env tweet e0).
Proof.
  intros Hin. unfold raw_extended_image. apply tri_guard. intros l0 HR.
  destruct (negb (hasFoundVideo l0) && negb (hasFoundImage l0)); [|skip_at l0 HR].
  cbv zeta. destruct (truthy _);
    [apply (tri_at l0 (resolved tweet e0)), tri_useImage_raw; assumption
    |skip_at l0 HR].
Qed.

Lemma tri_raw_extended_entities :
  tri (fun l => (resolved tweet e0) l /\ hasFoundVideo l = false)
      (raw_extended_entities env tweet) (fun _ => (resolved tweet e0)) (refused_raw env tweet e0).
Proof.
  unfold raw_extended_entities.
  destruct (extended_medias tweet) as [|media medias] eqn:Hext.
  - apply tri_ret. intros l [Hl _]. exact Hl.
  - eapply tri_bind; [apply tri_raw_extended_video|]. intros ?.
    apply tri_raw_extended_image. unfold raw_image_urls. rewrite Hext.
    left. reflexivity.
Qed.

Lemma tri_raw_entities_urls entities :
  tw_entities tweet = Some entities ->
  tri (resolved tweet e0) (raw_entities_urls env entities) (fun _ => (resolved tweet e0))
      (refused_raw env tweet e0).
Proof.
  intros Hent. unfold raw_entities_urls. apply tri_guard. intros l0 HR.
  destruct (negb (hasFoundImage l0) && nonempty (ent_urls entities)); [|skip_at l0 HR].
  cbv zeta. apply (tri_at l0 (resolved tweet e0)); [exact HR|].
  eapply tri_bind with (Mid := fun _ => (resolved tweet e0)).
  - destruct (List.filter _ _) as [|url rest] eqn:Hf; [apply tri_skip|].
    apply tri_useImage_raw. unfold raw_image_urls. rewrite Hent. cbv zeta.
    rewrite Hf. right. right. left. reflexivity.
  - intros ?. apply tri_guard. intros l1 HR1.
    destruct (negb (hasFoundImage l1)); [|skip_at l1 HR1].
    destruct (List.map _ _) as [|first others] eqn:Hm; [skip_at l1 HR1|].
    apply (tri_at l1 (resolved tweet e0)); [exact HR1|].
    apply tri_useImage_raw. unfold raw_image_urls. rewrite Hent. cbv zeta.
    rewrite Hm. right. right. right. left. reflexivity.
Qed.

Lemma tri_raw_entities :
  tri (resolved tweet e0) (raw_entities env tweet) (fun _ => (resolved tweet e0))
      (refused_raw env tweet e0).
Proof.
  unfold raw_entities. apply tri_guard. intros l0 HR.
  destruct (tw_entities tweet) as [entities|] eqn:Hent; [|skip_at l0 HR].
  destruct (negb (hasFoundImage l0) && negb (hasFoundVideo l0)); [|skip_at l0 HR].
  apply (tri_at l0 (resolved tweet e0)); [exact HR|].
  eapply tri_bind with (Mid := fun _ => (resolved tweet e0));
    [|intros ?; apply tri_raw_entities_urls; exact Hent].
  destruct (nonempty (ent_media entities)); [|apply tri_skip].
  cbv zeta. destruct (truthy _); [|apply tri_skip].
  apply tri_useImage_raw. unfold raw_image_urls. rewrite Hent.
  right. left. reflexivity.
Qed.

Lemma tri_raw_block :
  tri (resolved tweet e0) (raw_block env tweet) (fun _ => (resolved tweet e0)) (refused_raw env tweet e0).
Proof.
  unfold raw_block. apply tri_guard. intros l0 HR.
  destruct (hasFoundImage l0); simpl; [skip_at l0 HR|].
  destruct (hasFoundVideo l0) eqn:Hv; simpl; [skip_at l0 HR|].
  apply (tri_at l0 (fun l => resolved tweet e0 l /\ hasFoundVideo l = false));
    [exact (conj HR Hv)|].
  eapply tri_bind; [apply tri_raw_extended_entities|]. intros ?.
  apply tri_raw_entities.
Qed.

Lemma tri_attachments_note T :
  tri (resolved tweet e0) (attachments_note (W:=W) tweet) (fun _ => (resolved tweet e0)) T.
Proof.
  unfold attachments_note. apply tri_guard. intros l0 HR.
  destruct (tw_attachments tweet) as [a|]; [|skip_at l0 HR].
  destruct (_ && _); [|skip_at l0 HR].
  apply (tri_at l0 (resolved tweet e0)); [exact HR|].
  apply tri_modifyLoc. intros l Hl. apply resolved_note, Hl.
Qed.

(** Media resolution keeps the card, and throws only when the builder
    refuses an image of the raw post. *)
Lemma tri_resolveMedia :
  tri (resolved tweet e0) (resolveMedia env tweet) (fun _ => (resolved tweet e0))
      (refused_raw env tweet e0).
Proof.
  unfold resolveMedia.
  eapply tri_bind with (Mid := fun _ => (resolved tweet e0)).
  - eapply tri_try_catch; [apply tri_detail_block|]. intros e. apply tri_skip.
  - intros ?. eapply tri_bind; [apply tri_raw_block|]. intros ?.
    apply tri_attachments_note.
Qed.

End Card.

(** ** Triples on the state: one download at most *)

Section StateTriples.
Context {W : Type}.
Implicit Types (P T : St W -> Prop).

Lemma tris_ret {A} P (Q : A -> St W -> Prop) T (a : A) :
  (forall s, P s -> Q a s) -> tris P (ret a) Q T.
Proof. intros H s Hs. simpl. apply H, Hs. Qed.

Lemma tris_bind {A B} P (Mid : A -> St W -> Prop) (Q : B -> St W -> Prop) T
    (m : M (W:=W) A) (k : A -> M B) :
  tris P m Mid T -> (forall a, tris (Mid a) (k a) Q T) -> tris P (bind m k) Q T.
Proof.
  intros Hm Hk s Hs. unfold bind. specialize (Hm s Hs).
  destruct (m s) as [[a|e] s1]; [apply Hk, Hm|exact Hm].
Qed.

Lemma tris_getLoc {B} P (Q : B -> St W -> Prop) T (k : Locals -> M (W:=W) B) :
  (forall l0, tris (fun s => P s /\ loc s = l0) (k l0) Q T) ->
  tris P (bind getLoc k) Q T.
Proof. intros H s Hs. unfold bind, getLoc. simpl. apply (H (loc s)). auto. Qed.

Lemma tris_modifyLoc P (Q : unit -> St W -> Prop) T f :
  (forall s, P s -> Q tt (set_loc (f (loc s)) s)) -> tris P (modifyLoc f) Q T.
Proof. intros H s Hs. simpl. apply H, Hs. Qed.

Lemma tris_try_catch {A} P (Q : A -> St W -> Prop) T T'
    (m : M (W:=W) A) (h : error -> M A) :
  tris P m Q T' -> (forall e, tris T' (h e) Q T) -> tris P (try_catch m h) Q T.
Proof.
  intros Hm Hh s Hs. unfold try_catch. specialize (Hm s Hs).
  destruct (m s) as [[a|e] s1]; [exact Hm|apply Hh, Hm].
Qed.

Lemma tris_weaken {A} P P' (Q Q' : A -> St W -> Prop) T T' (m : M (W:=W) A) :
  tris P m Q T ->
  (forall s, P' s -> P s) -> (forall a s, Q a s -> Q' a s) ->
  (forall s, T s -> T' s) ->
  tris P' m Q' T'.
Proof.
  intros Hm HP HQ HT s Hs. specialize (Hm s (HP _ Hs)).
  destruct (m s) as [[a|e] s1]; auto.
Qed.

End StateTriples.

Section Downloads.
Context {W : Type} (env : Env W) (s0 : St W).
Implicit Types (s : St W) (tweet : Tweet).

(** A download that returns has saved the file as its last event, and has
    saved nothing before; a download that throws has saved nothing. *)
Lemma downloadMedia_last url filename s :
  loc (downloadMedia env url filename s).2 = loc s /\
  match (downloadMedia env url filename s).1 with
  | Ok path =>
      exists pre,
        trace (downloadMedia env url filename s).2
        = trace s ++ pre ++ [EvMediaSaved path] /\ ~ saved pre
  | Throw _ =>
      exists evs,
        trace (downloadMedia env url filename s).2 = trace s ++ evs /\ ~ saved evs
  end.
Proof.
  set (Inv := fun s' : St W =>
    loc s' = loc s /\ exists evs, trace s' = trace s ++ evs /\ ~ saved evs).
  set (Good := fun (path : string) (s' : St W) =>
    loc s' = loc s /\
    exists pre, trace s' = trace s ++ pre ++ [EvMediaSaved path] /\ ~ saved pre).
  assert (Hstep : forall s' ev, quiet_event ev -> Inv s' -> Inv (emit ev s').2).
  { intros s' ev Hev (Hl & evs & Htr & Hns). split; [exact Hl|].
    exists (evs ++ [ev]). simpl. rewrite Htr, app_assoc. split; [reflexivity|].
    apply not_saved_app; [exact Hns|].
    apply quiet_not_saved. constructor; [exact Hev|constructor]. }
  assert (Hattempt : forall s', Inv s' ->
    ends Inv Good
      ((emit (EvMediaGet url);;
        call (axios_get_media env url);;
        writeCacheFile env (path_join CACHE_DIR filename);;
        emit (EvMediaSaved (path_join CACHE_DIR filename));;
        ret (path_join CACHE_DIR filename)) s')).
  { intros s' (Hl & evs & Htr & Hns).
    assert (Hns1 : ~ saved (evs ++ [EvMediaGet url])).
    { apply not_saved_app; [exact Hns|]. intros (p & [Hp|[]]). discriminate. }
    assert (Hinv : Inv (emit (EvMediaGet url) s').2).
    { split; [exact Hl|]. exists (evs ++ [EvMediaGet url]). simpl.
      rewrite Htr, app_assoc. split; [reflexivity|exact Hns1]. }
    unfold bind at 1. simpl. unfold bind at 1, call at 1. simpl.
    destruct (axios_get_media env url (world s')) as [[[]|e] w]; simpl;
      [|exact Hinv].
    unfold bind at 1, writeCacheFile, call at 1. simpl.
    destruct (fs_writeFileSync env _ w) as [[|e lf] w']; simpl; [|exact Hinv].
    split; [exact Hl|]. exists (evs ++ [EvMediaGet url]).
    rewrite Htr, <- !app_assoc. split; [reflexivity|exact Hns1]. }
  assert (H : ends Inv Good (downloadMedia env url filename s)).
  { unfold downloadMedia.
    apply (withRetry_ends _ _ _ Inv Good) with (Pre := Inv).
    - exact Hattempt.
    - intros s' a. apply Hstep. exact I.
    - intros s'. apply Hstep. exact I.
    - unfold MAX_RETRIES. lia.
    - exact Hattempt.
    - split; [reflexivity|]. exists []. rewrite app_nil_r.
      split; [reflexivity|]. intros (p & []). }
  unfold ends in H.
  destruct (downloadMedia env url filename s) as [[path|e] s1]; simpl.
  - destruct H as (Hl & pre & Htr & Hns). split; [exact Hl|]. eauto.
  - destruct H as (Hl & evs & Htr & Hns). split; [exact Hl|]. eauto.
Qed.

End Downloads.

Section OneDownload.
Context {W : Type} (env : Env W) (s0 : St W) (tweet : Tweet).
Implicit Types (s : St W).

Lemma attachVideo_download url fn note s :
  let s1 := set_loc (set_videoFilename fn (loc s)) s in
  match (downloadMedia env url fn s1).1 with
  | Ok path =>
      (attachVideo env url fn note s).1 = Ok true /\
      trace (attachVideo env url fn note s).2 = trace (downloadMedia env url fn s1).2 /\
      hasFoundVideo (loc (attachVideo env url fn note s).2) = true
  | Throw e =>
      (attachVideo env url fn note s).1 = Throw e /\
      trace (attachVideo env url fn note s).2 = trace (downloadMedia env url fn s1).2 /\
      hasFoundVideo (loc (attachVideo env url fn note s).2) = hasFoundVideo (loc s)
  end.
Proof.
  intros s1.
  assert (Heq : attachVideo env url fn note s
                = match downloadMedia env url fn s1 with
                  | (Ok path, s2) =>
                      if truthy (Some path)
                      then (Ok true,
                            set_loc (set_embed (footer_note note)
                                       (set_hasFoundVideo (set_videoPath path (loc s2)))) s2)
                      else (Ok false, set_loc (set_videoPath path (loc s2)) s2)
                  | (Throw e, s2) => (Throw e, s2)
                  end).
  { unfold attachVideo, bind, modifyLoc. simpl. fold s1.
    destruct (downloadMedia env url fn s1) as [[path|e] s2]; simpl; [|reflexivity].
    destruct (negb (path =? "")%string); reflexivity. }
  destruct (downloadMedia_post env url fn s1) as (Hl & evs & _ & _ & _ & Hres).
  rewrite Heq.
  destruct (downloadMedia env url fn s1) as [[path|e] s2]; simpl in *.
  - destruct Hres as [-> _]. simpl. split; [reflexivity|]. split; reflexivity.
  - split; [reflexivity|]. split; [reflexivity|]. rewrite Hl. reflexivity.
Qed.

Lemma tris_attachVideo url fn note :
  tris (unfound s0) (attachVideo env url fn note)
       (fun found s => found = true /\ download_is_last s0 s) (unfound s0).
Proof.
  intros s ((evs & Htr & HK) & Hv). rewrite Hv in HK.
  pose proof (attachVideo_download url fn note s) as Ha. cbv zeta in Ha.
  destruct (downloadMedia_last env url fn (set_loc (set_videoFilename fn (loc s)) s))
    as (_ & Hd).
  destruct (downloadMedia env url fn _) as [[path|e] s2]; simpl in Ha, Hd.
  - destruct Ha as (Hok & Htr' & Hv').
    destruct (attachVideo env url fn note s) as [r s3]. simpl in *. subst r.
    split; [reflexivity|]. destruct Hd as (pre & Htr2 & Hns).
    exists (evs ++ pre ++ [EvMediaSaved path]). rewrite Htr', Htr2, Htr. simpl.
    rewrite <- !app_assoc. split; [reflexivity|]. rewrite Hv'.
    exists (evs ++ pre), path. rewrite <- app_assoc. split; [reflexivity|].
    apply not_saved_app; assumption.
  - destruct Ha as (Hthrow & Htr' & Hv').
    destruct (attachVideo env url fn note s) as [r s3]. simpl in *. subst r.
    destruct Hd as (evs1 & Htr2 & Hns).
    assert (Hv3 : hasFoundVideo (loc s3) = false) by congruence.
    split; [|exact Hv3].
    exists (evs ++ evs1). rewrite Htr', Htr2, Htr. simpl.
    rewrite <- !app_assoc. split; [reflexivity|]. rewrite Hv3.
    apply not_saved_app; assumption.
Qed.

(** Steps that leave the trace and [hasFoundVideo] alone. *)
Lemma download_is_last_loc s l :
  download_is_last s0 s -> hasFoundVideo l = hasFoundVideo (loc s) ->
  download_is_last s0 (set_loc l s).
Proof. intros (evs & Htr & HK) Hv. exists evs. simpl. rewrite Hv. auto. Qed.

Lemma tris_useImage url count :
  tris (unfound s0) (useImage env url count) (fun _ => (unfound s0)) (unfound s0).
Proof.
  intros s [Hs Hv]. destruct (image_accepted env url) eqn:Hacc.
  - destruct (useImage_run env url count s Hacc) as (l' & -> & Hv' & _).
    split; [apply download_is_last_loc; assumption|]. simpl. congruence.
  - rewrite (useImage_refused env url count s Hacc). split; assumption.
Qed.

Lemma tris_skip (P : St W -> Prop) T :
  (forall s, P s -> download_is_last s0 s) ->
  tris P (ret tt) (fun _ => download_is_last s0) T.
Proof. intros H. apply tris_ret. exact H. Qed.

Lemma tris_unfound {A} l0 (m : M (W:=W) A) Q T :
  hasFoundVideo l0 = false ->
  tris (unfound s0) m Q T ->
  tris (fun s => download_is_last s0 s /\ loc s = l0) m Q T.
Proof.
  intros Hv Hm. eapply tris_weaken; [exact Hm| | |]; auto.
  intros s [H Hl]. split; [exact H|rewrite Hl; exact Hv].
Qed.

Lemma tris_attach_unit l0 url fn note :
  hasFoundVideo l0 = false ->
  tris (fun s => download_is_last s0 s /\ loc s = l0)
       (attachVideo env url fn note;; ret tt)
       (fun _ => download_is_last s0) (unfound s0).
Proof.
  intros Hv. eapply tris_bind.
  - apply (tris_unfound l0 _ _ _ Hv), tris_attachVideo.
  - intros found. apply tris_ret. intros s [_ Hs]. exact Hs.
Qed.

Ltac skip_here := apply tris_skip; intros ? [? _]; assumption.

Lemma tris_detail_video d :
  tris (download_is_last s0) (detail_video env tweet d)
       (fun _ => download_is_last s0) (unfound s0).
Proof.
  unfold detail_video. apply tris_getLoc. intros l0.
  destruct (d_video d) as [video|]; [|skip_here].
  destruct (hasFoundVideo l0) eqn:Hv; simpl; [skip_here|].
  destruct (nonempty (vid_variants video)); [|skip_here].
  destruct (List.find _ _) as [mp4Variant|]; [|skip_here].
  apply tris_attach_unit, Hv.
Qed.

Lemma tris_detail_parent_video d :
  tris (download_is_last s0) (detail_parent_video env tweet d)
       (fun _ => download_is_last s0) (unfound s0).
Proof.
  unfold detail_parent_video. apply tris_getLoc. intros l0.
  destruct (d_parent d) as [parent|]; [|skip_here].
  destruct (par_video parent) as [video|]; [|skip_here].
  destruct (hasFoundVideo l0) eqn:Hv; simpl; [skip_here|].
  destruct (nonempty (vid_variants video)); [|skip_here].
  destruct (List.find _ _) as [mp4Variant|]; [|skip_here].
  apply tris_attach_unit, Hv.
Qed.

Lemma tris_mediaDetails_video_loop medias :
  tris (unfound s0) (mediaDetails_video_loop env tweet medias)
       (fun _ => download_is_last s0) (unfound s0).
Proof.
  induction medias as [|media rest IH]; simpl.
  - apply tris_ret. intros s [Hs _]. exact Hs.
  - destruct (if is_video_media media then media_variants media else None)
      as [variants|]; [|exact IH].
    destruct (mp4Variants variants) as [|best others]; [exact IH|].
    eapply tris_bind; [apply tris_attachVideo|].
    intros [|].
    + apply tris_ret. intros s [_ Hs]. exact Hs.
    + intros s [Hf _]. discriminate Hf.
Qed.

Lemma tris_detail_mediaDetails_video d :
  tris (download_is_last s0) (detail_mediaDetails_video env tweet d)
       (fun _ => download_is_last s0) (unfound s0).
Proof.
  unfold detail_mediaDetails_video. apply tris_getLoc. intros l0.
  destruct (hasFoundVideo l0) eqn:Hv; simpl; [skip_here|].
  destruct (nonempty (d_mediaDetails d)); [|skip_here].
  apply (tris_unfound l0 _ _ _ Hv), tris_mediaDetails_video_loop.
Qed.

(** [useImage] where the locals read [l0], with no video recorded. *)
Lemma tris_useImage_here l0 url count :
  hasFoundVideo l0 = false ->
  tris (fun s => download_is_last s0 s /\ loc s = l0) (useImage env url count)
       (fun _ => download_is_last s0) (unfound s0).
Proof.
  intros Hv. apply (tris_unfound l0 _ _ _ Hv).
  eapply tris_weaken; [apply tris_useImage| | |]; auto. intros a s [H _]. exact H.
Qed.

Lemma tris_detail_photos d :
  tris (download_is_last s0) (detail_photos env d)
       (fun _ => download_is_last s0) (unfound s0).
Proof.
  unfold detail_photos. apply tris_getLoc. intros l0.
  destruct (hasFoundVideo l0) eqn:Hv; simpl; [skip_here|].
  destruct (nonempty (d_photos d)).
  - cbv zeta. destruct (List.find _ _) as [photo|];
      [apply tris_useImage_here, Hv|skip_here].
  - destruct (nonempty (d_mediaDetails d)); [|skip_here].
    cbv zeta. destruct (List.find _ _) as [media|];
      [apply tris_useImage_here, Hv|skip_here].
Qed.

Lemma tris_detail_block :
  tris (unfound s0) (detail_block env tweet) (fun _ => download_is_last s0) (unfound s0).
Proof.
  unfold detail_block.
  eapply tris_bind with (Mid := fun _ => download_is_last s0).
  - intros s ((evs & Htr & HK) & Hv). rewrite Hv in HK.
    destruct (fetchSingleTweet_post env (tw_id tweet) s) as (Hl & q & Htrq & Hq).
    assert (HK' : (unfound s0) (fetchSingleTweet env (tw_id tweet) s).2).
    { split; [|rewrite Hl; exact Hv].
      exists (evs ++ q). rewrite Htrq, Htr, app_assoc. split; [reflexivity|].
      rewrite Hl, Hv. apply not_saved_app; [exact HK|apply quiet_not_saved, Hq]. }
    destruct (fetchSingleTweet env (tw_id tweet) s) as [[r|e] s1];
      [exact (proj1 HK')|exact HK'].
  - intros [d|]; [|apply tris_ret; auto].
    eapply tris_bind; [apply tris_detail_video|]. intros ?.
    eapply tris_bind; [apply tris_detail_parent_video|]. intros ?.
    eapply tris_bind; [apply tris_detail_mediaDetails_video|]. intros ?.
    apply tris_detail_photos.
Qed.

Lemma tris_raw_extended_video medias T :
  tris (unfound s0) (raw_extended_video env tweet medias)
       (fun _ => download_is_last s0) T.
Proof.
  assert (Hskip : forall T', tris (unfound s0) (ret tt) (fun _ => download_is_last s0) T').
  { intros T'. apply tris_ret. intros s [Hs _]. exact Hs. }
  unfold raw_extended_video.
  destruct (List.find _ _) as [videoMedia|]; [|apply Hskip].
  destruct (media_variants videoMedia) as [variants|]; [|apply Hskip].
  eapply tris_try_catch with (T' := (unfound s0));
    [|intros e; apply tris_ret; intros s [Hs _]; exact Hs].
  destruct (mp4Variants variants) as [|best others]; [apply Hskip|].
  eapply tris_bind; [apply tris_attachVideo|].
  intros found. apply tris_ret. intros s [_ Hs]. exact Hs.
Qed.

Lemma tris_raw_extended_image medias :
  tris (download_is_last s0) (raw_extended_image env medias)
       (fun _ => download_is_last s0) (unfound s0).
Proof.
  unfold raw_extended_image. apply tris_getLoc. intros l0.
  destruct (hasFoundVideo l0) eqn:Hv; simpl; [skip_here|].
  destruct (negb (hasFoundImage l0)); [|skip_here].
  cbv zeta. destruct (truthy _); [apply tris_useImage_here, Hv|skip_here].
Qed.

Lemma tris_raw_extended_entities :
  tris (unfound s0) (raw_extended_entities env tweet)
       (fun _ => download_is_last s0) (unfound s0).
Proof.
  unfold raw_extended_entities.
  destruct (extended_medias tweet) as [|media medias].
  - apply tris_ret. intros s [Hs _]. exact Hs.
  - eapply tris_bind; [apply tris_raw_extended_video|]. intros ?.
    apply tris_raw_extended_image.
Qed.

Lemma tris_raw_entities_urls entities :
  tris (unfound s0) (raw_entities_urls env entities) (fun _ => (unfound s0)) (unfound s0).
Proof.
  unfold raw_entities_urls. intros s Hs. unfold bind at 1, getLoc.
  destruct (negb (hasFoundImage (loc s)) && nonempty (ent_urls entities));
    [|exact Hs].
  cbv zeta. revert s Hs. change (tris (unfound s0)
    ((match List.filter (fun url => nonempty (u_images url))
               (default [] (ent_urls entities)) with
      | [] => ret tt
      | _ :: _ =>
          useImage env
            (first_image_url
               (List.filter (fun url => nonempty (u_images url))
                  (default [] (ent_urls entities))))
            (length
               (List.filter (fun url => nonempty (u_images url))
                  (default [] (ent_urls entities))))
      end);;
     l <- getLoc;;
     if negb (hasFoundImage l)
     then
       match List.map u_expanded_url
               (List.filter is_photo_link (default [] (ent_urls entities))) with
       | [] => ret tt
       | first :: _ =>
           useImage env first
             (length
                (List.map u_expanded_url
                   (List.filter is_photo_link (default [] (ent_urls entities)))))
       end
     else ret tt)
    (fun _ => (unfound s0)) (unfound s0)).
  eapply tris_bind with (Mid := fun _ => (unfound s0)).
  - destruct (List.filter _ _); [apply tris_ret; auto|apply tris_useImage].
  - intros ?. apply tris_getLoc. intros l1.
    destruct (negb (hasFoundImage l1));
      [|apply tris_ret; intros s [Hs _]; exact Hs].
    destruct (List.map _ _);
      [apply tris_ret; intros s [Hs _]; exact Hs|].
    eapply tris_weaken; [apply tris_useImage| | |]; auto. intros s [Hs _]. exact Hs.
Qed.

Lemma tris_raw_entities :
  tris (download_is_last s0) (raw_entities env tweet)
       (fun _ => download_is_last s0) (unfound s0).
Proof.
  unfold raw_entities. apply tris_getLoc. intros l0.
  destruct (tw_entities tweet) as [entities|]; [|skip_here].
  destruct (hasFoundImage l0); simpl; [skip_here|].
  destruct (hasFoundVideo l0) eqn:Hv; simpl; [skip_here|].
  apply (tris_unfound l0 _ _ _ Hv).
  eapply tris_bind with (Mid := fun _ => (unfound s0)).
  - destruct (nonempty (ent_media entities)); [|apply tris_ret; auto].
    cbv zeta. destruct (truthy _); [apply tris_useImage|apply tris_ret; auto].
  - intros ?. eapply tris_weaken; [apply tris_raw_entities_urls| | |]; auto.
    intros b s [Hs _]. exact Hs.
Qed.

Lemma tris_raw_block :
  tris (download_is_last s0) (raw_block env tweet)
       (fun _ => download_is_last s0) (unfound s0).
Proof.
  unfold raw_block. apply tris_getLoc. intros l0.
  destruct (hasFoundImage l0); simpl; [skip_here|].
  destruct (hasFoundVideo l0) eqn:Hv; simpl; [skip_here|].
  apply (tris_unfound l0 _ _ _ Hv).
  eapply tris_bind; [apply tris_raw_extended_entities|]. intros ?.
  apply tris_raw_entities.
Qed.

Lemma attachments_note_run s :
  exists l',
    attachments_note (W:=W) tweet s = (Ok tt, set_loc l' s) /\
    e_image (embed l') = e_image (embed (loc s)) /\
    hasFoundVideo l' = hasFoundVideo (loc s) /\
    videoPath l' = videoPath (loc s).
Proof.
  unfold attachments_note, bind, getLoc, modifyLoc. simpl.
  assert (Hskip : exists l', (Ok tt, s) = (Ok tt, set_loc l' s) /\
            e_image (embed l') = e_image (embed (loc s)) /\
            hasFoundVideo l' = hasFoundVideo (loc s) /\
            videoPath l' = videoPath (loc s)).
  { exists (loc s). split; [destruct s; reflexivity|]. auto. }
  destruct (tw_attachments tweet) as [a|]; [|exact Hskip].
  destruct (_ && _); [|exact Hskip].
  eexists. split; [reflexivity|]. simpl. auto.
Qed.

Lemma tris_attachments_note T :
  tris (download_is_last s0) (attachments_note (W:=W) tweet)
       (fun _ => download_is_last s0) T.
Proof.
  intros s Hs. destruct (attachments_note_run s) as (l' & -> & _ & Hv & _).
  apply download_is_last_loc; assumption.
Qed.

(** Media resolution started with no video recorded: when it returns, a
    download that went through is its last event; when it throws, none
    went through. *)
Lemma tris_resolveMedia :
  tris (unfound s0) (resolveMedia env tweet) (fun _ => download_is_last s0) (unfound s0).
Proof.
  unfold resolveMedia.
  eapply tris_bind with (Mid := fun _ => download_is_last s0).
  - eapply tris_try_catch; [apply tris_detail_block|].
    intros e. apply tris_ret. intros s [Hs _]. exact Hs.
  - intros ?. eapply tris_bind; [apply tris_raw_block|]. intros ?.
    apply tris_attachments_note.
Qed.

End OneDownload.

(** ** What handling a post causes *)

Section Message.
Context {W : Type} (env : Env W).
Implicit Types (s : St W) (tweet : Tweet).

(** What [publish] sends, exactly. *)
Lemma publish_shape tweet s :
  exists ok rest,
    trace (publish env tweet s).2
    = trace s ++ EvSendEmbed tweet (embed_to_send tweet (loc s)) ok :: rest /\
    file_part tweet ok (loc s) rest.
Proof.
  unfold publish, embed_to_send, file_part.
  set (note := if truthy (tw_in_reply_to_user_id tweet)
               then modifyLoc (W:=W) (set_embed (addFields "Replying to a tweet"
                                  "This is a reply to another user's tweet."))
               else ret tt).
  assert (Hnote : exists l1,
    note s = (Ok tt, set_loc l1 s) /\
    embed l1 = (if truthy (tw_in_reply_to_user_id tweet)
                then addFields "Replying to a tweet"
                       "This is a reply to another user's tweet." (embed (loc s))
                else embed (loc s)) /\
    hasFoundVideo l1 = hasFoundVideo (loc s) /\
    videoPath l1 = videoPath (loc s) /\
    videoFilename l1 = videoFilename (loc s)).
  { subst note. destruct (truthy (tw_in_reply_to_user_id tweet)).
    - eexists. split; [reflexivity|]. simpl. auto.
    - exists (loc s). split; [destruct s; reflexivity|]. auto. }
  destruct Hnote as (l1 & Hnote & Hem & Hv1 & Hp1 & Hn1).
  rewrite (bind_ok note _ s tt ltac:(rewrite Hnote; reflexivity)), Hnote.
  rewrite <- Hv1, <- Hp1, <- Hn1, <- Hem. simpl.
  unfold bind at 1, getLoc. simpl. unfold bind at 1, channelSend at 1. simpl.
  destruct (channel_send env (PEmbeds (embed l1)) (world s)) as [[[]|e] w]; simpl.
  2:{ exists false, []. split; [reflexivity|]. left. reflexivity. }
  destruct (videoPath l1) as [path|]; simpl.
  2:{ exists true, []. split; [reflexivity|]. left. reflexivity. }
  destruct (hasFoundVideo l1); simpl.
  2:{ exists true, []. split; [reflexivity|]. left. reflexivity. }
  destruct (negb (path =? "")%string) eqn:Htp; simpl.
  2:{ exists true, []. split; [reflexivity|]. left. reflexivity. }
  unfold try_catch, bind, channelSend, emit. simpl.
  destruct (channel_send env (PFiles path (videoFilename l1)) w) as [[[]|e] w2];
    simpl.
  - exists true,
      [EvSendFile tweet path (videoFilename l1) true; EvCleanupScheduled path 5000].
    rewrite <- !app_assoc. simpl. split; [reflexivity|]. right.
    split; [reflexivity|]. split; [reflexivity|]. exists path. auto.
  - exists true, [EvSendFile tweet path (videoFilename l1) false].
    rewrite <- !app_assoc. simpl. split; [reflexivity|]. right.
    split; [reflexivity|]. split; [reflexivity|]. exists path. auto.
Qed.


(** Lines 246-297: the card is built unless a setter throws, and no event is
    caused either way. *)
Lemma buildEmbed_run user tweet s :
  trace (buildEmbed env user tweet s).2 = trace s /\
  match (buildEmbed env user tweet s).1 with
  | Ok e =>
      card_accepted env user tweet = true /\ tw_created_at tweet <> DateInvalid /\
      exists ts,
        e = initial_embed user tweet ts /\
        forall ms, tw_created_at tweet = DateAt ms -> ts = TsAt ms
  | Throw _ =>
      card_accepted env user tweet = false \/ tw_created_at tweet = DateInvalid
  end.
Proof.
  unfold buildEmbed, card_accepted, card_calls, validate, bind. simpl.
  destruct (builder_accepts env (SetAuthor _ _ _)); simpl; [|auto].
  destruct (builder_accepts env (SetURL _)); simpl; [|auto].
  assert (Hrest : forall s1 : St W, trace s1 = trace s ->
    let r := (ts <- match tw_created_at tweet with
                    | DateMissing => now <- ask (Date_now env);; ret (TsAt now)
                    | DateInvalid => throw (Err "Invalid time value")
                    | DateAt ms => ret (TsAt ms)
                    end;;
              (if builder_accepts env (AddFields "Tweet Link" (tweetLink_of user tweet))
               then ret tt else throw validation_error);;
              ret (initial_embed user tweet ts)) s1 in
    trace r.2 = trace s /\
    match r.1 with
    | Ok e =>
        builder_accepts env (AddFields "Tweet Link" (tweetLink_of user tweet)) = true /\
        tw_created_at tweet <> DateInvalid /\
        exists ts,
          e = initial_embed user tweet ts /\
          forall ms, tw_created_at tweet = DateAt ms -> ts = TsAt ms
    | Throw _ =>
        builder_accepts env (AddFields "Tweet Link" (tweetLink_of user tweet)) = false
        \/ tw_created_at tweet = DateInvalid
    end).
  { intros s1 Hs1. unfold bind, ask.
    destruct (tw_created_at tweet) as [| |ms]; simpl.
    - destruct (Date_now env (world s1)) as [now w]. simpl.
      destruct (builder_accepts env (AddFields _ _)); simpl;
        (split; [exact Hs1|]); [|auto].
      split; [reflexivity|]. split; [discriminate|]. eexists. split; [reflexivity|].
      discriminate.
    - split; [exact Hs1|]. auto.
    - destruct (builder_accepts env (AddFields _ _)); simpl;
        (split; [exact Hs1|]); [|auto].
      split; [reflexivity|]. split; [discriminate|]. eexists. split; [reflexivity|].
      intros ms0 H. injection H as ->. reflexivity. }
  destruct (has_text tweet); simpl.
  - destruct (builder_accepts env (SetDescription _)); simpl; [|auto].
    specialize (Hrest s eq_refl). cbv zeta in Hrest. unfold bind in Hrest.
    destruct Hrest as [Htr Hres]. split; [exact Htr|].
    match goal with |- match ?r with _ => _ end =>
      match type of Hres with match ?r' with _ => _ end =>
        change r with r' end end.
    destruct (_ : Res Embed) as [e|err].
    + destruct Hres as (-> & Hd & Hts). auto.
    + destruct Hres as [->|Hd]; auto.
  - specialize (Hrest s eq_refl). cbv zeta in Hrest. unfold bind in Hrest.
    destruct Hrest as [Htr Hres]. split; [exact Htr|].
    match goal with |- match ?r with _ => _ end =>
      match type of Hres with match ?r' with _ => _ end =>
        change r with r' end end.
    destruct (_ : Res Embed) as [e|err].
    + destruct Hres as (-> & Hd & Hts). auto.
    + destruct Hres as [->|Hd]; auto.
Qed.

End Message.

Section Shape.
Context {W : Type} (env : Env W).
Implicit Types (s : St W) (tweet : Tweet).

Lemma bind_throw {A B} (m : M A) (k : A -> M B) s (e : error) :
  (m s).1 = Throw e -> bind m k s = (Throw e, (m s).2).
Proof.
  unfold bind. destruct (m s) as [[x|e'] s1]; simpl; intros H;
    [discriminate|injection H as ->; reflexivity].
Qed.

(** Handling a post that has a user: either a setter refuses the card and
    the block is left with nothing done, or media resolution and publishing
    run on fresh locals that hold the card. *)
Lemma handleTweet_steps tweet user s :
  tw_user tweet = Some user ->
  (exists err s1,
     handleTweet env tweet s = (Throw err, s1) /\ trace s1 = trace s /\
     (card_accepted env user tweet = false \/ tw_created_at tweet = DateInvalid)) \/
  (card_accepted env user tweet = true /\ tw_created_at tweet <> DateInvalid /\
   exists ts s2,
     (forall ms, tw_created_at tweet = DateAt ms -> ts = TsAt ms) /\
     loc s2 = initLocals (initial_embed user tweet ts) /\
     trace s2 = trace s /\
     handleTweet env tweet s = (resolveMedia env tweet;; publish env tweet) s2).
Proof.
  intros Huser. unfold handleTweet. rewrite Huser.
  destruct (buildEmbed_run env user tweet s) as [Htr Hres].
  destruct (buildEmbed env user tweet s) as [[e|err] s1] eqn:Hb; simpl in Htr, Hres.
  - right. destruct Hres as (Hacc & Hdate & ts & -> & Hts).
    split; [exact Hacc|]. split; [exact Hdate|].
    exists ts, (set_loc (initLocals (initial_embed user tweet ts)) s1).
    split; [exact Hts|]. split; [reflexivity|]. split; [exact Htr|].
    rewrite (bind_ok _ _ s (initial_embed user tweet ts)) by (rewrite Hb; reflexivity).
    rewrite Hb. reflexivity.
  - left. exists err, s1. split; [|auto].
    rewrite (bind_throw _ _ s err) by (rewrite Hb; reflexivity).
    rewrite Hb. reflexivity.
Qed.

(** What handling a post that has a user causes: the events of media
    resolution, followed by nothing when a setter of the builder has thrown,
    and else by the embed and what belongs to it; [l3] are the locals that
    media resolution leaves. *)
Lemma handleTweet_shape tweet user s :
  tw_user tweet = Some user ->
  exists evs1 tail,
    trace (handleTweet env tweet s).2 = trace s ++ evs1 ++ tail /\
    Forall media_event evs1 /\
    ((tail = [] /\ ~ saved evs1 /\
      (card_accepted env user tweet = false \/ tw_created_at tweet = DateInvalid \/
       raw_images_accepted env tweet = false)) \/
     (exists ts l3 ok rest,
        (forall ms, tw_created_at tweet = DateAt ms -> ts = TsAt ms) /\
        tail = EvSendEmbed tweet (embed_to_send tweet l3) ok :: rest /\
        (if hasFoundVideo l3
         then exists pre p, evs1 = pre ++ [EvMediaSaved p] /\ ~ saved pre
         else ~ saved evs1) /\
        resolved tweet (initial_embed user tweet ts) l3 /\
        file_part tweet ok l3 rest)).
Proof.
  intros Huser.
  destruct (handleTweet_steps tweet user s Huser)
    as [(err & s1 & -> & Htr & Hwhy)|(_ & _ & ts & s2 & Hts & Hloc2 & Htr2 & ->)].
  { exists [], []. simpl. rewrite app_nil_r. split; [exact Htr|].
    split; [constructor|]. left. split; [reflexivity|].
    split; [intros (p & [])|tauto]. }
  set (e0 := initial_embed user tweet ts) in *.
  pose proof (tri_resolveMedia env tweet e0 s2) as Hres.
  pose proof (tris_resolveMedia env s2 tweet s2) as HK.
  pose proof (frames_same_memory media_event (resolveMedia env tweet) s2
                (frames_resolveMedia env tweet)) as (_ & _ & _ & evs1 & Htr3 & Hme).
  assert (Hstart : unfound s2 s2).
  { split; [|rewrite Hloc2; reflexivity].
    exists []. rewrite app_nil_r, Hloc2. split; [reflexivity|]. intros (q & []). }
  specialize (HK Hstart).
  specialize (Hres ltac:(rewrite Hloc2; apply resolved_start)).
  unfold bind at 1.
  destruct (resolveMedia env tweet s2) as [[[]|err] s3]; simpl in Hres, Htr3.
  - destruct HK as (evs1' & Htr3' & HK).
    assert (evs1' = evs1) as ->.
    { rewrite Htr3 in Htr3'. apply app_inv_head in Htr3'. congruence. }
    destruct (publish_shape env tweet s3) as (ok & rest & Htr4 & Hfile).
    exists evs1, (EvSendEmbed tweet (embed_to_send tweet (loc s3)) ok :: rest).
    split; [rewrite Htr4, Htr3, Htr2, <- app_assoc; reflexivity|].
    split; [exact Hme|]. right. exists ts, (loc s3), ok, rest.
    split; [exact Hts|]. split; [reflexivity|]. split; [exact HK|].
    split; [exact Hres|exact Hfile].
  - destruct HK as ((evs1' & Htr3' & HK) & Hv). rewrite Hv in HK.
    assert (evs1' = evs1) as ->.
    { rewrite Htr3 in Htr3'. apply app_inv_head in Htr3'. congruence. }
    exists evs1, []. simpl. rewrite app_nil_r, Htr3, Htr2.
    split; [reflexivity|]. split; [exact Hme|]. left.
    split; [reflexivity|]. split; [exact HK|]. right. right. exact (proj2 Hres).
Qed.

Lemma processTweet_shape tweet user s :
  tw_user tweet = Some user ->
  seen (lastProcessedIds s) (tw_id tweet) = false ->
  exists evs1 tail,
    emitted s (processTweet env tweet s).2
    = EvMarkSeen (tw_id tweet) :: evs1 ++ tail /\
    Forall media_event evs1 /\
    ((tail = [] /\ ~ saved evs1 /\
      (card_accepted env user tweet = false \/ tw_created_at tweet = DateInvalid \/
       raw_images_accepted env tweet = false)) \/
     (exists ts l3 ok rest,
        (forall ms, tw_created_at tweet = DateAt ms -> ts = TsAt ms) /\
        tail = EvSendEmbed tweet (embed_to_send tweet l3) ok :: rest /\
        (if hasFoundVideo l3
         then exists pre p, evs1 = pre ++ [EvMediaSaved p] /\ ~ saved pre
         else ~ saved evs1) /\
        resolved tweet (initial_embed user tweet ts) l3 /\
        file_part tweet ok l3 rest)).
Proof.
  intros Huser Hseen. rewrite (processTweet_unseen _ _ _ Hseen).
  destruct (handleTweet_shape tweet user (markSeen (tw_id tweet) s).2 Huser)
    as (evs1 & tail & Htr & H).
  exists evs1, tail. split; [|exact H].
  apply emitted_app. cbn [snd]. rewrite Htr. simpl. rewrite <- app_assoc.
  reflexivity.
Qed.

(** The file part consists of events of the file. *)
Lemma file_part_events tweet ok l rest :
  file_part tweet ok l rest -> Forall (file_event tweet) rest.
Proof.
  intros [->|(_ & _ & path & _ & [->| ->])]; repeat constructor.
Qed.

(** The events of one iteration on an unmarked tweet that has a user. *)
Lemma processTweet_events tweet user s :
  tw_user tweet = Some user ->
  seen (lastProcessedIds s) (tw_id tweet) = false ->
  exists evs1 tail,
    emitted s (processTweet env tweet s).2
    = EvMarkSeen (tw_id tweet) :: evs1 ++ tail /\
    Forall media_event evs1 /\
    (tail = [] \/
     exists e ok rest,
       tail = EvSendEmbed tweet e ok :: rest /\ Forall (file_event tweet) rest).
Proof.
  intros Huser Hseen.
  destruct (processTweet_shape tweet user s Huser Hseen)
    as (evs1 & tail & Hem & Hme & Hcase).
  exists evs1, tail. split; [exact Hem|]. split; [exact Hme|].
  destruct Hcase as [(-> & _)|(ts & l3 & ok & rest & _ & -> & _ & _ & Hfile)];
    [left; reflexivity|].
  right. exists (embed_to_send tweet l3), ok, rest. split; [reflexivity|].
  apply (file_part_events _ _ _ _ Hfile).
Qed.

(** When the builder accepts the card and the images of the raw post, the
    embed is sent. *)
Lemma processTweet_sends tweet user s :
  tw_user tweet = Some user ->
  seen (lastProcessedIds s) (tw_id tweet) = false ->
  card_accepted env user tweet = true ->
  tw_created_at tweet <> DateInvalid ->
  raw_images_accepted env tweet = true ->
  exists evs1 e ok rest,
    emitted s (processTweet env tweet s).2
    = EvMarkSeen (tw_id tweet) :: evs1 ++ EvSendEmbed tweet e ok :: rest /\
    Forall media_event evs1 /\ Forall (file_event tweet) rest.
Proof.
  intros Huser Hseen Hcard Hdate Hraw.
  destruct (processTweet_shape tweet user s Huser Hseen)
    as (evs1 & tail & Hem & Hme & Hcase).
  destruct Hcase as [(_ & _ & [H|[H|H]])|(ts & l3 & ok & rest & _ & -> & _ & _ & Hfile)];
    try congruence.
  exists evs1, (embed_to_send tweet l3), ok, rest. split; [exact Hem|].
  split; [exact Hme|apply (file_part_events _ _ _ _ Hfile)].
Qed.

(** With no user the iteration only marks. *)
Lemma processTweet_no_user tweet s :
  tw_user tweet = None ->
  seen (lastProcessedIds s) (tw_id tweet) = false ->
  emitted s (processTweet env tweet s).2 = [EvMarkSeen (tw_id tweet)].
Proof.
  intros Huser Hseen. rewrite (processTweet_unseen _ _ _ Hseen).
  unfold handleTweet. rewrite Huser. apply emitted_app. reflexivity.
Qed.

End Shape.

(** ** The path of a video through the cascade *)

Section VideoPath.
Context {W : Type} (env : Env W) (tweet : Tweet).
Implicit Types (s : St W) (d : TweetDetail) (src : VideoSource).

Lemma bind_run {A B} (m : M (W:=W) A) (k : A -> M B) s a s' :
  m s = (Ok a, s') -> bind m k s = k a s'.
Proof. unfold bind. intros ->. reflexivity. Qed.

Lemma bind_getLoc {B} (k : Locals -> M (W:=W) B) s :
  bind getLoc k s = k (loc s) s.
Proof. reflexivity. Qed.





(** *** The three video cases of the detail record *)


Lemma detail_video_pass d s :
  video_source_1 tweet d = None \/ hasFoundVideo (loc s) = true ->
  detail_video env tweet d s = (Ok tt, s).
Proof.
  intros H. unfold video_source_1, find_source in H.
  unfold detail_video. rewrite bind_getLoc.
  destruct (d_video d) as [video|]; [|reflexivity].
  destruct (hasFoundVideo (loc s)); simpl; [reflexivity|].
  destruct H as [H|H]; [|discriminate H].
  destruct (nonempty (vid_variants video)); [|reflexivity].
  destruct (List.find is_mp4_variant _) as [v|]; [discriminate H|reflexivity].
Qed.


Lemma detail_parent_video_pass d s :
  video_source_2 tweet d = None \/ hasFoundVideo (loc s) = true ->
  detail_parent_video env tweet d s = (Ok tt, s).
Proof.
  intros H. unfold video_source_2, find_source in H.
  unfold detail_parent_video. rewrite bind_getLoc.
  destruct (d_parent d) as [parent|]; [|reflexivity].
  destruct (par_video parent) as [video|]; [|reflexivity].
  destruct (hasFoundVideo (loc s)); simpl; [reflexivity|].
  destruct H as [H|H]; [|discriminate H].
  destruct (nonempty (vid_variants video)); [|reflexivity].
  destruct (List.find is_mp4_variant _) as [v|]; [discriminate H|reflexivity].
Qed.


Lemma mediaDetails_video_loop_pass medias : forall s,
  mediaDetails_best medias = None ->
  mediaDetails_video_loop env tweet medias s = (Ok tt, s).
Proof.
  induction medias as [|media rest IH]; intros s Hbest; simpl in *; [reflexivity|].
  destruct (if is_video_media media then media_variants media else None)
    as [variants|]; [|apply IH; assumption].
  destruct (mp4Variants variants) as [|b others]; [apply IH; assumption|].
  discriminate Hbest.
Qed.


Lemma detail_mediaDetails_video_pass d s :
  video_source_3 tweet d = None \/ hasFoundVideo (loc s) = true ->
  detail_mediaDetails_video env tweet d s = (Ok tt, s).
Proof.
  intros H. unfold video_source_3 in H.
  unfold detail_mediaDetails_video. rewrite bind_getLoc.
  destruct (hasFoundVideo (loc s)); simpl; [reflexivity|].
  destruct H as [H|H]; [|discriminate H].
  destruct (nonempty (d_mediaDetails d)); [|reflexivity].
  destruct (mediaDetails_best _) as [best|] eqn:Hbest; [discriminate H|].
  apply mediaDetails_video_loop_pass, Hbest.
Qed.


(** What follows is skipped once something is recorded. *)
Lemma raw_block_pass s :
  hasFoundVideo (loc s) = true \/ hasFoundImage (loc s) = true ->
  raw_block env tweet s = (Ok tt, s).
Proof.
  intros H. unfold raw_block. rewrite bind_getLoc.
  destruct H as [-> | ->]; [rewrite andb_false_r|]; reflexivity.
Qed.

Lemma attachments_note_pass s :
  hasFoundVideo (loc s) = true \/ hasFoundImage (loc s) = true ->
  attachments_note (W:=W) tweet s = (Ok tt, s).
Proof.
  intros H. unfold attachments_note. rewrite bind_getLoc.
  destruct (tw_attachments tweet) as [a|]; [|reflexivity].
  destruct H as [-> | ->]; [rewrite andb_false_r|]; reflexivity.
Qed.

Lemma detail_video_source_none d :
  detail_video_source tweet d = None ->
  video_source_1 tweet d = None /\ video_source_2 tweet d = None /\
  video_source_3 tweet d = None.
Proof.
  unfold detail_video_source.
  destruct (video_source_1 tweet d); [discriminate|].
  destruct (video_source_2 tweet d); [discriminate|]. auto.
Qed.



(** *** The video of the raw post *)





End VideoPath.

(** ** Statements about media resolution *)

Lemma unseen_not_seen (ids : gmap string bool) id :
  unseen ids id = true -> seen ids id = false.
Proof.
  unfold unseen. intros H. apply andb_prop in H as [H _].
  apply negb_true_iff in H. exact H.
Qed.



(** C7.  A video download of the detail tier that fails.  The detail record
    of the post holds a video and a photo, and every download fails.  The
    three attempts at the video are made, the exception leaves the [try] of
    lines 306-442 and with it the photo resolution of lines 398-437: the
    embed is sent without the photo of the record.  The raw tier, which has
    a [try] of its own around its download (lines 456-482), does what the
    sentence says: for a raw post with a video and a preview image, the
    failed download is followed by the image resolution of the tier, and the
    embed shows the image. *)
Theorem failed_detail_download_drops_photo :
  let detail_run :=
    trace (processTweet (fixed_env [fresh_post] (Some detail_with_video_and_photo) false)
             fresh_post running_state).2 in
  let raw_run :=
    trace (processTweet (fixed_env [clip_post] None false) clip_post running_state).2 in
  detail_image detail_with_video_and_photo
  = Some (Some "https://pbs.twimg.com/media/detail.jpg") /\
  requested_urls detail_run = [v_url mp4_100; v_url mp4_100; v_url mp4_100] /\
  sent_images detail_run = [None] /\
  requested_urls raw_run = [v_url mp4_500; v_url mp4_500; v_url mp4_500] /\
  sent_images raw_run = [Some "https://pbs.twimg.com/media/preview.jpg"].
Proof. vm_compute. repeat split. Qed.
(** * Further properties of the polling cycle *)

(** ** Cycles that stop early *)

(** X1.  [processTweets] never throws: whatever the requests, the channel,
    a send or the file system do, every exception is caught inside the
    cycle.  The unguarded call of [pollTweets] at start up therefore cannot
    reject, and any number of cycles run one after the other ends normally. *)
Theorem processTweets_never_throws {W} (env : Env W) (s : St W) (n : nat) :
  (processTweets env s).1 = Ok tt /\ (runCycles env n s).1 = Ok tt.
Proof.
  assert (Hone : forall s1 : St W, (processTweets env s1).1 = Ok tt).
  { intros s1. unfold processTweets, try_catch.
    destruct (bind (fetchTweets env) _ s1) as [[[]|e] s2]; reflexivity. }
  split; [apply Hone|].
  revert s. induction n as [|n IH]; intros s; simpl; [reflexivity|].
  rewrite (bind_ok _ _ s tt (Hone s)). apply IH.
Qed.

(** A cycle whose fetch does not give an array stops there. *)
Lemma failed_fetch_memory {W} (env : Env W) (s : St W) :
  (forall tweets, (fetchTweets env s).1 <> Ok (TArray tweets)) ->
  same_memory io_event s (processTweets env s).2.
Proof.
  intros H.
  pose proof (frames_same_memory io_event (fetchTweets env) s
                (frames_fetchTweets env)) as Hsame.
  unfold processTweets, try_catch, bind at 1.
  destruct (fetchTweets env s) as [[[tweets|]|e] s1]; simpl in *.
  - exfalso. eapply H. reflexivity.
  - exact Hsame.
  - exact Hsame.
Qed.

(** X2.  A cycle whose fetch does not produce an array (every attempt
    failed, or the body is not an array) ends there: the seen identifiers,
    the timestamp and the files are untouched, and the trace only gains the
    events of the requests. *)
Theorem failed_fetch_changes_nothing {W} (env : Env W) (s : St W) :
  (forall tweets, (fetchTweets env s).1 <> Ok (TArray tweets)) ->
  same_memory io_event s (processTweets env s).2.
Proof.
  intros Hno.
  destruct (frames_same_memory io_event (fetchTweets env) s (frames_fetchTweets env))
    as (Hids & Hts & Hdisk & evs & Htr & Hevs).
  assert (Hrun : (processTweets env s).2 = (fetchTweets env s).2).
  { unfold processTweets, try_catch, bind at 1.
    destruct (fetchTweets env s) as [[[tweets|]|e] s1]; simpl in *;
      [exfalso; eapply Hno; reflexivity|reflexivity|reflexivity]. }
  rewrite Hrun. repeat split; try assumption. exists evs. split; assumption.
Qed.

Lemma failed_fetch_changes_nothing_witness :
  same_memory io_event running_state
    (processTweets (plain_env 503 (FeedArray [fresh_post]) (Ok true) true)
       running_state).2.
Proof.
  apply (failed_fetch_changes_nothing
           (plain_env 503 (FeedArray [fresh_post]) (Ok true) true) running_state).
  intros tweets. vm_compute. discriminate.
Defined.

(** X3.  In a cycle after the first one, when the channel lookup throws or
    yields no channel, the cycle ends there: nothing is marked, nothing is
    sent or written, and the timestamp is not advanced. *)
Theorem missing_channel_changes_nothing {W} (env : Env W) (s s1 : St W)
    (tweets : list Tweet) (currentFetchTime : Z) (w2 w3 : W) (r : Res bool) :
  lastFetchTimestamp s <> None ->
  fetchTweets env s = (Ok (TArray tweets), s1) ->
  Date_now env (world s1) = (currentFetchTime, w2) ->
  channels_fetch env w2 = (r, w3) ->
  r <> Ok true ->
  same_memory io_event s (processTweets env s).2.
Proof.
  intros Hts Hfetch Hnow Hch Hr.
  pose proof (frames_same_memory io_event (fetchTweets env) s
                (frames_fetchTweets env)) as Hsame.
  rewrite Hfetch in Hsame. simpl in Hsame.
  destruct Hsame as (Hi & Ht & Hd & evs & Htr & Hevs).
  assert (Hrun : (processTweets env s).2
                 = set_world w3 (emit EvChannelFetch (set_world w2 s1)).2).
  { unfold processTweets, try_catch, bind at 1. rewrite Hfetch.
    unfold bind at 1, ask at 1. rewrite Hnow. simpl.
    unfold bind at 1, get. simpl.
    destruct (lastFetchTimestamp s1) as [t1|] eqn:Hts1; [|congruence].
    unfold bind at 1. simpl. unfold bind at 1, call. simpl. rewrite Hch.
    destruct r as [[|]|e]; [congruence| |]; simpl; rewrite ?Hts1; reflexivity. }
  rewrite Hrun. simpl. repeat split; try assumption.
  exists (evs ++ [EvChannelFetch]). rewrite Htr, app_assoc.
  split; [reflexivity|]. apply Forall_app. split; [assumption|].
  constructor; [exact I|constructor].
Qed.

Lemma missing_channel_changes_nothing_witness :
  same_memory io_event running_state
    (processTweets (plain_env 200 (FeedArray [fresh_post]) (Ok false) true)
       running_state).2.
Proof.
  apply (missing_channel_changes_nothing
           (plain_env 200 (FeedArray [fresh_post]) (Ok false) true)
           running_state
           (fetchTweets (plain_env 200 (FeedArray [fresh_post]) (Ok false) true)
              running_state).2
           [fresh_post] 100000 tt tt (Ok false)).
  - vm_compute. discriminate.
  - reflexivity.
  - reflexivity.
  - reflexivity.
  - discriminate.
Defined.

(** ** Saving and loading the state *)

(** X4.  [saveState] never throws and never touches the variables.  The
    identifiers are written first.  When that write fails the timestamp file
    is not attempted and stays as it is, and [processed_ids.json] is what
    the failed call left of it: the old file when the file could not be
    opened, a file that no longer parses when the call failed after the file
    had been emptied, the new data when it failed after they had been
    written.  When the first write succeeds the timestamp file is attempted,
    and a failure there leaves, beside the new identifiers, what the failed
    call left of [bot_state.json]. *)
Theorem saveState_writes_in_order {W} (env : Env W) (s : St W) :
  let s' := (saveState env s).2 in
  (saveState env s).1 = Ok tt /\
  lastProcessedIds s' = lastProcessedIds s /\
  lastFetchTimestamp s' = lastFetchTimestamp s /\
  ((exists e left,
      emitted s s' = [EvWriteFile (IdsData (lastProcessedIds s)) (Failed e left)] /\
      bot_state_json (disk s') = bot_state_json (disk s) /\
      processed_ids_json (disk s')
      = match left with
        | Untouched => processed_ids_json (disk s)
        | Partial => Corrupt
        | Complete => Content (lastProcessedIds s)
        end) \/
   (exists r2,
      emitted s s' = [EvWriteFile (IdsData (lastProcessedIds s)) Written;
                      EvWriteFile (StateData (lastFetchTimestamp s)) r2] /\
      processed_ids_json (disk s') = Content (lastProcessedIds s) /\
      bot_state_json (disk s')
      = match r2 with
        | Written | Failed _ Complete => Content (lastFetchTimestamp s)
        | Failed _ Untouched => bot_state_json (disk s)
        | Failed _ Partial => Corrupt
        end)).
Proof.
  intros s'.
  destruct (saveState_effect env s) as (r1 & rest & Hok & Hi & Ht & Htr & Hd & Hrest).
  fold s' in Hi, Ht, Htr, Hd.
  split; [exact Hok|]. split; [exact Hi|]. split; [exact Ht|].
  destruct r1 as [|e left].
  - right. destruct Hrest as [r2 ->]. exists r2.
    split; [apply emitted_app, Htr|]. rewrite Hd.
    destruct r2 as [|e2 [| |]]; split; reflexivity.
  - left. subst rest. exists e, left. split; [apply emitted_app, Htr|]. rewrite Hd.
    destruct left; split; reflexivity.
Qed.

(** X5.  Saving and loading round trip: when both writes of [saveState] go
    through, a process that starts on the resulting disk loads exactly the
    seen identifiers and the timestamp that were in memory, provided the
    timestamp is not 0, which the load reads as null. *)
Theorem saved_state_is_reloaded {W} (env : Env W) (s : St W) :
  (forall d e left,
     ~ In (EvWriteFile d (Failed e left)) (emitted s (saveState env s).2)) ->
  lastFetchTimestamp s <> Some 0%Z ->
  loadState (disk (saveState env s).2) = (lastProcessedIds s, lastFetchTimestamp s).
Proof.
  intros Hnofail Hts.
  destruct (saveState_effect env s) as (ok1 & rest & _ & _ & _ & Htr & Hd & Hrest).
  rewrite (emitted_app _ _ _ Htr) in Hnofail.
  destruct ok1 as [|e1 l1]; [|exfalso; eapply Hnofail; left; reflexivity].
  destruct Hrest as [[|e2 l2] ->];
    [|exfalso; eapply Hnofail; right; left; reflexivity].
  rewrite Hd. unfold loadState. simpl.
  destruct (lastFetchTimestamp s) as [t|]; [|reflexivity].
  destruct (Z.eqb_spec t 0) as [->|Hne]; [congruence|reflexivity].
Qed.

Lemma saved_state_is_reloaded_witness :
  let s := (processTweets (fixed_env [fresh_post] None true) running_state).2 in
  loadState (disk (saveState (fixed_env [] None true) s).2)
  = (lastProcessedIds s, lastFetchTimestamp s).
Proof.
  intros s.
  apply (saved_state_is_reloaded (fixed_env [] None true) s).
  - intros d e left. vm_compute. intros [H|[H|[]]]; discriminate H.
  - vm_compute. discriminate.
Defined.

(** The events of a first cycle. *)
Lemma first_cycle_trace {W} (env : Env W) (s : St W) tweets cft :
  first_cycle env s tweets cft ->
  exists evs0 ok1 rest ids,
    emitted s (processTweets env s).2
    = evs0 ++ map (fun tweet => EvMarkSeen (tw_id tweet)) tweets
      ++ EvSetTimestamp cft :: EvWriteFile (IdsData ids) ok1 :: rest /\
    Forall io_event evs0 /\ Forall closing_event rest /\
    lastProcessedIds (processTweets env s).2 = mark_all tweets (lastProcessedIds s).
Proof.
  intros (Hts & s1 & w2 & Hfetch & Hnow).
  pose proof (frames_same_memory io_event (fetchTweets env) s
                (frames_fetchTweets env)) as Hsame.
  rewrite Hfetch in Hsame. simpl in Hsame.
  destruct Hsame as (Hi1 & Ht1 & Hd1 & evs0 & Htr1 & Hevs0).
  set (s3 := {| lastProcessedIds := mark_all tweets (lastProcessedIds s1);
                lastFetchTimestamp := Some cft;
                disk := disk s1; world := w2;
                trace := (trace s1
                          ++ map (fun tweet => EvMarkSeen (tw_id tweet)) tweets)
                         ++ [EvSetTimestamp cft];
                loc := loc s1 |}).
  assert (Hrun : (processTweets env s).2 = (saveState env s3).2).
  { unfold processTweets, try_catch, bind at 1. rewrite Hfetch.
    unfold bind at 1, ask at 1. rewrite Hnow. simpl.
    unfold bind at 1, get. simpl. rewrite Ht1, Hts.
    unfold firstRun, bind at 1. rewrite forEach_markSeen.
    unfold bind at 1. simpl. fold s3.
    destruct (saveState env s3) as [[[]|e] s4]; reflexivity. }
  destruct (saveState_effect env s3) as (ok1 & rest & _ & Hi & _ & Htr & _ & Hrest).
  rewrite <- Hrun in Htr, Hi. simpl in Htr, Hi.
  exists evs0, ok1, rest, (mark_all tweets (lastProcessedIds s1)).
  split; [|split; [exact Hevs0|split]].
  - apply emitted_app. rewrite Htr, Htr1, <- !app_assoc. reflexivity.
  - destruct ok1; [destruct Hrest as [ok2 ->]|subst rest]; repeat constructor.
  - rewrite Hi, Hi1. reflexivity.
Qed.

(** While the timestamp is null a cycle sends nothing, whatever the fetch
    returns or throws. *)
Lemma null_timestamp_sends_nothing {W} (env : Env W) (s : St W) :
  lastFetchTimestamp s = None ->
  forall ev, In ev (emitted s (processTweets env s).2) -> ~ is_send ev.
Proof.
  intros Hts ev Hin Hsend.
  destruct (fetchTweets env s) as [[[tweets|]|e] s1] eqn:Hfetch.
  - destruct (Date_now env (world s1)) as [cft w2] eqn:Hnow.
    destruct (first_cycle_trace env s tweets cft)
      as (evs0 & ok1 & rest & ids & Hem & H0 & Hrest & _).
    { split; [exact Hts|]. exists s1, w2. auto. }
    rewrite Hem in Hin. apply in_app_or in Hin as [Hin|Hin].
    + apply (Forall_In _ _ _ H0) in Hin. destruct ev; simpl in *; tauto.
    + apply in_app_or in Hin as [Hin|Hin].
      * apply in_map_iff in Hin as (t & <- & _). exact Hsend.
      * destruct Hin as [<-|[<-|Hin]]; try exact Hsend.
        apply (Forall_In _ _ _ Hrest) in Hin. destruct ev; simpl in *; tauto.
  - assert (H : forall tweets, (fetchTweets env s).1 <> Ok (TArray tweets))
      by (rewrite Hfetch; discriminate).
    destruct (failed_fetch_memory env s H) as (_ & _ & _ & evs & Htr & Hevs).
    rewrite (emitted_app _ _ _ Htr) in Hin.
    apply (Forall_In _ _ _ Hevs) in Hin. destruct ev; simpl in *; tauto.
  - assert (H : forall tweets, (fetchTweets env s).1 <> Ok (TArray tweets))
      by (rewrite Hfetch; discriminate).
    destruct (failed_fetch_memory env s H) as (_ & _ & _ & evs & Htr & Hevs).
    rewrite (emitted_app _ _ _ Htr) in Hin.
    apply (Forall_In _ _ _ Hevs) in Hin. destruct ev; simpl in *; tauto.
Qed.

(** X6.  What a process starts from.  The first cycle after a start is a
    baseline cycle (null timestamp) exactly when [processed_ids.json] does
    not parse or [bot_state.json] holds no timestamp other than 0; an
    unreadable [processed_ids.json] thus also discards an intact timestamp,
    while an unreadable [bot_state.json] keeps the identifiers.  A baseline
    cycle sends nothing. *)
Theorem restart_is_baseline_iff {W} (env : Env W) (d : Disk) (w : W) :
  let s := restart d w in
  (lastFetchTimestamp s = None <->
   processed_ids_json d = Corrupt \/
   (forall t, bot_state_json d = Content (Some t) -> t = 0%Z)) /\
  lastProcessedIds s
  = match processed_ids_json d with Content ids => ids | _ => ∅ end /\
  (lastFetchTimestamp s = None ->
   forall ev, In ev (emitted s (processTweets env s).2) -> ~ is_send ev).
Proof.
  intros s. split; [|split].
  - subst s. unfold restart, loadState. simpl.
    destruct (processed_ids_json d) as [| |ids];
      destruct (bot_state_json d) as [| |[t|]]; simpl;
      try destruct (Z.eqb_spec t 0) as [->|Hne];
      split; intros H; try reflexivity; try discriminate; auto;
      try (right; intros t' Ht'; congruence);
      try (destruct H as [H|H]; [discriminate|]; exfalso; apply Hne, H; reflexivity).
  - subst s. unfold restart, loadState. simpl.
    destruct (processed_ids_json d); reflexivity.
  - apply null_timestamp_sends_nothing.
Qed.

(** ** Several cycles in a row *)

Section Cycles.
Context {W : Type} (env : Env W).
Implicit Types (s : St W) (tweet : Tweet).

Lemma preserves_runCycles (Inv : St W -> Prop) n :
  preserves Inv (processTweets env) -> preserves Inv (runCycles env n).
Proof.
  intros Hc. induction n as [|n IH]; simpl.
  - apply preserves_ret.
  - apply preserves_bind; [exact Hc|]. intros _. exact IH.
Qed.

(** An identifier that is marked stays marked through every step. *)
Lemma preserves_seen id :
  preserves (fun s => seen (lastProcessedIds s) id = true) (processTweets env).
Proof.
  apply preserves_processTweets.
  - split; auto.
  - intros id' s Hs. simpl. apply seen_insert_mono, Hs.
  - intros t s Hs. exact Hs.
  - intros s Hs.
    destruct (saveState_effect env s) as (_ & _ & _ & Hi & _). rewrite Hi. exact Hs.
  - intros tweet s Hs.
    destruct (seen (lastProcessedIds s) (tw_id tweet)) eqn:Hseen.
    + rewrite (processTweet_seen _ _ _ Hseen). exact Hs.
    + destruct (processTweet_unseen_effect env tweet s Hseen) as (Hi & _).
      rewrite Hi. apply seen_insert_mono, Hs.
Qed.

(** A timestamp that is set is never reset to null. *)
Lemma preserves_timestamp :
  preserves (fun s => lastFetchTimestamp s <> None) (processTweets env).
Proof.
  apply preserves_processTweets.
  - split; auto.
  - intros id' s Hs. exact Hs.
  - intros t s Hs. discriminate.
  - intros s Hs.
    destruct (saveState_effect env s) as (_ & _ & _ & _ & Ht & _). rewrite Ht. exact Hs.
  - intros tweet s Hs.
    destruct (seen (lastProcessedIds s) (tw_id tweet)) eqn:Hseen.
    + rewrite (processTweet_seen _ _ _ Hseen). exact Hs.
    + destruct (processTweet_unseen_effect env tweet s Hseen) as (_ & Ht & _).
      rewrite Ht. exact Hs.
Qed.

Lemma embeds_for_app id evs evs' :
  embeds_for id (evs ++ evs') = (embeds_for id evs + embeds_for id evs')%nat.
Proof. unfold embeds_for. rewrite List.filter_app, length_app. reflexivity. Qed.

Lemma embeds_for_none id evs :
  Forall (fun ev => is_embed_for id ev = false) evs -> embeds_for id evs = 0%nat.
Proof.
  unfold embeds_for. induction 1 as [|ev evs Hev _ IH]; simpl; [reflexivity|].
  rewrite Hev. exact IH.
Qed.

Lemma embeds_for_not_sent id evs :
  Forall (fun ev => ~ sent_for_id id ev) evs -> embeds_for id evs = 0%nat.
Proof.
  intros H. apply embeds_for_none. eapply Forall_impl; [exact H|].
  intros ev Hev. destruct ev; try reflexivity. simpl in *.
  destruct (String.eqb_spec (tw_id t) id); [tauto|reflexivity].
Qed.

Lemma once_step id s0 s s' evs :
  once id s0 s ->
  trace s' = trace s ++ evs ->
  embeds_for id evs = 0%nat ->
  (seen (lastProcessedIds s') id = false -> seen (lastProcessedIds s) id = false) ->
  once id s0 s'.
Proof.
  intros (evs0 & Htr0 & Hle & Hzero) Htr Hevs Hseen.
  exists (evs0 ++ evs). rewrite Htr, Htr0, app_assoc, embeds_for_app, Hevs.
  split; [reflexivity|]. split; [lia|]. intros H. rewrite (Hzero (Hseen H)). reflexivity.
Qed.

Lemma once_processTweet id s0 tweet :
  preserves (once id s0) (processTweet env tweet).
Proof.
  intros s Hs.
  destruct (seen (lastProcessedIds s) (tw_id tweet)) eqn:Hseen.
  { rewrite (processTweet_seen _ _ _ Hseen). exact Hs. }
  destruct (processTweet_unseen_effect env tweet s Hseen)
    as (Hi & _ & _ & evs & Htr & Hevs).
  destruct (decide (tw_id tweet = id)) as [Heq|Hne].
  - (* the post itself: nothing was sent for it so far, and it is sent once *)
    destruct Hs as (evs0 & Htr0 & _ & Hzero).
    rewrite Heq in Hseen. specialize (Hzero Hseen).
    exists (evs0 ++ emitted s (processTweet env tweet s).2).
    split.
    { rewrite Htr, Htr0, <- app_assoc. f_equal. f_equal.
      symmetry. apply emitted_app. exact Htr. }
    rewrite embeds_for_app, Hzero. simpl.
    rewrite Hi, <- Heq, seen_insert. destruct (decide _) as [_|Hn]; [|congruence].
    split; [|discriminate].
    rewrite <- Heq in Hseen.
    destruct (tw_user tweet) as [user|] eqn:Huser.
    + destruct (processTweet_events env tweet user s Huser Hseen)
        as (evs1 & tail & Hem & Hmedia & [->|(e & ok & rest & -> & Hfile)]).
      * rewrite Hem, app_nil_r.
        change (EvMarkSeen (tw_id tweet) :: evs1)
          with ([EvMarkSeen (tw_id tweet)] ++ evs1).
        rewrite embeds_for_app, (embeds_for_none (tw_id tweet) evs1).
        -- unfold embeds_for. simpl. lia.
        -- eapply Forall_impl; [exact Hmedia|]. intros ev Hev.
           destruct ev; simpl in *; tauto.
      * rewrite Hem.
        change (EvMarkSeen (tw_id tweet) :: evs1 ++ EvSendEmbed tweet e ok :: rest)
          with ([EvMarkSeen (tw_id tweet)] ++ evs1 ++ [EvSendEmbed tweet e ok] ++ rest).
        rewrite !embeds_for_app.
        rewrite (embeds_for_none (tw_id tweet) evs1),
          (embeds_for_none (tw_id tweet) rest).
        -- unfold embeds_for. simpl. destruct (String.eqb _ _); simpl; lia.
        -- eapply Forall_impl; [exact Hfile|]. intros ev Hev.
           destruct ev; simpl in *; tauto.
        -- eapply Forall_impl; [exact Hmedia|]. intros ev Hev.
           destruct ev; simpl in *; tauto.
    + rewrite (processTweet_no_user env tweet s Huser Hseen). unfold embeds_for. simpl. lia.
  - apply (once_step id s0 s _ (EvMarkSeen (tw_id tweet) :: evs) Hs Htr).
    + apply embeds_for_none. constructor; [reflexivity|].
      eapply Forall_impl; [exact Hevs|]. intros ev Hev.
      destruct ev; try reflexivity. simpl in *. subst t.
      destruct (String.eqb_spec (tw_id tweet) id); [contradiction|reflexivity].
    + rewrite Hi, seen_insert. destruct (decide _); [contradiction|auto].
Qed.

Lemma once_processTweets id s0 :
  preserves (once id s0) (processTweets env).
Proof.
  apply preserves_processTweets.
  - split.
    + intros s w Hs. exact Hs.
    + intros s l Hs. exact Hs.
    + intros s ev Hev Hs. apply (once_step id s0 s _ [ev] Hs); [reflexivity| |auto].
      destruct ev; simpl in Hev; try reflexivity; tauto.
  - intros id' s Hs. apply (once_step id s0 s _ [EvMarkSeen id'] Hs);
      [reflexivity|reflexivity|].
    simpl. rewrite seen_insert. destruct (decide _); [discriminate|auto].
  - intros t s Hs. apply (once_step id s0 s _ [EvSetTimestamp t] Hs);
      [reflexivity|reflexivity|auto].
  - intros s Hs.
    destruct (saveState_effect env s) as (ok1 & rest & _ & Hi & _ & Htr & _ & Hrest).
    apply (once_step id s0 s _ _ Hs Htr); [|rewrite Hi; auto].
    destruct ok1; [destruct Hrest as [ok2 ->]|subst rest]; reflexivity.
  - apply once_processTweet.
Qed.

Lemma once_refl id s : once id s s.
Proof.
  exists []. rewrite app_nil_r. split; [reflexivity|].
  unfold embeds_for. simpl. split; [lia|reflexivity].
Qed.

End Cycles.

(** X7.  Over any number of cycles run one after the other the state only
    grows: an identifier that is marked stays marked (identifiers are never
    pruned), and a timestamp that is set is never reset to null, so the
    baseline branch cannot run again in the same process. *)
Theorem state_only_grows {W} (env : Env W) (n : nat) (s : St W) :
  let s' := (runCycles env n s).2 in
  (forall id, seen (lastProcessedIds s) id = true ->
     seen (lastProcessedIds s') id = true) /\
  (lastFetchTimestamp s <> None -> lastFetchTimestamp s' <> None).
Proof.
  split.
  - intros id. apply (preserves_runCycles env _ n (preserves_seen env id)).
  - apply (preserves_runCycles env _ n (preserves_timestamp env)).
Qed.

(** X8.  Within one process a post is published at most once: over any
    number of cycles run one after the other, whatever the feed repeats and
    whatever fails, at most one embed is sent (or attempted) for a given
    identifier, and none at all when the identifier is marked at the start. *)
Theorem post_is_published_at_most_once {W} (env : Env W) (n : nat) (s : St W)
    (id : string) :
  let evs := emitted s (runCycles env n s).2 in
  (embeds_for id evs <= 1)%nat /\
  (seen (lastProcessedIds s) id = true -> embeds_for id evs = 0%nat).
Proof.
  intros evs. subst evs. split.
  { destruct (preserves_runCycles env _ n (once_processTweets env id s) s
                (once_refl id s)) as (evs' & Htr & Hle & _).
    rewrite (emitted_app _ _ _ Htr). exact Hle. }
  intros Hseen.
  assert (H : seen_kept id s (runCycles env n s).2).
  { apply (preserves_runCycles env (seen_kept id s) n).
    - intros s1 Hs1. destruct Hs1 as (Hseen1 & evs1 & Htr1 & Hevs1).
      destruct (cycle_keeps_seen env s1 id Hseen1) as (Hseen2 & evs2 & Htr2 & Hevs2).
      split; [exact Hseen2|]. exists (evs1 ++ evs2).
      rewrite Htr2, Htr1, app_assoc. split; [reflexivity|].
      apply Forall_app. split; assumption.
    - split; [exact Hseen|]. exists []. rewrite app_nil_r.
      split; [reflexivity|constructor]. }
  destruct H as (_ & evs' & Htr & Hevs).
  rewrite (emitted_app _ _ _ Htr). apply embeds_for_not_sent, Hevs.
Qed.

(** * The reset script *)

(** X9.  The reset script only ever removes: after it, each of the two
    state files is either exactly as it was or absent.  It reports a reset
    exactly when it removed at least one file, and on a disk without state
    files it removes nothing, calls no unlink and reports a fresh state. *)
Theorem reset_only_removes {V} (fs_unlinkSync : string -> V -> Res unit * V)
    (d : Disk) (v : V) :
  let st := resetBotState fs_unlinkSync d v in
  (processed_ids_json (r_disk st) = processed_ids_json d \/
   processed_ids_json (r_disk st) = Absent) /\
  (bot_state_json (r_disk st) = bot_state_json d \/
   bot_state_json (r_disk st) = Absent) /\
  (resetOccurred st = true <->
   exists f, existsSync f d = true /\ existsSync f (r_disk st) = false) /\
  (In LogHasBeenReset (r_console st) <-> resetOccurred st = true) /\
  ((forall f, existsSync f d = false) ->
   st = {| r_disk := d; r_world := v;
           r_console := [LogResetting; LogNoNeed PROCESSED_IDS_FILE;
                         LogNoNeed STATE_FILE; LogAlreadyFresh];
           resetOccurred := false |}).
Proof.
  unfold resetBotState, deleteIfExists. cbv zeta.
  destruct d as [ids ts].
  destruct ids as [| |ids]; destruct ts as [| |ts]; simpl;
    repeat match goal with
           | |- context [fs_unlinkSync ?p ?w] =>
               destruct (fs_unlinkSync p w) as [[[]|?] ?]; simpl
           end;
    (split; [auto|]); (split; [auto|]);
    (split; [split; [intros H; try discriminate H;
                     first [ exists PROCESSED_IDS_FILE; split; reflexivity
                           | exists STATE_FILE; split; reflexivity ]
                    |intros (f & H1 & H2); destruct f; simpl in *; congruence]|]);
    (split; [split; [intros H; repeat (destruct H as [H|H]; try discriminate H);
                     try reflexivity; try destruct H
                    |intros H; try discriminate H; simpl; tauto]|]);
    intros H; try reflexivity;
    try (specialize (H PROCESSED_IDS_FILE); discriminate H);
    try (specialize (H STATE_FILE); discriminate H).
Qed.

(** X10.  Reset, then start.  When no unlink fails, the reset leaves no
    state file; the bot started afterwards has no seen identifier and a null
    timestamp, so its first cycle is a baseline cycle and sends nothing,
    whatever the feed holds. *)
Theorem reset_then_start_is_baseline {V W} (fs_unlinkSync : string -> V -> Res unit * V)
    (env : Env W) (d : Disk) (v : V) (w : W) :
  let st := resetBotState fs_unlinkSync d v in
  (forall f e, ~ In (LogDeleteError f e) (r_console st)) ->
  r_disk st = empty_disk /\
  lastProcessedIds (restart (r_disk st) w) = ∅ /\
  lastFetchTimestamp (restart (r_disk st) w) = None /\
  forall ev,
    In ev (emitted (restart (r_disk st) w)
             (processTweets env (restart (r_disk st) w)).2) ->
    ~ is_send ev.
Proof.
  intros st Hok.
  assert (Hd : r_disk st = empty_disk).
  { subst st. revert Hok. unfold resetBotState, deleteIfExists. cbv zeta.
    destruct d as [ids ts].
    destruct ids as [| |ids]; destruct ts as [| |ts]; simpl;
      repeat match goal with
             | |- context [fs_unlinkSync ?p ?w] =>
                 destruct (fs_unlinkSync p w) as [[[]|?] ?]; simpl
             end;
      intros Hok; try reflexivity;
      exfalso;
      eapply Hok;
      first [ right; left; reflexivity | right; right; left; reflexivity ]. }
  rewrite Hd. split; [reflexivity|]. split; [reflexivity|]. split; [reflexivity|].
  apply null_timestamp_sends_nothing. reflexivity.
Qed.

Lemma reset_then_start_is_baseline_witness :
  let st := resetBotState unlink_ok seen_disk tt in
  r_disk st = empty_disk /\
  forall ev,
    In ev (emitted (restart (r_disk st) tt)
             (processTweets (fixed_env [fresh_post] None true)
                (restart (r_disk st) tt)).2) ->
    ~ is_send ev.
Proof.
  intros st.
  assert (Hok : forall f e, ~ In (LogDeleteError f e) (r_console st)).
  { intros f e. vm_compute. intros [H|[H|[H|[H|[]]]]]; discriminate H. }
  destruct (reset_then_start_is_baseline unlink_ok
              (fixed_env [fresh_post] None true) seen_disk tt tt Hok)
    as (Hd & _ & _ & Hsend).
  split; [exact Hd|exact Hsend].
Defined.

(** X11.  A reset that only half succeeds.  When [processed_ids.json] is
    removed and the unlink of a [bot_state.json] holding a timestamp fails,
    the script still reports that the state has been reset, but the bot
    started afterwards is not in its baseline state: it has forgotten every
    seen identifier while keeping the timestamp. *)
Theorem partial_reset_keeps_timestamp {V W} (fs_unlinkSync : string -> V -> Res unit * V)
    (d : Disk) (v : V) (w : W) (t : Z) (e : error) :
  let st := resetBotState fs_unlinkSync d v in
  bot_state_json d = Content (Some t) -> t <> 0%Z ->
  In (LogDeleted PROCESSED_IDS_FILE) (r_console st) ->
  In (LogDeleteError STATE_FILE e) (r_console st) ->
  In LogHasBeenReset (r_console st) /\
  lastProcessedIds (restart (W:=W) (r_disk st) w) = ∅ /\
  lastFetchTimestamp (restart (W:=W) (r_disk st) w) = Some t.
Proof.
  intros st Hts Hne. subst st. unfold resetBotState, deleteIfExists. cbv zeta.
  destruct d as [ids ts]. simpl in Hts. subst ts.
  destruct ids as [| |ids]; simpl;
    repeat match goal with
           | |- context [fs_unlinkSync ?p ?w] =>
               destruct (fs_unlinkSync p w) as [[[]|?] ?]; simpl
           end;
    intros Hdel Herr;
    repeat (destruct Hdel as [Hdel|Hdel]; try discriminate Hdel);
    repeat (destruct Herr as [Herr|Herr]; try discriminate Herr);
    try contradiction;
    (split; [tauto|]); unfold restart, loadState; simpl;
    destruct (Z.eqb_spec t 0); try contradiction; split; reflexivity.
Qed.

Lemma partial_reset_keeps_timestamp_witness :
  let st := resetBotState unlink_state_locked seen_disk tt in
  In LogHasBeenReset (r_console st) /\
  lastProcessedIds (restart (W:=unit) (r_disk st) tt) = ∅ /\
  lastFetchTimestamp (restart (W:=unit) (r_disk st) tt) = Some 5000%Z.
Proof.
  apply (partial_reset_keeps_timestamp unlink_state_locked seen_disk tt tt 5000
           (Err "EPERM: operation not permitted, unlink")).
  - reflexivity.
  - discriminate.
  - vm_compute. tauto.
  - vm_compute. tauto.
Defined.

(** * The recency filter *)

Lemma sort_insert_Permutation {A} (cmp : A -> A -> option Z) x l :
  Permutation (sort_insert cmp x l) (x :: l).
Proof.
  induction l as [|y l IH]; simpl; [reflexivity|].
  destruct (default 0%Z (cmp x y) >? 0)%Z; [|reflexivity].
  rewrite IH. apply perm_swap.
Qed.

Lemma sort_Permutation {A} (cmp : A -> A -> option Z) l :
  Permutation (sort cmp l) l.
Proof.
  induction l as [|x l IH]; simpl; [reflexivity|].
  rewrite sort_insert_Permutation, IH. reflexivity.
Qed.

Lemma filter_Permutation_list {A} (p : A -> bool) l l' :
  Permutation l l' -> Permutation (List.filter p l) (List.filter p l').
Proof.
  induction 1 as [|x l l' _ IH|x y l|l l' l'' _ IH1 _ IH2]; simpl.
  - reflexivity.
  - destruct (p x); [constructor|]; exact IH.
  - destruct (p x), (p y); try reflexivity. apply perm_swap.
  - etransitivity; eassumption.
Qed.

Lemma newest_first_insert x l :
  sort_time x <> None -> Forall (fun t => sort_time t <> None) l ->
  newest_first l -> newest_first (sort_insert by_created_desc x l).
Proof.
  intros Hx. induction l as [|y l IH]; intros Hl Hs; simpl.
  - split; [constructor|exact I].
  - apply Forall_cons_1 in Hl as [Hy Hl]. destruct Hs as [Hys Hs].
    unfold by_created_desc at 1.
    destruct (sort_time x) as [tx|] eqn:Htx; [|congruence].
    destruct (sort_time y) as [ty|] eqn:Hty; [|congruence].
    simpl. destruct (Z.gtb_spec (ty - tx) 0) as [Hgt|Hle].
    + split; [|apply IH; assumption].
      apply List.Forall_forall. intros z Hz.
      apply sort_insert_In in Hz as [->|Hz].
      * unfold sort_key. rewrite Htx, Hty. simpl. lia.
      * apply (Forall_In _ _ _ Hys Hz).
    + split; [|split; assumption].
      constructor.
      * unfold sort_key. rewrite Htx, Hty. simpl. lia.
      * eapply Forall_impl; [exact Hys|]. intros z Hz. simpl in Hz.
        unfold sort_key in *. rewrite Htx, Hty in *. simpl in *. lia.
Qed.

Lemma newest_first_sort l :
  Forall (fun t => sort_time t <> None) l -> newest_first (sort by_created_desc l).
Proof.
  induction l as [|x l IH]; intros Hl; simpl; [exact I|].
  apply Forall_cons_1 in Hl as [Hx Hl].
  apply newest_first_insert; [exact Hx| |apply IH, Hl].
  apply List.Forall_forall. intros z Hz. apply sort_In in Hz.
  apply (Forall_In _ _ _ Hl Hz).
Qed.

Lemma newest_first_filter (p : Tweet -> bool) l :
  newest_first l -> newest_first (List.filter p l).
Proof.
  induction l as [|x l IH]; simpl; [auto|]. intros [Hx Hs].
  destruct (p x); [|apply IH, Hs]. split; [|apply IH, Hs].
  apply List.Forall_forall. intros z Hz. apply List.filter_In in Hz as [Hz _].
  apply (Forall_In _ _ _ Hx Hz).
Qed.

Lemma newest_first_lookup l : newest_first l ->
  forall i j a b, (i < j)%nat -> l !! i = Some a -> l !! j = Some b ->
    (sort_key b <= sort_key a)%Z.
Proof.
  induction l as [|x l IH]; intros Hs i j a b Hij Ha Hb; [discriminate|].
  destruct Hs as [Hx Hs]. destruct j as [|j]; [lia|]. simpl in Hb.
  destruct i as [|i]; simpl in Ha.
  - injection Ha as ->. apply (Forall_In _ _ _ Hx).
    apply list_elem_of_In. eapply list_elem_of_lookup_2. exact Hb.
  - apply (IH Hs i j); [lia|assumption|assumption].
Qed.

(** X12.  The posts that a cycle processes are the fetched posts inside the
    window, each as often as the feed holds it, and, when no [created_at] of
    the feed is unparsable, in the order newest first: a post is never
    processed before a newer one of the same batch. *)
Theorem recent_posts_newest_first (now : Z) (tweets : list Tweet) :
  Forall (fun t => tw_created_at t <> DateInvalid) tweets ->
  let L := recentTweets_of now tweets in
  Permutation L (List.filter (is_recent now) tweets) /\
  forall i j a b, (i < j)%nat -> L !! i = Some a -> L !! j = Some b ->
    exists ta tb,
      tw_created_at a = DateAt ta /\ tw_created_at b = DateAt tb /\
      (tb <= ta)%Z.
Proof.
  intros Hvalid L. split.
  - apply filter_Permutation_list, sort_Permutation.
  - intros i j a b Hij Ha Hb.
    assert (Hs : newest_first L).
    { apply newest_first_filter, newest_first_sort.
      eapply Forall_impl; [exact Hvalid|]. intros t Ht. simpl in Ht.
      unfold sort_time. destruct (tw_created_at t); congruence. }
    pose proof (newest_first_lookup L Hs i j a b Hij Ha Hb) as Hle.
    assert (Hrec : forall t k, L !! k = Some t -> exists c, tw_created_at t = DateAt c).
    { intros t k Hk. apply list_elem_of_lookup_2, list_elem_of_In in Hk.
      apply recentTweets_of_In in Hk as [_ Hk]. unfold is_recent, tweetTime in Hk.
      destruct (tw_created_at t); try discriminate. eauto. }
    destruct (Hrec a i Ha) as (ta & Hta). destruct (Hrec b j Hb) as (tb & Htb).
    exists ta, tb. split; [exact Hta|]. split; [exact Htb|].
    unfold sort_key, sort_time in Hle. rewrite Hta, Htb in Hle. exact Hle.
Qed.

Lemma recent_posts_newest_first_witness :
  recentTweets_of 100000 [stale_post; post "5" 98000 (Some alice); fresh_post]
  = [fresh_post; post "5" 98000 (Some alice)] /\
  forall i j a b, (i < j)%nat ->
    recentTweets_of 100000 [stale_post; post "5" 98000 (Some alice); fresh_post]
      !! i = Some a ->
    recentTweets_of 100000 [stale_post; post "5" 98000 (Some alice); fresh_post]
      !! j = Some b ->
    exists ta tb,
      tw_created_at a = DateAt ta /\ tw_created_at b = DateAt tb /\
      (tb <= ta)%Z.
Proof.
  split; [reflexivity|].
  apply (recent_posts_newest_first 100000
           [stale_post; post "5" 98000 (Some alice); fresh_post]).
  repeat constructor; discriminate.
Defined.

(** * What a later cycle publishes *)

Section Published.
Context {W : Type} (env : Env W).
Implicit Types (s : St W) (tweet : Tweet).

Lemma senders_step s0 s s' evs :
  senders_have_users s0 s ->
  trace s' = trace s ++ evs -> Forall sender_has_user evs ->
  senders_have_users s0 s'.
Proof.
  intros (evs0 & Htr0 & H0) Htr Hevs. exists (evs0 ++ evs).
  rewrite Htr, Htr0, app_assoc. split; [reflexivity|].
  apply Forall_app. split; assumption.
Qed.

Lemma cycle_senders_have_users s : senders_have_users s (processTweets env s).2.
Proof.
  apply (preserves_processTweets env (senders_have_users s)).
  - split.
    + intros s1 w Hs1. exact Hs1.
    + intros s1 l Hs1. exact Hs1.
    + intros s1 ev Hev Hs1. apply (senders_step s s1 _ [ev] Hs1); [reflexivity|].
      constructor; [|constructor]. destruct ev; simpl in *; tauto.
  - intros id s1 Hs1. apply (senders_step s s1 _ [EvMarkSeen id] Hs1);
      [reflexivity|repeat constructor].
  - intros t s1 Hs1. apply (senders_step s s1 _ [EvSetTimestamp t] Hs1);
      [reflexivity|repeat constructor].
  - intros s1 Hs1.
    destruct (saveState_effect env s1) as (ok1 & rest & _ & _ & _ & Htr & _ & Hrest).
    apply (senders_step s s1 _ _ Hs1 Htr).
    destruct ok1; [destruct Hrest as [ok2 ->]|subst rest]; repeat constructor.
  - intros tweet s1 Hs1.
    destruct (seen (lastProcessedIds s1) (tw_id tweet)) eqn:Hseen.
    { rewrite (processTweet_seen _ _ _ Hseen). exact Hs1. }
    destruct (tw_user tweet) as [user|] eqn:Huser.
    + destruct (processTweet_events env tweet user s1 Huser Hseen)
        as (evs1 & tail & Hem & Hmedia & Htail).
      destruct (processTweet_unseen_effect env tweet s1 Hseen)
        as (_ & _ & _ & evs & Htr & _).
      rewrite (emitted_app _ _ _ Htr) in Hem.
      apply (senders_step s s1 _ _ Hs1 Htr). rewrite Hem.
      constructor; [exact I|]. apply Forall_app. split.
      * eapply Forall_impl; [exact Hmedia|]. intros ev Hev.
        destruct ev; simpl in *; tauto.
      * destruct Htail as [->|(e & ok & rest & -> & Hfile)]; [constructor|].
        constructor; [simpl; congruence|].
        eapply Forall_impl; [exact Hfile|]. intros ev Hev.
        destruct ev; simpl in *; try tauto. subst t. congruence.
    + pose proof (processTweet_no_user env tweet s1 Huser Hseen) as Hem.
      destruct (processTweet_unseen_effect env tweet s1 Hseen)
        as (_ & _ & _ & evs & Htr & _).
      rewrite (emitted_app _ _ _ Htr) in Hem.
      apply (senders_step s s1 _ _ Hs1 Htr). rewrite Hem. repeat constructor.
  - exists []. rewrite app_nil_r. split; [reflexivity|constructor].
Qed.

(** The trace of one iteration extends the trace. *)
Lemma processTweet_trace tweet s :
  exists evs, trace (processTweet env tweet s).2 = trace s ++ evs.
Proof.
  destruct (seen (lastProcessedIds s) (tw_id tweet)) eqn:Hseen.
  - rewrite (processTweet_seen _ _ _ Hseen). exists []. rewrite app_nil_r. reflexivity.
  - destruct (processTweet_unseen_effect env tweet s Hseen)
      as (_ & _ & _ & evs & Htr & _). eauto.
Qed.

Lemma forEach_trace L : forall s,
  exists evs, trace (forEach (processTweet env) L s).2 = trace s ++ evs.
Proof.
  intros s. destruct (forEach_loop_effect env L s) as (_ & _ & _ & evs & Htr & _).
  eauto.
Qed.

(** The loop sends an embed for every identifier of the list that is not
    marked, provided the posts that carry it can be published. *)
Lemma forEach_publishes L : forall s id,
  seen (lastProcessedIds s) id = false ->
  (exists t, In t L /\ tw_id t = id) ->
  (forall t, In t L -> tw_id t = id ->
     publishable env t /\ tw_created_at t <> DateInvalid) ->
  exists t e ok,
    In t L /\ tw_id t = id /\
    In (EvSendEmbed t e ok) (emitted s (forEach (processTweet env) L s).2).
Proof.
  induction L as [|x L IH]; intros s id Hseen (t & Hin & Hid) Huser.
  { destruct Hin. }
  simpl. unfold bind.
  destruct (processTweet_trace x s) as (evsx & Htrx).
  assert (Hok : (processTweet env x s).1 = Ok tt).
  { destruct (seen (lastProcessedIds s) (tw_id x)) eqn:Hsx.
    - rewrite (processTweet_seen _ _ _ Hsx). reflexivity.
    - rewrite (processTweet_unseen _ _ _ Hsx). reflexivity. }
  destruct (processTweet env x s) as [r s1] eqn:Hrun. simpl in Hok, Htrx. subst r.
  destruct (forEach_trace L s1) as (evsL & HtrL).
  assert (Hem : emitted s (forEach (processTweet env) L s1).2 = evsx ++ evsL).
  { apply emitted_app. rewrite HtrL, Htrx, app_assoc. reflexivity. }
  destruct (decide (tw_id x = id)) as [Hx|Hx].
  - rewrite <- Hx in Hseen.
    destruct (Huser x (or_introl eq_refl) Hx) as [(user & Hux & Hcard & Hraw) Hdate].
    destruct (processTweet_sends env x user s Hux Hseen Hcard Hdate Hraw)
      as (evs1 & e & ok & rest & Hemx & _).
    rewrite Hrun in Hemx. simpl in Hemx.
    rewrite (emitted_app _ _ _ Htrx) in Hemx.
    exists x, e, ok. split; [left; reflexivity|]. split; [exact Hx|].
    rewrite Hem, Hemx. apply in_or_app. left. right.
    apply in_or_app. right. left. reflexivity.
  - assert (Hseen1 : seen (lastProcessedIds s1) id = false).
    { destruct (seen (lastProcessedIds s) (tw_id x)) eqn:Hsx.
      - rewrite (processTweet_seen _ _ _ Hsx) in Hrun. injection Hrun as <-.
        exact Hseen.
      - destruct (processTweet_unseen_effect env x s Hsx) as (Hi & _).
        rewrite Hrun in Hi. simpl in Hi. rewrite Hi, seen_insert.
        destruct (decide _); [contradiction|exact Hseen]. }
    destruct (IH s1 id Hseen1) as (t' & e & ok & Hin' & Hid' & Hsent).
    + destruct Hin as [->|Hin]; [contradiction|]. exists t. auto.
    + intros t' Hin'. apply Huser. right. exact Hin'.
    + exists t', e, ok. split; [right; exact Hin'|]. split; [exact Hid'|].
      rewrite Hem. apply in_or_app. right.
      rewrite (emitted_app _ _ _ HtrL) in Hsent. exact Hsent.
Qed.

End Published.

(** X13.  In a cycle after the first one, whatever is sent is sent for a
    post of the fetched batch that is inside the 60 second window (its
    [created_at] parses, and a post dated in the future counts as recent),
    that has a user, and whose identifier was not marked when the cycle
    started. *)
Theorem only_recent_new_posts_are_published {W} (env : Env W) (s : St W)
    (tweets : list Tweet) (currentFetchTime currentTime : Z)
    (t : Tweet) (ev : event) :
  later_cycle env s tweets currentFetchTime currentTime ->
  In ev (emitted s (processTweets env s).2) -> sent_for t ev ->
  In t tweets /\
  (exists c, tw_created_at t = DateAt c /\ (currentTime - c <= ONE_MINUTE)%Z) /\
  tw_user t <> None /\
  seen (lastProcessedIds s) (tw_id t) = false.
Proof.
  intros Hlater Hin Hsent.
  assert (Hrecent : In t (recentTweets_of currentTime tweets)).
  { destruct (later_cycle_shape env s tweets currentFetchTime currentTime Hlater)
      as (evs0 & evsL & tail & Hem & H0 & HL & Htail & _).
    rewrite Hem in Hin. apply in_app_or in Hin as [Hin|Hin].
    - apply (Forall_In _ _ _ H0) in Hin. destruct ev; simpl in *; tauto.
    - apply in_app_or in Hin as [Hin|Hin].
      + destruct (Forall_In _ _ _ HL Hin) as (t' & Ht' & [Hev| ->]); [|destruct Hsent].
        destruct ev; simpl in *; try tauto; congruence.
      + apply (Forall_In _ _ _ Htail) in Hin. destruct ev; simpl in *; tauto. }
  apply recentTweets_of_In in Hrecent as [Hfeed Hrec].
  split; [exact Hfeed|]. split; [|split].
  - unfold is_recent, tweetTime in Hrec.
    destruct (tw_created_at t) as [| |c]; try discriminate.
    exists c. split; [reflexivity|]. apply Z.leb_le, Hrec.
  - destruct (cycle_senders_have_users env s) as (evs & Htr & Hevs).
    rewrite (emitted_app _ _ _ Htr) in Hin.
    apply (Forall_In _ _ _ Hevs) in Hin.
    destruct ev; simpl in *; try tauto; congruence.
  - destruct (seen (lastProcessedIds s) (tw_id t)) eqn:Hseen; [|reflexivity].
    destruct (cycle_keeps_seen env s (tw_id t) Hseen) as (_ & evs & Htr & Hevs).
    rewrite (emitted_app _ _ _ Htr) in Hin.
    apply (Forall_In _ _ _ Hevs) in Hin. exfalso. apply Hin.
    destruct ev; simpl in *; try tauto; congruence.
Qed.

Lemma only_recent_new_posts_are_published_witness :
  In fresh_post [stale_post; fresh_post] /\
  (exists c, tw_created_at fresh_post = DateAt c /\ (100000 - c <= ONE_MINUTE)%Z) /\
  tw_user fresh_post <> None /\
  seen (lastProcessedIds running_state) (tw_id fresh_post) = false.
Proof.
  apply (only_recent_new_posts_are_published
           (fixed_env [stale_post; fresh_post] None true) running_state
           [stale_post; fresh_post] 100000 100000 fresh_post
           (EvSendEmbed fresh_post (initial_embed alice fresh_post (TsAt 99000)) true)).
  - exact stale_post_cycle.
  - vm_compute. tauto.
  - reflexivity.
Defined.

(** X14.  No new post is skipped: in a cycle after the first one, for every
    fetched post inside the window whose identifier is not marked when the
    cycle starts (and is not the name of a member of [Object.prototype]),
    an embed is sent, or its sending attempted, for a post of the batch with
    this identifier, provided the recent posts that carry the identifier can
    be published: they have a user, and the builder accepts their card
    (author, links, a text of at most 4096 characters) and the image URLs
    of the raw post. *)
Theorem new_recent_post_is_published {W} (env : Env W) (s : St W)
    (tweets : list Tweet) (currentFetchTime currentTime : Z) (t : Tweet) :
  later_cycle env s tweets currentFetchTime currentTime ->
  In t tweets -> is_recent currentTime t = true ->
  unseen (lastProcessedIds s) (tw_id t) = true ->
  (forall t', In t' tweets -> is_recent currentTime t' = true ->
     tw_id t' = tw_id t -> publishable env t') ->
  exists t' e ok,
    In t' tweets /\ is_recent currentTime t' = true /\ tw_id t' = tw_id t /\
    In (EvSendEmbed t' e ok) (emitted s (processTweets env s).2).
Proof.
  intros Hlater Hin Hrec Hunseen Huser.
  pose proof (unseen_not_seen _ _ Hunseen) as Hseen.
  destruct (later_cycle_run env s tweets currentFetchTime currentTime Hlater)
    as (s4 & (Hi4 & _ & _ & evs0 & Htr4 & _) & Hrun).
  set (L := recentTweets_of currentTime tweets) in *.
  assert (HinL : In t L) by (apply recentTweets_of_In; auto).
  destruct L as [|x L'] eqn:HL; [destruct HinL|].
  rewrite Hrun, processRecent_cons.
  destruct (forEach_publishes env (x :: L') s4 (tw_id t)) as (t' & e & ok & Hin' & Hid & Hsent).
  - rewrite Hi4. exact Hseen.
  - exists t. auto.
  - intros t' Hin' Hid. rewrite <- HL in Hin'.
    apply recentTweets_of_In in Hin' as [H1 H2]. split; [apply Huser; assumption|].
    unfold is_recent, tweetTime in H2. destruct (tw_created_at t'); discriminate.
  - rewrite <- HL in Hin'. apply recentTweets_of_In in Hin' as [H1 H2].
    exists t', e, ok. split; [exact H1|]. split; [exact H2|]. split; [exact Hid|].
    destruct (forEach_trace env (x :: L') s4) as (evsL & HtrL).
    rewrite (emitted_app _ _ _ HtrL) in Hsent.
    set (sL := (forEach (processTweet env) (x :: L') s4).2) in *.
    destruct (saveState_effect env (setTimestamp currentFetchTime sL).2)
      as (ok1 & rest & _ & _ & _ & Htr & _).
    rewrite (emitted_app _ _
               (evs0 ++ evsL ++ EvSetTimestamp currentFetchTime
                  :: EvWriteFile (IdsData (lastProcessedIds sL)) ok1 :: rest)).
    + apply in_or_app. right. apply in_or_app. left. exact Hsent.
    + rewrite Htr. simpl. rewrite HtrL, Htr4, <- !app_assoc. reflexivity.
Qed.

Lemma new_recent_post_is_published_witness :
  exists t' e ok,
    In t' [stale_post; fresh_post] /\ is_recent 100000 t' = true /\
    tw_id t' = tw_id fresh_post /\
    In (EvSendEmbed t' e ok)
       (emitted running_state
          (processTweets (fixed_env [stale_post; fresh_post] None true)
             running_state).2).
Proof.
  apply (new_recent_post_is_published
           (fixed_env [stale_post; fresh_post] None true) running_state
           [stale_post; fresh_post] 100000 100000 fresh_post).
  - exact stale_post_cycle.
  - right. left. reflexivity.
  - reflexivity.
  - reflexivity.
  - intros t' [<-|[<-|[]]] _ _; exists alice; repeat split.
Defined.

(** * The published message *)

Lemma description_of_not_blank tweet : blank (description_of tweet) = false.
Proof.
  unfold description_of. destruct (has_text tweet) eqn:H.
  - unfold has_text in H. apply andb_prop in H as [_ H].
    apply negb_true_iff in H. exact H.
  - destruct (tweetType tweet =? "retweet")%string; [reflexivity|].
    destruct (tw_attachments tweet) as [a|]; [|reflexivity].
    destruct (nonempty (media_keys a)); reflexivity.
Qed.

Lemma resolved_card user tweet ts l :
  (forall ms, tw_created_at tweet = DateAt ms -> ts = TsAt ms) ->
  resolved tweet (initial_embed user tweet ts) l ->
  card_of user tweet (embed_to_send tweet l).
Proof.
  intros Hms [(H1 & H2 & H3 & H4 & H5 & H6 & H7 & H8 & notes & H9) _].
  unfold embed_to_send, card_of.
  destruct (truthy (tw_in_reply_to_user_id tweet)); simpl;
    rewrite ?H1, ?H2, ?H4, ?H5, ?H6, ?H7, ?H8, ?H9; simpl;
    (split; [reflexivity|]); (split; [reflexivity|]); (split; [reflexivity|]);
    (split; [reflexivity|]); (split; [reflexivity|]);
    (split; [apply description_of_not_blank|]);
    (split; [exact Hms|]); (split; [reflexivity|]);
    exists notes; rewrite append_assoc; reflexivity.
Qed.

Lemma file_part_well_formed tweet e0 ok l rest :
  resolved tweet e0 l -> file_part tweet ok l rest ->
  Forall well_formed_message rest.
Proof.
  intros [_ Hv] [->|(_ & Hfound & path & Hp & Hrest)]; [constructor|].
  destruct (Hv Hfound) as (fn & Hfn & Hname & Hpath).
  rewrite Hp in Hpath. injection Hpath as ->. rewrite Hname in Hrest.
  destruct Hrest as [->| ->]; repeat constructor; exists fn; auto.
Qed.

Section WellFormed.
Context {W : Type} (env : Env W).
Implicit Types (s : St W) (tweet : Tweet).

Lemma well_formed_step s0 s s' evs :
  messages_well_formed s0 s ->
  trace s' = trace s ++ evs -> Forall well_formed_message evs ->
  messages_well_formed s0 s'.
Proof.
  intros (evs0 & Htr0 & H0) Htr Hevs. exists (evs0 ++ evs).
  rewrite Htr, Htr0, app_assoc. split; [reflexivity|].
  apply Forall_app. split; assumption.
Qed.

Lemma cycle_messages_well_formed s0 :
  preserves (messages_well_formed s0) (processTweets env).
Proof.
  apply preserves_processTweets.
  - split.
    + intros s1 w Hs1. exact Hs1.
    + intros s1 l Hs1. exact Hs1.
    + intros s1 ev Hev Hs1. apply (well_formed_step s0 s1 _ [ev] Hs1); [reflexivity|].
      constructor; [|constructor]. destruct ev; simpl in *; tauto.
  - intros id s1 Hs1. apply (well_formed_step s0 s1 _ [EvMarkSeen id] Hs1);
      [reflexivity|repeat constructor].
  - intros t s1 Hs1. apply (well_formed_step s0 s1 _ [EvSetTimestamp t] Hs1);
      [reflexivity|repeat constructor].
  - intros s1 Hs1.
    destruct (saveState_effect env s1) as (ok1 & rest & _ & _ & _ & Htr & _ & Hrest).
    apply (well_formed_step s0 s1 _ _ Hs1 Htr).
    destruct ok1; [destruct Hrest as [ok2 ->]|subst rest]; repeat constructor.
  - intros tweet s1 Hs1.
    destruct (seen (lastProcessedIds s1) (tw_id tweet)) eqn:Hseen.
    { rewrite (processTweet_seen _ _ _ Hseen). exact Hs1. }
    destruct (processTweet_unseen_effect env tweet s1 Hseen)
      as (_ & _ & _ & evs & Htr & _).
    apply (well_formed_step s0 s1 _ _ Hs1 Htr).
    destruct (tw_user tweet) as [user|] eqn:Huser.
    + destruct (processTweet_shape env tweet user s1 Huser Hseen)
        as (evs1 & tail & Hem & Hmedia & Hcase).
      rewrite (emitted_app _ _ _ Htr) in Hem. rewrite Hem.
      constructor; [exact I|]. apply Forall_app. split.
      * eapply Forall_impl; [exact Hmedia|]. intros ev Hev.
        destruct ev; simpl in *; tauto.
      * destruct Hcase
          as [(-> & _)|(ts & l3 & ok & rest & Hms & -> & _ & Hres & Hfile)];
          [constructor|].
        constructor.
        -- exists user. split; [exact Huser|].
           apply (resolved_card user tweet ts l3 Hms Hres).
        -- apply (file_part_well_formed tweet _ ok l3 rest Hres Hfile).
    + pose proof (processTweet_no_user env tweet s1 Huser Hseen) as Hem.
      rewrite (emitted_app _ _ _ Htr) in Hem. rewrite Hem. repeat constructor.
Qed.

Lemma runCycles_messages_well_formed n s :
  Forall well_formed_message (emitted s (runCycles env n s).2).
Proof.
  destruct (preserves_runCycles env _ n (cycle_messages_well_formed s) s)
    as (evs & Htr & Hevs).
  - exists []. rewrite app_nil_r. split; [reflexivity|constructor].
  - rewrite (emitted_app _ _ _ Htr). exact Hevs.
Qed.

End WellFormed.

(** X15.  Every embed that the bot sends is the card of its post, whatever
    media resolution found or failed to find: the post has a user, the embed
    links to https://twitter.com/<username>/status/<id>, its description is
    the text of the post or one of three placeholders and is never blank,
    its timestamp is the creation time of the post, its first field is the
    tweet link, followed by the reply field exactly when the post is a
    reply, and its footer starts with the kind of the post; media resolution
    only adds the image and appends notes to the footer. *)
Theorem every_embed_is_the_card_of_its_post {W} (env : Env W) (n : nat) (s : St W)
    (t : Tweet) (e : Embed) (ok : bool) :
  In (EvSendEmbed t e ok) (emitted s (runCycles env n s).2) ->
  exists user, tw_user t = Some user /\ card_of user t e.
Proof.
  intros Hin.
  apply (Forall_In _ _ _ (runCycles_messages_well_formed env n s) Hin).
Qed.

Lemma every_embed_is_the_card_of_its_post_witness :
  exists user, tw_user fresh_post = Some user /\
    card_of user fresh_post
      (footer_note "Video will follow" (initial_embed alice fresh_post (TsAt 99000))).
Proof.
  apply (every_embed_is_the_card_of_its_post
           (fixed_env [fresh_post] (Some detail_with_video) true) 1 running_state
           fresh_post _ true).
  vm_compute. tauto.
Defined.

(** X16.  Every video file that the bot sends is the cached download of its
    post: the attachment is named video_<id>.mp4, or video_parent_<id>.mp4
    for the video of the parent post, and the file sent is the one of that
    name in the cache directory. *)
Theorem every_video_file_is_named_after_its_post {W} (env : Env W) (n : nat)
    (s : St W) (t : Tweet) (path : string) (name : option string) (ok : bool) :
  In (EvSendFile t path name ok) (emitted s (runCycles env n s).2) ->
  exists fn, good_name t fn /\ name = Some fn /\ path = path_join CACHE_DIR fn.
Proof.
  intros Hin.
  apply (Forall_In _ _ _ (runCycles_messages_well_formed env n s) Hin).
Qed.

Lemma every_video_file_is_named_after_its_post_witness :
  exists fn, good_name fresh_post fn /\ Some "video_2.mp4" = Some fn /\
    "cache/video_2.mp4" = path_join CACHE_DIR fn.
Proof.
  apply (every_video_file_is_named_after_its_post
           (fixed_env [fresh_post] (Some detail_with_video) true) 1 running_state
           fresh_post "cache/video_2.mp4" (Some "video_2.mp4") true).
  vm_compute. tauto.
Defined.

Lemma emitted_same {W} (s : St W) : emitted s s = [].
Proof. apply emitted_app. rewrite app_nil_r. reflexivity. Qed.

(** In the events of a post the events of the file are those after the
    embed. *)
Lemma file_event_in_rest id evs1 t e ok rest ev :
  Forall media_event evs1 ->
  In ev (EvMarkSeen id :: evs1 ++ EvSendEmbed t e ok :: rest) ->
  file_event t ev -> In ev rest.
Proof.
  intros Hmedia [<-|Hin] Hfile; [destruct Hfile|].
  apply in_app_or in Hin as [Hin|[<-|Hin]].
  - apply (Forall_In _ _ _ Hmedia) in Hin. destruct ev; simpl in *; tauto.
  - destruct Hfile.
  - exact Hin.
Qed.

(** X17.  The video of a post is sent only after its embed has gone
    through, as the next message, and only when a download succeeded; the
    removal of the cached file is scheduled, five seconds later, exactly
    when the video message went through.  When the embed cannot be sent
    nothing follows it: a video downloaded for it is neither sent nor
    removed from the cache. *)
Theorem video_file_follows_its_embed {W} (env : Env W) (s : St W) (tweet : Tweet) :
  let evs := emitted s (processTweet env tweet s).2 in
  (forall t path name ok, In (EvSendFile t path name ok) evs ->
     t = tweet /\ saved evs /\
     exists pre e post,
       evs = pre ++ EvSendEmbed tweet e true :: EvSendFile tweet path name ok :: post) /\
  (forall path ms, In (EvCleanupScheduled path ms) evs <->
     ms = 5000%Z /\ exists name, In (EvSendFile tweet path name true) evs) /\
  (forall e, In (EvSendEmbed tweet e false) evs ->
     forall ev, In ev evs -> ~ file_event tweet ev).
Proof.
  intros evs.
  destruct (seen (lastProcessedIds s) (tw_id tweet)) eqn:Hseen.
  { subst evs. rewrite (processTweet_seen _ _ _ Hseen). simpl. rewrite emitted_same.
    split; [intros ? ? ? ? []|]. split; [|intros ? []].
    intros path ms. split; [intros []|intros (_ & name & [])]. }
  destruct (tw_user tweet) as [user|] eqn:Huser.
  2:{ subst evs. rewrite (processTweet_no_user env tweet s Huser Hseen).
      split; [intros ? ? ? ? [H|[]]; discriminate H|].
      split; [|intros ? [H|[]]; discriminate H].
      intros path ms. split; [intros [H|[]]; discriminate H|].
      intros (_ & name & [H|[]]). discriminate H. }
  destruct (processTweet_shape env tweet user s Huser Hseen)
    as (evs1 & tail & Hem & Hmedia & Hcase).
  fold evs in Hem. clearbody evs. subst evs.
  destruct Hcase as [(-> & _)|(ts & l3 & ok & rest & _ & -> & HK & _ & Hfile)].
  { rewrite app_nil_r.
    assert (Hno : forall ev, In ev (EvMarkSeen (tw_id tweet) :: evs1) ->
              media_event ev \/ ev = EvMarkSeen (tw_id tweet)).
    { intros ev [<-|Hin]; [right; reflexivity|].
      left. apply (Forall_In _ _ _ Hmedia Hin). }
    split; [|split].
    - intros t path name ok Hin.
      destruct (Hno _ Hin) as [H|H]; [destruct H|discriminate H].
    - intros path ms. split.
      + intros Hin. destruct (Hno _ Hin) as [H|H]; [destruct H|discriminate H].
      + intros (_ & name & Hin).
        destruct (Hno _ Hin) as [H|H]; [destruct H|discriminate H].
    - intros e Hin. destruct (Hno _ Hin) as [H|H]; [destruct H|discriminate H]. }
  assert (Hiff : hasFoundVideo l3 = true -> saved evs1).
  { intros Hf. rewrite Hf in HK. destruct HK as (pre & p & -> & _).
    exists p. apply in_or_app. right. left. reflexivity. }
  set (e0 := embed_to_send tweet l3) in *.
  assert (Hrest : forall ev,
            In ev (EvMarkSeen (tw_id tweet) :: evs1 ++ EvSendEmbed tweet e0 ok :: rest) ->
            match ev with
            | EvSendFile _ _ _ _ | EvCleanupScheduled _ _ => In ev rest
            | _ => True
            end).
  { intros ev [<-|Hin]; [exact I|].
    apply in_app_or in Hin as [Hin|[<-|Hin]]; [|exact I|destruct ev; auto].
    apply (Forall_In _ _ _ Hmedia) in Hin. destruct ev; simpl in *; tauto. }
  assert (Hin_rest : forall ev, In ev rest ->
            In ev (EvMarkSeen (tw_id tweet) :: evs1 ++ EvSendEmbed tweet e0 ok :: rest)).
  { intros ev Hin. right. apply in_or_app. right. right. exact Hin. }
  split; [|split].
  - intros t path name ok' Hin. apply Hrest in Hin.
    destruct Hfile as [->|(-> & Hfound & p & Hp & Hcase)]; [destruct Hin|].
    assert (Hsaved : saved (EvMarkSeen (tw_id tweet)
                              :: evs1 ++ EvSendEmbed tweet e0 true :: rest)).
    { apply Hiff in Hfound as (q & Hq). exists q. right. apply in_or_app. left. exact Hq. }
    destruct Hcase as [->| ->].
    + destruct Hin as [H|[]]. injection H as <- <- <- <-.
      split; [reflexivity|]. split; [exact Hsaved|].
      exists (EvMarkSeen (tw_id tweet) :: evs1), e0, []. rewrite <- app_comm_cons.
      reflexivity.
    + destruct Hin as [H|[H|[]]]; [|discriminate H]. injection H as <- <- <- <-.
      split; [reflexivity|]. split; [exact Hsaved|].
      exists (EvMarkSeen (tw_id tweet) :: evs1), e0, [EvCleanupScheduled p 5000].
      rewrite <- app_comm_cons. reflexivity.
  - intros path ms. split.
    + intros Hin. apply Hrest in Hin.
      destruct Hfile as [->|(-> & Hfound & p & Hp & [->| ->])].
      * destruct Hin.
      * destruct Hin as [H|[]]. discriminate H.
      * destruct Hin as [H|[H|[]]]; [discriminate H|]. injection H as <- <-.
        split; [reflexivity|]. exists (videoFilename l3). apply Hin_rest.
        left. reflexivity.
    + intros (-> & name & Hin). apply Hrest in Hin.
      destruct Hfile as [->|(-> & Hfound & p & Hp & [->| ->])].
      * destruct Hin.
      * destruct Hin as [H|[]]. discriminate H.
      * destruct Hin as [H|[H|[]]]; [|discriminate H]. injection H as <- <-.
        apply Hin_rest. right. left. reflexivity.
  - intros e Hin ev Hev Hfe.
    assert (Hok : ok = false).
    { destruct Hin as [H|Hin]; [discriminate H|].
      apply in_app_or in Hin as [Hin|[H|Hin]].
      - apply (Forall_In _ _ _ Hmedia) in Hin. destruct Hin.
      - injection H as _ ->. reflexivity.
      - destruct Hfile as [->|(-> & _ & p & _ & [->| ->])].
        + destruct Hin.
        + destruct Hin as [H|[]]. discriminate H.
        + destruct Hin as [H|[H|[]]]; discriminate H. }
    subst ok. destruct Hfile as [->|(Hf & _)]; [|discriminate Hf].
    pose proof (file_event_in_rest _ _ _ _ _ _ _ Hmedia Hev Hfe) as [].
Qed.

(** * What is sent is marked, and stays so *)

Section Marked.
Context {W : Type} (env : Env W).
Implicit Types (s : St W) (tweet : Tweet).

Lemma sent_are_marked_step s0 s s' evs :
  sent_are_marked s0 s ->
  trace s' = trace s ++ evs ->
  (forall id, seen (lastProcessedIds s) id = true ->
     seen (lastProcessedIds s') id = true) ->
  (forall ev id, In ev evs -> sent_for_id id ev ->
     seen (lastProcessedIds s') id = true) ->
  sent_are_marked s0 s'.
Proof.
  intros (evs0 & Htr0 & H0) Htr Hmono Hevs. exists (evs0 ++ evs).
  rewrite Htr, Htr0, app_assoc. split; [reflexivity|].
  intros ev id Hin Hsent. apply in_app_or in Hin as [Hin|Hin].
  - apply Hmono. apply (H0 ev id Hin Hsent).
  - apply (Hevs ev id Hin Hsent).
Qed.

Lemma cycle_sent_are_marked s0 :
  preserves (sent_are_marked s0) (processTweets env).
Proof.
  apply preserves_processTweets.
  - split.
    + intros s1 w Hs1. exact Hs1.
    + intros s1 l Hs1. exact Hs1.
    + intros s1 ev Hev Hs1.
      apply (sent_are_marked_step s0 s1 _ [ev] Hs1); [reflexivity|auto|].
      intros ev' id [<-|[]] Hsent. destruct ev; simpl in *; tauto.
  - intros id s1 Hs1.
    apply (sent_are_marked_step s0 s1 _ [EvMarkSeen id] Hs1); [reflexivity| |].
    + intros id' H. simpl. apply seen_insert_mono, H.
    + intros ev id' [<-|[]] [].
  - intros t s1 Hs1.
    apply (sent_are_marked_step s0 s1 _ [EvSetTimestamp t] Hs1); [reflexivity|auto|].
    intros ev id' [<-|[]] [].
  - intros s1 Hs1.
    destruct (saveState_effect env s1) as (ok1 & rest & _ & Hi & _ & Htr & _ & Hrest).
    apply (sent_are_marked_step s0 s1 _ _ Hs1 Htr).
    + intros id H. rewrite Hi. exact H.
    + intros ev id Hin Hsent. exfalso.
      destruct Hin as [<-|Hin]; [exact Hsent|].
      destruct ok1; [destruct Hrest as [ok2 ->]|subst rest]; simpl in Hin;
        [destruct Hin as [<-|[]]; exact Hsent|exact Hin].
  - intros tweet s1 Hs1.
    destruct (seen (lastProcessedIds s1) (tw_id tweet)) eqn:Hseen.
    { rewrite (processTweet_seen _ _ _ Hseen). exact Hs1. }
    destruct (processTweet_unseen_effect env tweet s1 Hseen)
      as (Hi & _ & _ & evs & Htr & Hevs).
    apply (sent_are_marked_step s0 s1 _ _ Hs1 Htr).
    + intros id H. rewrite Hi. apply seen_insert_mono, H.
    + intros ev id [<-|Hin] Hsent; [destruct Hsent|].
      apply (Forall_In _ _ _ Hevs) in Hin. rewrite Hi, seen_insert.
      destruct (decide (tw_id tweet = id)) as [_|Hne]; [reflexivity|].
      exfalso. apply Hne. destruct ev; simpl in *; try tauto; congruence.
Qed.

Lemma cycle_marks_what_it_sends s ev id :
  In ev (emitted s (processTweets env s).2) -> sent_for_id id ev ->
  seen (lastProcessedIds (processTweets env s).2) id = true.
Proof.
  intros Hin Hsent.
  destruct (cycle_sent_are_marked s s) as (evs & Htr & H).
  - exists []. rewrite app_nil_r. split; [reflexivity|]. intros ? ? [].
  - rewrite (emitted_app _ _ _ Htr) in Hin. apply (H ev id Hin Hsent).
Qed.

Lemma runCycles_keeps_seen n s id :
  seen (lastProcessedIds s) id = true ->
  forall ev, In ev (emitted s (runCycles env n s).2) -> ~ sent_for_id id ev.
Proof.
  intros Hseen.
  assert (H : seen_kept id s (runCycles env n s).2).
  { apply (preserves_runCycles env (seen_kept id s) n).
    - intros s1 Hs1. destruct Hs1 as (Hseen1 & evs1 & Htr1 & Hevs1).
      destruct (cycle_keeps_seen env s1 id Hseen1) as (Hseen2 & evs2 & Htr2 & Hevs2).
      split; [exact Hseen2|]. exists (evs1 ++ evs2).
      rewrite Htr2, Htr1, app_assoc. split; [reflexivity|].
      apply Forall_app. split; assumption.
    - split; [exact Hseen|]. exists []. rewrite app_nil_r.
      split; [reflexivity|constructor]. }
  destruct H as (_ & evs & Htr & Hevs).
  rewrite (emitted_app _ _ _ Htr). intros ev Hin. apply (Forall_In _ _ _ Hevs Hin).
Qed.

End Marked.

(** X18.  A send that fails is not tried again: once a cycle has sent, or
    tried to send, a message for a post, the identifier of the post is
    marked when the cycle ends, and no later cycle of the process sends
    anything for it, whether the send went through or threw. *)
Theorem failed_send_is_not_retried {W} (env env' : Env W) (s : St W)
    (t : Tweet) (e : Embed) (ok : bool) (n : nat) :
  In (EvSendEmbed t e ok) (emitted s (processTweets env s).2) ->
  let s' := (processTweets env s).2 in
  seen (lastProcessedIds s') (tw_id t) = true /\
  forall ev, In ev (emitted s' (runCycles env' n s').2) ->
    ~ sent_for_id (tw_id t) ev.
Proof.
  intros Hin s'.
  assert (Hseen : seen (lastProcessedIds s') (tw_id t) = true).
  { apply (cycle_marks_what_it_sends env s _ (tw_id t) Hin). reflexivity. }
  split; [exact Hseen|]. apply runCycles_keeps_seen, Hseen.
Qed.

Lemma failed_send_is_not_retried_witness :
  let env := {| Date_now := fun w => (100000%Z, w);
                axios_get_feed := fun w =>
                  (Ok {| status := 200; data := FeedArray [fresh_post] |}, w);
                axios_get_tweet := fun _ w => (Ok {| status := 200; data := None |}, w);
                axios_get_media := fun _ w => (Ok tt, w);
                fs_writeFileSync := fun _ w => (Written, w);
                channels_fetch := fun w => (Ok true, w);
                channel_send := fun _ w => (Throw (Err "Missing Permissions"), w);
                builder_accepts := fun _ => true |} in
  let s' := (processTweets env running_state).2 in
  seen (lastProcessedIds s') (tw_id fresh_post) = true /\
  forall ev, In ev (emitted s' (runCycles (fixed_env [fresh_post] None true) 3 s').2) ->
    ~ sent_for_id (tw_id fresh_post) ev.
Proof.
  intros env.
  apply (failed_send_is_not_retried env (fixed_env [fresh_post] None true)
           running_state fresh_post
           (initial_embed alice fresh_post (TsAt 99000)) false 3).
  vm_compute. tauto.
Defined.

(** X19.  A cycle that was saved is not replayed after a restart.  When a
    cycle after the first one finds recent posts and both writes of its
    final save go through, the files hold exactly the seen identifiers and
    the timestamp of the process, and a process started on them, in any
    environment and over any number of cycles, sends nothing for a post for
    which that cycle sent something. *)
Theorem saved_cycle_is_not_replayed {W} (env env' : Env W) (s : St W)
    (tweets : list Tweet) (currentFetchTime currentTime : Z) (w : W) (n : nat) :
  later_cycle env s tweets currentFetchTime currentTime ->
  recentTweets_of currentTime tweets <> [] ->
  let s' := (processTweets env s).2 in
  (forall d e left, ~ In (EvWriteFile d (Failed e left)) (emitted s s')) ->
  disk s' = {| processed_ids_json := Content (lastProcessedIds s');
               bot_state_json := Content (Some currentFetchTime) |} /\
  forall t e ok, In (EvSendEmbed t e ok) (emitted s s') ->
    forall ev,
      In ev (emitted (restart (disk s') w) (runCycles env' n (restart (disk s') w)).2) ->
      ~ sent_for_id (tw_id t) ev.
Proof.
  intros Hlater Hne s' Hnofail.
  assert (Hdisk : disk s' = {| processed_ids_json := Content (lastProcessedIds s');
                               bot_state_json := Content (Some currentFetchTime) |}).
  { destruct (later_cycle_run env s tweets currentFetchTime currentTime Hlater)
      as (s4 & (_ & _ & _ & evs0 & Htr4 & _) & Hrun).
    destruct (recentTweets_of currentTime tweets) as [|x L'] eqn:HL; [congruence|].
    rewrite processRecent_cons in Hrun.
    destruct (forEach_trace env (x :: L') s4) as (evsL & HtrL).
    set (sL := (forEach (processTweet env) (x :: L') s4).2) in *.
    destruct (saveState_effect env (setTimestamp currentFetchTime sL).2)
      as (ok1 & rest & _ & Hi & _ & Htr & Hd & Hrest).
    rewrite <- Hrun in Hi, Htr, Hd. fold s' in Hi, Htr, Hd.
    assert (Hem : emitted s s'
                  = evs0 ++ evsL ++ EvSetTimestamp currentFetchTime
                    :: EvWriteFile (IdsData (lastProcessedIds sL)) ok1 :: rest).
    { apply emitted_app. rewrite Htr. simpl. rewrite HtrL, Htr4, <- !app_assoc.
      reflexivity. }
    rewrite Hem in Hnofail.
    assert (Hin : forall ev, In ev (EvWriteFile (IdsData (lastProcessedIds sL)) ok1 :: rest) ->
              In ev (evs0 ++ evsL ++ EvSetTimestamp currentFetchTime
                     :: EvWriteFile (IdsData (lastProcessedIds sL)) ok1 :: rest)).
    { intros ev H. apply in_or_app. right. apply in_or_app. right. right. exact H. }
    destruct ok1 as [|e1 l1]; [|exfalso; eapply Hnofail, Hin; left; reflexivity].
    destruct Hrest as [[|e2 l2] ->];
      [|exfalso; eapply Hnofail, Hin; right; left; reflexivity].
    rewrite Hd, Hi. reflexivity. }
  split; [exact Hdisk|].
  intros t e ok Hin.
  apply runCycles_keeps_seen. rewrite Hdisk. unfold restart, loadState. simpl.
  apply (cycle_marks_what_it_sends env s _ (tw_id t) Hin). reflexivity.
Qed.

Lemma saved_cycle_is_not_replayed_witness :
  let env := fixed_env [fresh_post] None true in
  let s' := (processTweets env running_state).2 in
  disk s' = {| processed_ids_json := Content (lastProcessedIds s');
               bot_state_json := Content (Some 100000%Z) |} /\
  forall t e ok, In (EvSendEmbed t e ok) (emitted running_state s') ->
    forall ev,
      In ev (emitted (restart (disk s') tt) (runCycles env 2 (restart (disk s') tt)).2) ->
      ~ sent_for_id (tw_id t) ev.
Proof.
  intros env.
  apply (saved_cycle_is_not_replayed env env running_state [fresh_post]
           100000 100000 tt 2).
  - split; [discriminate|]. eexists _, tt, tt, tt. repeat split; reflexivity.
  - discriminate.
  - intros d e left. vm_compute. intros H.
    repeat (destruct H as [H|H]; [discriminate H|]). exact H.
Defined.

(** X20.  The baseline holds: the posts that the feed shows on the first
    cycle ever are never published by this process, in any number of later
    cycles and whatever the environment then does, even when they are still
    inside the 60 second window. *)
Theorem baseline_posts_are_never_published {W} (env env' : Env W) (s : St W)
    (tweets : list Tweet) (currentFetchTime : Z) (t : Tweet) (n : nat) :
  first_cycle env s tweets currentFetchTime ->
  In t tweets ->
  let s' := (processTweets env s).2 in
  forall ev, In ev (emitted s (runCycles env' n s').2) -> ~ sent_for_id (tw_id t) ev.
Proof.
  intros Hfirst Hin s' ev Hev.
  destruct (first_cycle_trace env s tweets currentFetchTime Hfirst)
    as (evs0 & ok1 & rest & ids & Hem & H0 & Hrest & Hids).
  fold s' in Hem, Hids.
  assert (Hseen : seen (lastProcessedIds s') (tw_id t) = true).
  { rewrite Hids. apply mark_all_seen. right. eauto. }
  assert (Htr1 : exists evs1, trace s' = trace s ++ evs1 /\
                   Forall (fun ev => ~ is_send ev) evs1).
  { destruct (cycle_disk_replayed env s) as (evs1 & Htr1 & _). exists evs1.
    split; [exact Htr1|]. apply List.Forall_forall. intros ev1 Hin1.
    apply (null_timestamp_sends_nothing env s (proj1 Hfirst)).
    rewrite (emitted_app _ _ _ Htr1). exact Hin1. }
  destruct Htr1 as (evs1 & Htr1 & Hevs1).
  destruct (preserves_runCycles env' (fun s2 => exists evs, trace s2 = trace s' ++ evs) n)
    with (s := s') as (evs2 & Htr2).
  { intros s2 (evs & Htr).
    destruct (cycle_disk_replayed env' s2) as (evs' & Htr' & _).
    exists (evs ++ evs'). rewrite Htr', Htr, app_assoc. reflexivity. }
  { exists []. rewrite app_nil_r. reflexivity. }
  assert (Hem2 : emitted s (runCycles env' n s').2 = evs1 ++ evs2).
  { apply emitted_app. rewrite Htr2, Htr1, app_assoc. reflexivity. }
  rewrite Hem2 in Hev. apply in_app_or in Hev as [Hev|Hev].
  - intros Hsent. apply (Forall_In _ _ _ Hevs1 Hev).
    destruct ev; simpl in *; tauto.
  - apply (runCycles_keeps_seen env' n s' (tw_id t) Hseen).
    rewrite (emitted_app _ _ _ Htr2). exact Hev.
Qed.

Lemma baseline_posts_are_never_published_witness :
  let env := fixed_env [stale_post; fresh_post] None true in
  first_cycle env new_state [stale_post; fresh_post] 100000 /\
  forall ev,
    In ev (emitted new_state (runCycles env 3 (processTweets env new_state).2).2) ->
    ~ sent_for_id (tw_id fresh_post) ev.
Proof.
  intros env.
  assert (H : first_cycle env new_state [stale_post; fresh_post] 100000).
  { split; [reflexivity|]. eexists _, tt. split; reflexivity. }
  split; [exact H|].
  apply (baseline_posts_are_never_published env env new_state
           [stale_post; fresh_post] 100000 fresh_post 3 H).
  right. left. reflexivity.
Defined.

(** * The feed request *)

(** X21.  [fetchTweets] accepts status 200 only.  When the server keeps
    answering with another status, the request is made three times, with a
    wait of one second after the first and after the second failure, and
    the call then throws: the error that names the status for a status from
    201 to 299, which [axios] hands over as a response, and the error of
    [axios] itself for any other status, which it does not hand over. *)
Theorem fetchTweets_rejects_other_statuses {W} (env : Env W) (s : St W) (st : Z) :
  st <> 200%Z ->
  (forall w, exists d w', axios_get_feed env w = (axios_result st d, w')) ->
  (fetchTweets env s).1 = Throw (rejection st) /\
  emitted s (fetchTweets env s).2
  = [EvFeedGet; EvAttemptFailed 1 3; EvDelay 1000;
     EvFeedGet; EvAttemptFailed 2 3; EvDelay 1000;
     EvFeedGet; EvAttemptFailed 3 3].
Proof.
  intros Hst Hfeed. unfold fetchTweets, withRetry, MAX_RETRIES, RETRY_DELAY.
  set (fn := (emit EvFeedGet;;
              response <- call (axios_get_feed env);;
              if (status response =? 200)%Z
              then ret match data response with
                       | FeedArray tweets => TArray tweets
                       | FeedOther => TNotArray
                       | FeedNone => TArray []
                       end
              else throw (status_error (status response)))).
  assert (Hfn : forall s1,
            (fn s1).1 = Throw (rejection st) /\
            trace (fn s1).2 = trace s1 ++ [EvFeedGet]).
  { intros s1. subst fn. unfold bind, emit, call. simpl.
    destruct (Hfeed (world s1)) as (d & w' & ->). unfold axios_result, rejection.
    destruct ((200 <=? st) && (st <? 300))%Z; simpl; [|split; reflexivity].
    destruct (Z.eqb_spec st 200); [contradiction|]. split; reflexivity. }
  rewrite (retry_loop_exhausts fn 3 1000 3 1 4 s ErrUndefined (fun _ => rejection st));
    [|lia|lia|intros i _; apply Hfn].
  split; [reflexivity|]. apply emitted_app. simpl.
  unfold after_failure, bind, emit. simpl.
  repeat match goal with
         | |- context [trace (fn ?x).2] => rewrite (proj2 (Hfn x)); simpl
         end.
  rewrite <- !app_assoc. reflexivity.
Qed.

(** A server that answers 503: [axios] rejects, three times. *)
Lemma fetchTweets_rejects_other_statuses_witness :
  (fetchTweets (plain_env 503 FeedNone (Ok true) true) running_state).1
  = Throw (Err "Request failed with status code 503") /\
  emitted running_state
    (fetchTweets (plain_env 503 FeedNone (Ok true) true) running_state).2
  = [EvFeedGet; EvAttemptFailed 1 3; EvDelay 1000;
     EvFeedGet; EvAttemptFailed 2 3; EvDelay 1000;
     EvFeedGet; EvAttemptFailed 3 3].
Proof.
  apply (fetchTweets_rejects_other_statuses
           (plain_env 503 FeedNone (Ok true) true) running_state 503).
  - discriminate.
  - intros w. exists FeedNone, w. reflexivity.
Defined.

(** * A photo of the detail record *)

Section DetailPhoto.
Context {W : Type} (env : Env W).
Implicit Types (s : St W) (tweet : Tweet).

(** Media resolution when the detail record has no video and has a photo
    whose URL is a media URL that the builder accepts. *)
Lemma resolveMedia_detail_photo tweet d photos photo e0 s :
  detail_is env tweet (Ok (Some d)) ->
  detail_video_source tweet d = None ->
  d_photos d = Some photos -> List.find is_media_photo photos = Some photo ->
  image_accepted env (ph_url photo) = true ->
  loc s = initLocals e0 ->
  exists evs,
    Forall quiet_event evs /\
    trace (resolveMedia env tweet s).2 = trace s ++ evs /\
    (resolveMedia env tweet s).1 = Ok tt /\
    loc (resolveMedia env tweet s).2
    = (if (1 <? length photos)%nat
       then set_embed (footer_note (pretty (length photos) +:+ " images"))
       else fun l => l)
        (set_hasFoundImage (set_embed (setImage (ph_url photo)) (initLocals e0))).
Proof.
  intros Hfetch Hsrc Hphotos Hfind Hacc Hloc.
  destruct (detail_video_source_none tweet d Hsrc) as (H1 & H2 & H3).
  destruct (fetchSingleTweet_post env (tw_id tweet) s) as (Hl1 & evs & Htr1 & Hevs).
  set (s1 := (fetchSingleTweet env (tw_id tweet) s).2) in *.
  assert (Hne : nonempty (d_photos d) = true).
  { rewrite Hphotos. destruct photos; [discriminate Hfind|reflexivity]. }
  assert (Hdetail : detail_block env tweet s
                    = useImage env (ph_url photo) (length photos) s1).
  { unfold detail_block. rewrite (bind_ok _ _ s (Some d) (Hfetch s)). fold s1.
    rewrite (bind_run _ _ s1 tt s1 (detail_video_pass env tweet d s1 (or_introl H1))).
    rewrite (bind_run _ _ s1 tt s1
               (detail_parent_video_pass env tweet d s1 (or_introl H2))).
    rewrite (bind_run _ _ s1 tt s1
               (detail_mediaDetails_video_pass env tweet d s1 (or_introl H3))).
    unfold detail_photos. rewrite bind_getLoc, Hl1, Hloc.
    cbn [hasFoundVideo initLocals negb]. rewrite Hne, Hphotos. cbn [default].
    unfold id. rewrite Hfind. reflexivity. }
  exists evs. split; [exact Hevs|].
  set (l2 := (if (1 <? length photos)%nat
              then set_embed (footer_note (pretty (length photos) +:+ " images"))
              else fun l => l)
               (set_hasFoundImage (set_embed (setImage (ph_url photo)) (loc s1)))).
  assert (Htry : try_catch (detail_block env tweet) (fun _ => ret tt) s
                 = (Ok tt, set_loc l2 s1)).
  { unfold try_catch. rewrite Hdetail, (useImage_locals env _ _ s1 Hacc). reflexivity. }
  assert (Himg : hasFoundImage l2 = true).
  { subst l2. destruct (1 <? length photos)%nat; reflexivity. }
  assert (Hres : resolveMedia env tweet s = (Ok tt, set_loc l2 s1)).
  { unfold resolveMedia. rewrite (bind_run _ _ s tt _ Htry).
    rewrite (bind_run _ _ _ tt _
               (raw_block_pass env tweet (set_loc l2 s1) (or_intror Himg))).
    apply attachments_note_pass. right. exact Himg. }
  rewrite Hres. simpl. split; [exact Htr1|]. split; [reflexivity|].
  subst l2. rewrite Hl1, Hloc. reflexivity.
Qed.

End DetailPhoto.

(** X22.  A photo of the detail record.  When the detail record of a new
    post has no video that the cascade takes (no MP4 variant in its own
    video nor in the one of the parent, no video with an MP4 variant among
    its media details) and has photos, and the builder accepts the card of
    the post and the URL of the photo, the embed shows the first photo whose
    URL contains "media/", the footer notes the number of photos when there
    is more than one, and nothing else happens: the raw post is not
    consulted, no download is requested and no file is sent. *)
Theorem detail_photo_is_shown {W} (env : Env W) (s : St W) (tweet : Tweet)
    (user : User) (d : TweetDetail) (photos : list Photo) (photo : Photo) :
  tw_user tweet = Some user ->
  unseen (lastProcessedIds s) (tw_id tweet) = true ->
  card_accepted env user tweet = true ->
  tw_created_at tweet <> DateInvalid ->
  detail_is env tweet (Ok (Some d)) ->
  detail_video_source tweet d = None ->
  d_photos d = Some photos -> List.find is_media_photo photos = Some photo ->
  image_accepted env (ph_url photo) = true ->
  exists quiet e ok,
    emitted s (processTweet env tweet s).2
    = EvMarkSeen (tw_id tweet) :: quiet ++ [EvSendEmbed tweet e ok] /\
    Forall quiet_event quiet /\
    e_image e = ph_url photo /\
    e_footer e
    = capitalize (tweetType tweet) +:+ " • via Twitter Feed"
      +:+ images_note (length photos).
Proof.
  intros Huser Hunseen Hcard Hdate Hfetch Hsrc Hphotos Hfind Hacc.
  pose proof (unseen_not_seen _ _ Hunseen) as Hseen.
  rewrite (processTweet_unseen _ _ _ Hseen). cbn [snd].
  set (s0 := (markSeen (tw_id tweet) s).2).
  destruct (handleTweet_steps env tweet user s0 Huser)
    as [(err & s1 & _ & _ & [H|H])|(_ & _ & ts & s2 & Hts & Hloc2 & Htr2 & ->)];
    try congruence.
  set (e0 := initial_embed user tweet ts) in *.
  destruct (resolveMedia_detail_photo env tweet d photos photo e0 s2
              Hfetch Hsrc Hphotos Hfind Hacc Hloc2)
    as (quiet & Hquiet & Htr3 & Hok & Hloc).
  rewrite (bind_ok _ _ s2 tt Hok).
  set (s3 := (resolveMedia env tweet s2).2) in *.
  destruct (publish_shape env tweet s3) as (ok & rest & Htr4 & Hfile).
  assert (Hnovideo : hasFoundVideo (loc s3) = false).
  { rewrite Hloc. destruct (1 <? length photos)%nat; reflexivity. }
  assert (Hrest : rest = []).
  { destruct Hfile as [->|(_ & Hv & _)]; [reflexivity|congruence]. }
  subst rest.
  exists quiet, (embed_to_send tweet (loc s3)), ok. split; [|split; [exact Hquiet|split]].
  - apply emitted_app. rewrite Htr4, Htr3, Htr2. subst s0. simpl.
    rewrite <- !app_assoc. reflexivity.
  - apply List.find_some in Hfind as [_ Hphoto].
    unfold is_media_photo in Hphoto. apply andb_prop in Hphoto as [Htruthy _].
    unfold embed_to_send. rewrite Hloc.
    destruct (truthy (tw_in_reply_to_user_id tweet));
      destruct (1 <? length photos)%nat; simpl; rewrite Htruthy; reflexivity.
  - unfold embed_to_send, images_note. rewrite Hloc.
    destruct (truthy (tw_in_reply_to_user_id tweet));
      destruct (1 <? length photos)%nat; simpl;
      rewrite ?append_assoc, ?append_empty_r; reflexivity.
Qed.

Lemma detail_photo_is_shown_witness :
  exists quiet e ok,
    emitted running_state
      (processTweet (fixed_env [fresh_post] (Some detail_with_photos) true)
         fresh_post running_state).2
    = EvMarkSeen (tw_id fresh_post) :: quiet ++ [EvSendEmbed fresh_post e ok] /\
    Forall quiet_event quiet /\
    e_image e = Some "https://pbs.twimg.com/media/first.jpg" /\
    e_footer e
    = capitalize (tweetType fresh_post) +:+ " • via Twitter Feed" +:+ images_note 2.
Proof.
  apply (detail_photo_is_shown (fixed_env [fresh_post] (Some detail_with_photos) true)
           running_state fresh_post alice detail_with_photos
           [{| ph_url := Some "https://pbs.twimg.com/profile_images/1/avatar.jpg" |};
            {| ph_url := Some "https://pbs.twimg.com/media/first.jpg" |}]
           {| ph_url := Some "https://pbs.twimg.com/media/first.jpg" |}).
  - reflexivity.
  - reflexivity.
  - reflexivity.
  - discriminate.
  - intros s1. reflexivity.
  - reflexivity.
  - reflexivity.
  - reflexivity.
  - reflexivity.
Defined.

(** * The configuration check *)

Lemma prefix_spec (n h : string) :
  String.prefix n h = true <-> exists post, h = n +:+ post.
Proof.
  revert n. induction h as [|b h IH]; intros n; destruct n as [|a n]; simpl.
  - split; [intros _; exists ""; reflexivity|reflexivity].
  - split; [discriminate|]. intros (post & H). discriminate H.
  - split; [intros _; exists (String b h); reflexivity|reflexivity].
  - destruct (Ascii.ascii_dec a b) as [->|Hne].
    + rewrite IH. split; intros (post & H); exists post.
      * rewrite H. reflexivity.
      * change (String b h = String b (n +:+ post)) in H. congruence.
    + split; [discriminate|]. intros (post & H).
      change (String b h = String a (n +:+ post)) in H. congruence.
Qed.

Lemma includes_spec (n h : string) :
  includes n h = true <-> exists pre post, h = pre +:+ n +:+ post.
Proof.
  induction h as [|c h IH].
  - change (includes n "") with (String.prefix n "" || false).
    rewrite orb_false_r, prefix_spec. split.
    + intros (post & H). exists "", post. exact H.
    + intros (pre & post & H). destruct pre as [|x pre]; [|discriminate H].
      exists post. exact H.
  - change (includes n (String c h))
      with (String.prefix n (String c h) || includes n h).
    rewrite orb_true_iff, prefix_spec, IH. split.
    + intros [(post & H)|(pre & post & H)].
      * exists "", post. exact H.
      * exists (String c pre), post. rewrite H. reflexivity.
    + intros (pre & post & H). destruct pre as [|x pre].
      * left. exists post. exact H.
      * right. exists pre, post.
        change (String c h = String x (pre +:+ n +:+ post)) in H. congruence.
Qed.

(** X23.  [validateApiConfig] refuses the configuration only when the API
    URL is missing or empty.  Any other URL is accepted; it is accepted
    without a warning exactly when "api-neo.bullx.io" occurs in it, so a
    URL of another service only draws a warning and the bot starts. *)
Theorem validateApiConfig_accepts_any_url (url : option string) :
  ((validateApiConfig url).1 = true <-> exists u, url = Some u /\ u <> "") /\
  (validateApiConfig url = (true, []) <->
   exists pre post, url = Some (pre +:+ "api-neo.bullx.io" +:+ post)).
Proof.
  unfold validateApiConfig, truthy. destruct url as [u|]; simpl.
  - destruct (String.eqb_spec u "") as [->|Hne]; simpl.
    + split.
      * split; [discriminate|]. intros (u & H & Hu). congruence.
      * split; [discriminate|]. intros (pre & post & H).
        injection H as H. destruct pre; discriminate H.
    + split.
      * split; [intros _; eauto|reflexivity].
      * destruct (includes "api-neo.bullx.io" u) eqn:Hinc; simpl.
        -- apply includes_spec in Hinc as (pre & post & ->).
           split; [intros _; eauto|reflexivity].
        -- split; [discriminate|]. intros (pre & post & H). injection H as ->.
           assert (Hyes : includes "api-neo.bullx.io"
                            (pre +:+ "api-neo.bullx.io" +:+ post) = true)
             by (apply includes_spec; eauto).
           congruence.
  - split.
    + split; [discriminate|]. intros (u & H & _). discriminate H.
    + split; [discriminate|]. intros (pre & post & H). discriminate H.
Qed.

(** * When the detail record is not available *)

Section NoDetail.
Context {W : Type} (env : Env W) (tweet : Tweet).
Implicit Types (s : St W).

(** The video of the extended entities: whether the download goes through,
    throws (and is caught) or is not tried, the block ends normally, records
    no image, and unless it records a video leaves the embed as it was. *)
Lemma raw_extended_video_post medias s :
  (raw_extended_video env tweet medias s).1 = Ok tt /\
  hasFoundImage (loc (raw_extended_video env tweet medias s).2)
  = hasFoundImage (loc s) /\
  (hasFoundVideo (loc s) = false ->
   hasFoundVideo (loc (raw_extended_video env tweet medias s).2) = false ->
   embed (loc (raw_extended_video env tweet medias s).2) = embed (loc s)).
Proof.
  unfold raw_extended_video.
  destruct (List.find is_video_media medias) as [videoMedia|]; [|auto].
  destruct (media_variants videoMedia) as [variants|]; [|auto].
  unfold try_catch.
  destruct (mp4Variants variants) as [|best others]; [simpl; auto|].
  unfold bind.
  destruct (attachVideo_post env (v_url best) ("video_" +:+ tw_id tweet +:+ ".mp4")
              "Video will follow" s) as (evs1 & _ & _ & _ & Hres).
  destruct (attachVideo env _ _ _ s) as [[found|e] s1]; simpl in *.
  - destruct Hres as (_ & _ & ->). simpl. split; [reflexivity|].
    split; [reflexivity|]. discriminate.
  - destruct Hres as (_ & ->). simpl. auto.
Qed.

(** The image steps only set locals.  When no video is recorded they leave
    the image that [raw_image] describes. *)
Lemma raw_extended_image_run medias s :
  image_accepted env (first_media_url medias) = true ->
  hasFoundImage (loc s) = false ->
  exists l',
    raw_extended_image env medias s = (Ok tt, set_loc l' s) /\
    hasFoundVideo l' = hasFoundVideo (loc s) /\
    videoPath l' = videoPath (loc s) /\
    (hasFoundVideo (loc s) = true -> l' = loc s) /\
    (hasFoundVideo (loc s) = false ->
     if truthy (first_media_url medias)
     then hasFoundImage l' = true /\ e_image (embed l') = first_media_url medias
     else l' = loc s).
Proof.
  intros Hacc Hi. unfold raw_extended_image. rewrite bind_getLoc, Hi.
  destruct (hasFoundVideo (loc s)) eqn:Hv; simpl.
  - exists (loc s). repeat split; auto; try discriminate; destruct s; reflexivity.
  - destruct (truthy (first_media_url medias)) eqn:Ht.
    + destruct (useImage_run env (first_media_url medias) (length medias) s Hacc)
        as (l' & -> & Hv' & Hi' & Hp' & Him').
      rewrite Ht in Him'. rewrite Hv in Hv'. exists l'.
      repeat split; auto. discriminate.
    + exists (loc s). repeat split; auto; try discriminate; destruct s; reflexivity.
Qed.

Lemma raw_images_accepted_extended :
  raw_images_accepted env tweet = true ->
  image_accepted env (first_media_url (extended_medias tweet)) = true.
Proof.
  unfold raw_images_accepted, raw_image_urls. simpl.
  intros H. apply andb_prop in H as [H _]. exact H.
Qed.

Lemma raw_images_accepted_entities entities :
  raw_images_accepted env tweet = true ->
  tw_entities tweet = Some entities ->
  image_accepted env (first_media_url (default [] (ent_media entities))) = true /\
  image_accepted env
    (first_image_url (List.filter (fun url => nonempty (u_images url))
                        (default [] (ent_urls entities)))) = true /\
  image_accepted env
    (List.hd None (List.map u_expanded_url
                     (List.filter is_photo_link (default [] (ent_urls entities)))))
  = true.
Proof.
  unfold raw_images_accepted, raw_image_urls. intros H Hent. rewrite Hent in H.
  simpl in H. apply andb_prop in H as [_ H].
  apply andb_prop in H as [H1 H]. apply andb_prop in H as [H2 H].
  apply andb_prop in H as [H3 _]. auto.
Qed.

(** What [useImage] leaves of the locals. *)
Lemma useImage_image url count s :
  image_accepted env url = true ->
  exists l',
    useImage env url count s = (Ok tt, set_loc l' s) /\
    hasFoundVideo l' = hasFoundVideo (loc s) /\
    videoPath l' = videoPath (loc s) /\
    hasFoundImage l' = true /\
    e_image (embed l') = if truthy url then url else None.
Proof.
  intros Hacc. destruct (useImage_run env url count s Hacc)
    as (l' & Hrun & Hv & Hi & Hp & Him). eauto 10.
Qed.

Lemma raw_entities_urls_run entities s :
  tw_entities tweet = Some entities ->
  raw_images_accepted env tweet = true ->
  hasFoundImage (loc s) = false ->
  exists l',
    raw_entities_urls env entities s = (Ok tt, set_loc l' s) /\
    hasFoundVideo l' = hasFoundVideo (loc s) /\
    videoPath l' = videoPath (loc s) /\
    (e_image (embed (loc s)) = None -> e_image (embed l') = raw_urls_image entities).
Proof.
  intros Hent Hraw Hi.
  destruct (raw_images_accepted_entities entities Hraw Hent) as (_ & H2 & H3).
  unfold raw_entities_urls, raw_urls_image. rewrite bind_getLoc, Hi.
  destruct (nonempty (ent_urls entities)); simpl.
  2:{ exists (loc s). split; [destruct s; reflexivity|]. auto. }
  destruct (List.filter (fun url => nonempty (u_images url)) _) as [|url rest] eqn:Hf.
  - rewrite (bind_run _ _ s tt s eq_refl), bind_getLoc, Hi. simpl.
    destruct (List.map u_expanded_url _) as [|first others] eqn:Hm.
    + exists (loc s). split; [destruct s; reflexivity|]. auto.
    + simpl in H3.
      destruct (useImage_image first (length (first :: others)) s H3)
        as (l' & Hrun & Hv & Hp & _ & Himg).
      exists l'. split; [exact Hrun|]. auto.
  - destruct (useImage_image (first_image_url (url :: rest)) (length (url :: rest)) s H2)
      as (l' & Hrun & Hv & Hp & Hi' & Himg).
    rewrite (bind_run _ _ s tt _ Hrun), bind_getLoc. simpl. rewrite Hi'. simpl.
    exists l'. split; [reflexivity|]. auto.
Qed.

Lemma raw_entities_run s :
  raw_images_accepted env tweet = true ->
  exists l',
    raw_entities env tweet s = (Ok tt, set_loc l' s) /\
    hasFoundVideo l' = hasFoundVideo (loc s) /\
    videoPath l' = videoPath (loc s) /\
    (hasFoundVideo (loc s) = true \/ hasFoundImage (loc s) = true ->
     l' = loc s) /\
    (hasFoundVideo (loc s) = false -> hasFoundImage (loc s) = false ->
     e_image (embed (loc s)) = None ->
     e_image (embed l') = raw_entities_image tweet).
Proof.
  intros Hraw. unfold raw_entities, raw_entities_image. rewrite bind_getLoc.
  assert (Hskip : exists l',
    (Ok tt, s) = (Ok tt, set_loc l' s) /\
    hasFoundVideo l' = hasFoundVideo (loc s) /\
    videoPath l' = videoPath (loc s) /\ l' = loc s).
  { exists (loc s). split; [destruct s; reflexivity|]. auto. }
  destruct (tw_entities tweet) as [entities|] eqn:Hent.
  2:{ destruct Hskip as (l' & Hrun & Hv & Hp & Hl). exists l'.
      split; [exact Hrun|]. split; [exact Hv|]. split; [exact Hp|].
      split; [auto|]. intros _ _ H. rewrite Hl. exact H. }
  destruct (hasFoundImage (loc s)) eqn:Hi; simpl.
  { destruct Hskip as (l' & Hrun & Hv & Hp & Hl). exists l'.
    split; [exact Hrun|]. split; [exact Hv|]. split; [exact Hp|].
    split; [auto|]. discriminate. }
  destruct (hasFoundVideo (loc s)) eqn:Hv; simpl.
  { destruct Hskip as (l' & Hrun & Hv' & Hp & Hl). exists l'.
    split; [exact Hrun|]. split; [exact Hv'|]. split; [exact Hp|].
    split; [auto|]. discriminate. }
  destruct (raw_images_accepted_entities entities Hraw Hent) as (H1 & _ & _).
  assert (Hurls : exists l',
            raw_entities_urls env entities s = (Ok tt, set_loc l' s) /\
            hasFoundVideo l' = false /\ videoPath l' = videoPath (loc s) /\
            (e_image (embed (loc s)) = None ->
             e_image (embed l') = raw_urls_image entities)).
  { destruct (raw_entities_urls_run entities s Hent Hraw Hi)
      as (l' & Hrun & Hv1 & Hp1 & Him1). exists l'. rewrite Hv in Hv1. auto. }
  assert (Hrest : (ret tt;; raw_entities_urls env entities) s
                  = raw_entities_urls env entities s) by reflexivity.
  destruct (nonempty (ent_media entities)); simpl.
  - destruct (truthy (first_media_url (default [] (ent_media entities)))) eqn:Ht.
    + destruct (useImage_image _ 1 s H1) as (l1 & Hrun & Hv1 & Hp1 & Hi1 & Him1).
      rewrite (bind_run _ _ s tt _ Hrun).
      unfold raw_entities_urls. rewrite bind_getLoc. simpl. rewrite Hi1. simpl.
      exists l1. split; [reflexivity|]. split; [congruence|]. split; [exact Hp1|].
      split; [intros [H|H]; discriminate H|]. intros _ _ _. rewrite Him1, Ht.
      reflexivity.
    + rewrite Hrest. destruct Hurls as (l' & Hrun & Hv1 & Hp1 & Him1). exists l'.
      split; [exact Hrun|]. split; [exact Hv1|]. split; [exact Hp1|].
      split; [intros [H|H]; discriminate H|]. intros _ _ H. apply Him1, H.
  - rewrite Hrest. destruct Hurls as (l' & Hrun & Hv1 & Hp1 & Him1). exists l'.
    split; [exact Hrun|]. split; [exact Hv1|]. split; [exact Hp1|].
    split; [intros [H|H]; discriminate H|]. intros _ _ H. apply Him1, H.
Qed.

Lemma raw_image_no_extended :
  extended_medias tweet = [] -> raw_image tweet = raw_entities_image tweet.
Proof. unfold raw_image. intros ->. reflexivity. Qed.

(** The raw tier started where nothing is recorded yet: it ends normally,
    and unless it records a video, the image is the one that the raw post
    gives. *)
Lemma raw_block_image s :
  raw_images_accepted env tweet = true ->
  hasFoundVideo (loc s) = false -> hasFoundImage (loc s) = false ->
  e_image (embed (loc s)) = None ->
  (raw_block env tweet s).1 = Ok tt /\
  (hasFoundVideo (loc (raw_block env tweet s).2) = false ->
   e_image (embed (loc (raw_block env tweet s).2)) = raw_image tweet).
Proof.
  intros Hraw Hv Hi Hnone. unfold raw_block. rewrite bind_getLoc, Hi, Hv. simpl.
  unfold raw_extended_entities.
  destruct (extended_medias tweet) as [|media medias] eqn:Hext.
  - rewrite (bind_run _ _ s tt s eq_refl).
    destruct (raw_entities_run s Hraw) as (l' & -> & Hv' & _ & _ & Him).
    split; [reflexivity|]. simpl. intros _.
    rewrite (raw_image_no_extended Hext). apply Him; auto.
  - destruct (raw_extended_video_post (media :: medias) s) as (Hok & Hi1 & He1).
    rewrite Hi in Hi1.
    pose proof (raw_images_accepted_extended Hraw) as Hacc. rewrite Hext in Hacc.
    destruct (raw_extended_image_run (media :: medias)
                (raw_extended_video env tweet (media :: medias) s).2 Hacc Hi1)
      as (l2 & Heq2 & Hv2 & _ & Hsame2 & Him2).
    set (s1 := (raw_extended_video env tweet (media :: medias) s).2) in *.
    assert (Hext_run :
      (raw_extended_video env tweet (media :: medias);;
       raw_extended_image env (media :: medias)) s
      = (Ok tt, set_loc l2 s1)).
    { rewrite (bind_ok _ _ s tt Hok). exact Heq2. }
    rewrite (bind_run _ _ s tt _ Hext_run).
    destruct (raw_entities_run (set_loc l2 s1) Hraw)
      as (l3 & -> & Hv3 & _ & Hsame3 & Him3).
    simpl in Hv3, Hsame3, Him3. split; [reflexivity|]. simpl. intros Hv3'.
    assert (Hv1 : hasFoundVideo (loc s1) = false) by congruence.
    unfold raw_image. rewrite Hext.
    specialize (Him2 Hv1).
    destruct (truthy (first_media_url (media :: medias))).
    + destruct Him2 as [Hi2 Him2]. rewrite Hsame3 by (right; exact Hi2).
      exact Him2.
    + subst l2. apply Him3; [exact Hv1|exact Hi1|].
      rewrite (He1 Hv Hv1). exact Hnone.
Qed.

End NoDetail.

(** X24.  When the detail record of a new post cannot be had (the request
    fails on every attempt, or the endpoint returns no data) and the builder
    accepts the card of the post and the image URLs of the raw post, the
    post is still published from the raw post alone: the embed is sent, and
    unless a video of the raw post is downloaded its image is the one that
    the raw post gives (the first extended entity, else the first entity,
    else the first URL with an image list, else the first photo link) and no
    file follows. *)
Theorem missing_detail_falls_back_to_raw_post {W} (env : Env W) (s : St W)
    (tweet : Tweet) (user : User) :
  tw_user tweet = Some user ->
  unseen (lastProcessedIds s) (tw_id tweet) = true ->
  card_accepted env user tweet = true ->
  tw_created_at tweet <> DateInvalid ->
  raw_images_accepted env tweet = true ->
  (forall s1 d, (fetchSingleTweet env (tw_id tweet) s1).1 <> Ok (Some d)) ->
  exists evs1 e ok rest,
    emitted s (processTweet env tweet s).2
    = EvMarkSeen (tw_id tweet) :: evs1 ++ EvSendEmbed tweet e ok :: rest /\
    Forall media_event evs1 /\
    (~ saved evs1 -> e_image e = raw_image tweet /\ rest = []).
Proof.
  intros Huser Hunseen Hcard Hdate Hraw Hfetch.
  pose proof (unseen_not_seen _ _ Hunseen) as Hseen.
  rewrite (processTweet_unseen _ _ _ Hseen). cbn [snd].
  destruct (handleTweet_steps env tweet user (markSeen (tw_id tweet) s).2 Huser)
    as [(err & s1 & _ & _ & [H|H])|(_ & _ & ts & s2 & Hts & Hloc2 & Htr2 & ->)];
    try congruence.
  set (e0 := initial_embed user tweet ts) in *.
  destruct (fetchSingleTweet_post env (tw_id tweet) s2) as (Hl3 & q & Htr3 & Hq).
  set (s3 := (fetchSingleTweet env (tw_id tweet) s2).2) in *.
  assert (Htry : try_catch (detail_block env tweet) (fun _ => ret tt) s2 = (Ok tt, s3)).
  { unfold try_catch, detail_block, bind. subst s3.
    pose proof (Hfetch s2) as Hno.
    destruct (fetchSingleTweet env (tw_id tweet) s2) as [[[d|]|err] s3']; simpl in *.
    - exfalso. apply (Hno d). reflexivity.
    - reflexivity.
    - reflexivity. }
  destruct (raw_block_image env tweet s3 Hraw) as (Hok4 & Him4);
    try (rewrite Hl3, Hloc2; reflexivity).
  set (s4 := (raw_block env tweet s3).2) in *.
  destruct (attachments_note_run tweet s4) as (l5 & Hrun5 & Him5 & Hv5 & _).
  assert (Hres : resolveMedia env tweet s2 = (Ok tt, set_loc l5 s4)).
  { unfold resolveMedia. rewrite (bind_run _ _ s2 tt s3 Htry).
    rewrite (bind_ok _ _ s3 tt Hok4). exact Hrun5. }
  pose proof (tris_resolveMedia env s2 tweet s2) as HK.
  pose proof (frames_same_memory media_event (resolveMedia env tweet) s2
                (frames_resolveMedia env tweet)) as (_ & _ & _ & evs1 & Htr5 & Hme).
  rewrite Hres in HK, Htr5. simpl in Htr5.
  destruct HK as (evs1' & Htr5' & HK).
  { split; [|rewrite Hloc2; reflexivity].
    exists []. rewrite app_nil_r, Hloc2. split; [reflexivity|]. intros (p & []). }
  simpl in Htr5', HK.
  assert (evs1' = evs1) as ->.
  { rewrite Htr5 in Htr5'. apply app_inv_head in Htr5'. congruence. }
  rewrite (bind_run _ _ s2 tt _ Hres).
  destruct (publish_shape env tweet (set_loc l5 s4)) as (ok & rest & Htr6 & Hfile).
  simpl in Htr6, Hfile.
  exists evs1, (embed_to_send tweet l5), ok, rest.
  split; [|split; [exact Hme|]].
  - apply emitted_app. rewrite Htr6, Htr5, Htr2. simpl.
    rewrite <- !app_assoc. reflexivity.
  - intros Hns.
    assert (Hv4 : hasFoundVideo l5 = false).
    { destruct (hasFoundVideo l5); [|reflexivity].
      destruct HK as (pre & p & -> & _). destruct Hns. exists p.
      apply in_or_app. right. left. reflexivity. }
    split.
    + unfold embed_to_send.
      destruct (truthy (tw_in_reply_to_user_id tweet)); simpl;
        rewrite Him5; apply Him4; congruence.
    + destruct Hfile as [->|(_ & Hv & _)]; [reflexivity|congruence].
Qed.

Lemma missing_detail_falls_back_to_raw_post_witness :
  exists evs1 e ok rest,
    emitted running_state
      (processTweet (fixed_env [picture_post] None true) picture_post
         running_state).2
    = EvMarkSeen (tw_id picture_post) :: evs1 ++ EvSendEmbed picture_post e ok :: rest /\
    Forall media_event evs1 /\
    (~ saved evs1 -> e_image e = raw_image picture_post /\ rest = []).
Proof.
  apply (missing_detail_falls_back_to_raw_post (fixed_env [picture_post] None true)
           running_state picture_post alice).
  - reflexivity.
  - reflexivity.
  - reflexivity.
  - discriminate.
  - reflexivity.
  - intros s1 d. discriminate.
Defined.

(** * One download at most *)

Lemma saved_split_unique a b p pre q post :
  ~ saved a ->
  a ++ EvMediaSaved p :: b = pre ++ EvMediaSaved q :: post ->
  (pre = a /\ q = p /\ post = b) \/ saved b.
Proof.
  revert pre. induction a as [|y a IH]; intros pre Hns Heq.
  - destruct pre as [|x pre]; simpl in Heq.
    + injection Heq as -> ->. left. auto.
    + injection Heq as _ ->. right. exists q. apply in_or_app. right. left. reflexivity.
  - destruct pre as [|x pre]; simpl in Heq.
    + injection Heq as -> _. destruct Hns. exists q. left. reflexivity.
    + injection Heq as -> Heq.
      destruct (IH pre) as [(-> & -> & ->)|Hb]; [|exact Heq|auto|auto].
      intros (r & Hr). apply Hns. exists r. right. exact Hr.
Qed.

(** X25.  At most one video is downloaded for a post, and it is the last
    thing that media resolution does: when a download has gone through
    while a post is processed, no download went through before it, and
    after it nothing is requested or downloaded any more: the next event is
    the sending of the embed. *)
Theorem at_most_one_download_per_post {W} (env : Env W) (s : St W) (tweet : Tweet)
    (pre post : list event) (p : string) :
  emitted s (processTweet env tweet s).2 = pre ++ EvMediaSaved p :: post ->
  ~ saved pre /\ ~ saved post /\ ~ tried post /\
  exists e ok rest, post = EvSendEmbed tweet e ok :: rest.
Proof.
  intros Heq.
  destruct (seen (lastProcessedIds s) (tw_id tweet)) eqn:Hseen.
  { rewrite (processTweet_seen _ _ _ Hseen) in Heq. simpl in Heq.
    rewrite emitted_same in Heq. destruct pre; discriminate Heq. }
  destruct (tw_user tweet) as [user|] eqn:Huser.
  2:{ rewrite (processTweet_no_user env tweet s Huser Hseen) in Heq.
      destruct pre as [|x [|y pre]]; discriminate Heq. }
  destruct (processTweet_shape env tweet user s Huser Hseen)
    as (evs1 & tail & Hem & Hmedia & Hcase).
  rewrite Hem in Heq. clear Hem.
  destruct Hcase as [(-> & Hns & _)|(ts & l3 & ok & rest & _ & -> & HK3 & _ & Hfile)].
  { exfalso. rewrite app_nil_r in Heq.
    assert (Hin : In (EvMediaSaved p) (EvMarkSeen (tw_id tweet) :: evs1)).
    { rewrite Heq. apply in_or_app. right. left. reflexivity. }
    destruct Hin as [Hin|Hin]; [discriminate Hin|]. apply Hns. exists p. exact Hin. }
  change (EvMarkSeen (tw_id tweet)
          :: evs1 ++ EvSendEmbed tweet (embed_to_send tweet l3) ok :: rest)
    with ((EvMarkSeen (tw_id tweet) :: evs1)
          ++ EvSendEmbed tweet (embed_to_send tweet l3) ok :: rest) in Heq.
  assert (Hrest : ~ saved rest /\ ~ tried rest).
  { destruct Hfile as [->|(_ & _ & path & _ & [->| ->])]; split;
      intros (q & Hq); simpl in Hq;
      repeat (destruct Hq as [Hq|Hq]; [discriminate Hq|]); exact Hq. }
  destruct Hrest as [Hrs Hrt].
  assert (Htail : ~ saved (EvSendEmbed tweet (embed_to_send tweet l3) ok :: rest)).
  { intros (q & [Hq|Hq]); [discriminate Hq|]. apply Hrs. exists q. exact Hq. }
  destruct (hasFoundVideo l3).
  - destruct HK3 as (pre1 & p1 & -> & Hns1).
    assert (Hns' : ~ saved (EvMarkSeen (tw_id tweet) :: pre1)).
    { intros (q & [Hq|Hq]); [discriminate Hq|]. apply Hns1. exists q. exact Hq. }
    assert (Heq' : (EvMarkSeen (tw_id tweet) :: pre1)
                   ++ EvMediaSaved p1
                   :: EvSendEmbed tweet (embed_to_send tweet l3) ok :: rest
                   = pre ++ EvMediaSaved p :: post).
    { rewrite <- Heq. simpl. rewrite <- app_assoc. reflexivity. }
    destruct (saved_split_unique _ _ _ _ _ _ Hns' Heq') as [(-> & -> & ->)|Hb];
      [|destruct (Htail Hb)].
    split; [exact Hns'|]. split; [exact Htail|]. split.
    + intros (q & [Hq|Hq]); [discriminate Hq|]. apply Hrt. exists q. exact Hq.
    + eauto.
  - exfalso.
    assert (Hin : In (EvMediaSaved p)
                    ((EvMarkSeen (tw_id tweet) :: evs1)
                     ++ EvSendEmbed tweet (embed_to_send tweet l3) ok :: rest)).
    { rewrite Heq. apply in_or_app. right. left. reflexivity. }
    apply in_app_or in Hin as [[Hin|Hin]|Hin].
    + discriminate Hin.
    + apply HK3. exists p. exact Hin.
    + apply Htail. exists p. exact Hin.
Qed.

Lemma at_most_one_download_per_post_witness :
  let evs := emitted running_state
               (processTweet (fixed_env [fresh_post] (Some detail_with_video) true)
                  fresh_post running_state).2 in
  evs = [EvMarkSeen "2"; EvDetailGet "2";
         EvMediaGet (Some "https://video.twimg.com/v/100.mp4")]
        ++ EvMediaSaved "cache/video_2.mp4"
        :: drop 4 evs /\
  ~ saved [EvMarkSeen "2"; EvDetailGet "2";
           EvMediaGet (Some "https://video.twimg.com/v/100.mp4")] /\
  ~ saved (drop 4 evs) /\ ~ tried (drop 4 evs) /\
  exists e ok rest, drop 4 evs = EvSendEmbed fresh_post e ok :: rest.
Proof.
  intros evs.
  assert (Heq : evs = [EvMarkSeen "2"; EvDetailGet "2";
                       EvMediaGet (Some "https://video.twimg.com/v/100.mp4")]
                      ++ EvMediaSaved "cache/video_2.mp4" :: drop 4 evs).
  { vm_compute. reflexivity. }
  split; [exact Heq|].
  apply (at_most_one_download_per_post
           (fixed_env [fresh_post] (Some detail_with_video) true) running_state
           fresh_post _ _ _ Heq).
Defined.

(** * A post without a user *)

Section OwnEvents.
Context {W : Type} (env : Env W).
Implicit Types (s : St W) (tweet : Tweet).

Lemma frames_attachVideo_own tweet url filename note :
  frames (own_event tweet) (attachVideo env url filename note).
Proof.
  unfold attachVideo. frames_tac.
Qed.

#[local] Hint Resolve frames_attachVideo_own frames_useImage : frames.

Lemma frames_mediaDetails_video_loop_own tweet medias :
  frames (own_event tweet) (mediaDetails_video_loop env tweet medias).
Proof.
  induction medias as [|media rest IH]; simpl; frames_tac; exact IH.
Qed.

#[local] Hint Resolve frames_mediaDetails_video_loop_own : frames.

Lemma frames_detail_block_own tweet :
  frames (own_event tweet) (detail_block env tweet).
Proof.
  unfold detail_block, fetchSingleTweet, detail_video, detail_parent_video,
    detail_mediaDetails_video, detail_photos.
  frames_tac.
Qed.

Lemma frames_raw_block_own tweet : frames (own_event tweet) (raw_block env tweet).
Proof.
  unfold raw_block, raw_extended_entities, raw_extended_video,
    raw_extended_image, raw_entities, raw_entities_urls.
  frames_tac.
Qed.

Lemma frames_channelSend_own tweet p :
  frames (own_event tweet) (channelSend env tweet p).
Proof.
  intros I HI s Hs. unfold channelSend.
  destruct (channel_send env p (world s)) as [[a|e] w].
  - apply (frame_emit I _ HI); [destruct p; reflexivity|].
    apply (frame_world I _ HI), Hs.
  - apply (frame_emit I _ HI (set_world w s) (send_event tweet p false));
      [destruct p; reflexivity|].
    apply (frame_world I _ HI), Hs.
Qed.

#[local] Hint Resolve frames_detail_block_own frames_raw_block_own
  frames_channelSend_own frames_buildEmbed : frames.

(** Whatever handling a post causes is an event of this post. *)
Lemma frames_handleTweet_own tweet :
  frames (own_event tweet) (handleTweet env tweet).
Proof. unfold handleTweet, resolveMedia, attachments_note, publish. frames_tac. Qed.

Lemma processTweet_own tweet s :
  seen (lastProcessedIds s) (tw_id tweet) = false ->
  exists evs,
    trace (processTweet env tweet s).2 = trace s ++ EvMarkSeen (tw_id tweet) :: evs /\
    Forall (own_event tweet) evs.
Proof.
  intros H. rewrite (processTweet_unseen _ _ _ H). simpl.
  destruct (frames_same_memory (own_event tweet) (handleTweet env tweet)
              (markSeen (tw_id tweet) s).2 (frames_handleTweet_own tweet))
    as (_ & _ & _ & evs & Htr & Hevs).
  exists evs. simpl in Htr. rewrite Htr, <- app_assoc. auto.
Qed.

Lemma own_not_about tweet id ev :
  tw_id tweet <> id -> own_event tweet ev -> ~ about id ev.
Proof. intros Hne. destruct ev; simpl; try tauto; congruence. Qed.

(** One iteration on a post with another identifier causes nothing that
    concerns [id]. *)
Lemma processTweet_not_about tweet id s :
  tw_id tweet <> id ->
  exists evs,
    trace (processTweet env tweet s).2 = trace s ++ evs /\
    Forall (fun ev => ~ about id ev) evs /\
    seen (lastProcessedIds (processTweet env tweet s).2) id
    = seen (lastProcessedIds s) id /\
    (evs = [] \/ exists rest, evs = EvMarkSeen (tw_id tweet) :: rest).
Proof.
  intros Hne. destruct (seen (lastProcessedIds s) (tw_id tweet)) eqn:Hseen.
  - rewrite (processTweet_seen _ _ _ Hseen). exists []. simpl. rewrite app_nil_r.
    split; [reflexivity|]. split; [constructor|]. auto.
  - destruct (processTweet_own tweet s Hseen) as (evs & Htr & Hevs).
    destruct (processTweet_unseen_effect env tweet s Hseen) as (Hi & _).
    exists (EvMarkSeen (tw_id tweet) :: evs). split; [exact Htr|]. split; [|split].
    + constructor; [simpl; tauto|].
      eapply Forall_impl; [exact Hevs|]. intros ev. apply own_not_about, Hne.
    + rewrite Hi, seen_insert. destruct (decide _); [contradiction|reflexivity].
    + right. eauto.
Qed.

Lemma left_alone_step id s0 s s' evs :
  left_alone id s0 s ->
  seen (lastProcessedIds s') id = true ->
  trace s' = trace s ++ evs ->
  Forall (fun ev => ~ about id ev) evs ->
  left_alone id s0 s'.
Proof.
  intros (_ & evs0 & Htr0 & Hevs0) Hseen Htr Hevs. split; [assumption|].
  exists (evs0 ++ evs). rewrite Htr, Htr0, app_assoc. split; [reflexivity|].
  apply Forall_app. split; assumption.
Qed.

Lemma left_alone_refl id s :
  seen (lastProcessedIds s) id = true -> left_alone id s s.
Proof.
  intros H. split; [exact H|]. exists []. rewrite app_nil_r.
  split; [reflexivity|constructor].
Qed.

(** One iteration, once [id] is marked. *)
Lemma processTweet_leaves_alone id s0 tweet :
  preserves (left_alone id s0) (processTweet env tweet).
Proof.
  intros s Hs. destruct (decide (tw_id tweet = id)) as [Heq|Hne].
  - rewrite processTweet_seen; [exact Hs|]. rewrite Heq. apply Hs.
  - destruct (processTweet_not_about tweet id s Hne) as (evs & Htr & Hevs & Hsame & _).
    apply (left_alone_step id s0 s _ evs Hs); [|exact Htr|exact Hevs].
    rewrite Hsame. apply Hs.
Qed.

(** Once an identifier is marked, a cycle keeps it marked and causes nothing
    that concerns it. *)
Lemma cycle_leaves_alone id s0 :
  preserves (left_alone id s0) (processTweets env).
Proof.
  apply preserves_processTweets_feed.
  - split.
    + intros s w Hs. exact Hs.
    + intros s l Hs. exact Hs.
    + intros s ev Hev Hs. apply (left_alone_step id s0 s _ [ev] Hs);
        [apply Hs|reflexivity|].
      constructor; [|constructor]. destruct ev; simpl in *; tauto.
  - intros id' s Hs. apply (left_alone_step id s0 s _ [EvMarkSeen id'] Hs).
    + simpl. apply seen_insert_mono, Hs.
    + reflexivity.
    + constructor; [simpl; tauto|constructor].
  - intros t s Hs. apply (left_alone_step id s0 s _ [EvSetTimestamp t] Hs).
    + apply Hs.
    + reflexivity.
    + constructor; [simpl; tauto|constructor].
  - intros s Hs.
    destruct (saveState_effect env s) as (ok1 & rest & _ & Hi & _ & Htr & _ & Hrest).
    apply (left_alone_step id s0 s _ _ Hs ltac:(rewrite Hi; apply Hs) Htr).
    constructor; [simpl; tauto|].
    destruct ok1; [destruct Hrest as [ok2 ->]|subst rest]; repeat constructor.
    simpl. tauto.
  - apply processTweet_leaves_alone.
Qed.

Lemma runCycles_leaves_alone n id s :
  seen (lastProcessedIds s) id = true ->
  forall ev, In ev (emitted s (runCycles env n s).2) -> ~ about id ev.
Proof.
  intros Hseen.
  destruct (preserves_runCycles env (left_alone id s) n (cycle_leaves_alone id s) s
              (left_alone_refl id s Hseen)) as (_ & evs & Htr & Hevs).
  rewrite (emitted_app _ _ _ Htr). intros ev Hin. apply (Forall_In _ _ _ Hevs Hin).
Qed.

(** What the loop causes starts with a mark, if it causes anything. *)
Lemma forEach_head L : forall s,
  exists evs,
    trace (forEach (processTweet env) L s).2 = trace s ++ evs /\
    match evs with
    | [] => True
    | ev :: _ => next_step ev
    end.
Proof.
  induction L as [|x L IH]; intros s; simpl.
  - exists []. rewrite app_nil_r. auto.
  - unfold bind.
    destruct (seen (lastProcessedIds s) (tw_id x)) eqn:Hseen.
    + rewrite (processTweet_seen _ _ _ Hseen). apply IH.
    + destruct (processTweet_own x s Hseen) as (evs & Htr & _).
      pose proof (processTweet_unseen env x s Hseen) as Hrun.
      destruct (processTweet env x s) as [r s1]. injection Hrun as -> _.
      simpl in Htr.
      destruct (forEach_trace env L s1) as (evsL & HtrL).
      exists (EvMarkSeen (tw_id x) :: evs ++ evsL).
      rewrite HtrL, Htr, <- app_assoc. split; [reflexivity|exact I].
Qed.

Lemma forEach_leaves_alone L id : forall s,
  seen (lastProcessedIds s) id = true ->
  left_alone id s (forEach (processTweet env) L s).2.
Proof.
  intros s Hseen.
  apply (preserves_forEach (left_alone id s)); [|apply left_alone_refl, Hseen].
  intros x _. apply processTweet_leaves_alone.
Qed.

(** The loop over a list in which every post that carries the unmarked
    identifier [id] lacks a user: the identifier is marked once, nothing
    that concerns it happens before or after, and the mark is followed
    directly by the next mark, if anything follows in the loop. *)
Lemma forEach_drops L : forall s id,
  seen (lastProcessedIds s) id = false ->
  (exists t, In t L /\ tw_id t = id) ->
  (forall t, In t L -> tw_id t = id -> tw_user t = None) ->
  exists pre post,
    trace (forEach (processTweet env) L s).2 = trace s ++ pre ++ EvMarkSeen id :: post /\
    Forall (fun ev => ~ about id ev) pre /\
    Forall (fun ev => ~ about id ev) post /\
    match post with
    | [] => True
    | ev :: _ => next_step ev
    end /\
    seen (lastProcessedIds (forEach (processTweet env) L s).2) id = true.
Proof.
  induction L as [|x L IH]; intros s id Hseen (t & Hin & Hid) Huser.
  { destruct Hin. }
  simpl. unfold bind.
  assert (Hok : (processTweet env x s).1 = Ok tt).
  { destruct (seen (lastProcessedIds s) (tw_id x)) eqn:Hsx.
    - rewrite (processTweet_seen _ _ _ Hsx). reflexivity.
    - rewrite (processTweet_unseen _ _ _ Hsx). reflexivity. }
  destruct (decide (tw_id x = id)) as [Hx|Hx].
  - rewrite <- Hx in Hseen.
    pose proof (processTweet_no_user env x s (Huser x (or_introl eq_refl) Hx) Hseen)
      as Hem.
    destruct (processTweet_unseen_effect env x s Hseen) as (Hi & _ & _ & evs & Htr & _).
    rewrite (emitted_app _ _ _ Htr) in Hem. injection Hem as ->.
    destruct (processTweet env x s) as [r s1]. simpl in *. subst r.
    assert (Hseen1 : seen (lastProcessedIds s1) id = true).
    { rewrite Hi, seen_insert. destruct (decide _); [reflexivity|contradiction]. }
    destruct (forEach_leaves_alone L id s1 Hseen1) as (Hseen2 & post & HtrL & Hpost).
    destruct (forEach_head L s1) as (post' & HtrL' & Hhead).
    assert (post' = post) as ->.
    { rewrite HtrL in HtrL'. apply app_inv_head in HtrL'. congruence. }
    exists [], post. simpl. rewrite HtrL, Htr, <- app_assoc, Hx.
    split; [reflexivity|]. split; [constructor|]. auto.
  - destruct (processTweet_not_about x id s Hx) as (evsx & Htrx & Hevsx & Hsame & _).
    destruct (processTweet env x s) as [r s1]. simpl in *. subst r.
    destruct (IH s1 id) as (pre & post & HtrL & Hpre & Hpost & Hhead & Hseen2).
    + rewrite Hsame. exact Hseen.
    + destruct Hin as [->|Hin]; [contradiction|]. exists t. auto.
    + intros t' Hin'. apply Huser. right. exact Hin'.
    + exists (evsx ++ pre), post. rewrite HtrL, Htrx, <- !app_assoc.
      split; [reflexivity|]. split; [apply Forall_app; split; assumption|]. auto.
Qed.

End OwnEvents.

(** C10.  A new post without a user is marked and dropped.  In a cycle after
    the first one, for a fetched post inside the window whose identifier is
    not marked when the cycle starts (and is not the name of a member of
    [Object.prototype]), when the recent posts of the batch that carry this
    identifier have no [user]: the cycle marks the identifier, once the
    identifier is marked at the end of the cycle, and nothing that concerns
    it happens in the cycle, neither a request for its detail record nor a
    message; the mark is followed directly by the mark of the next post or
    by the timestamp that closes the loop, so processing the post causes no
    event at all, no download either.  The drop is permanent: whatever
    number of cycles the process runs afterwards, in whatever environment,
    nothing is requested or sent for this identifier. *)
Theorem post_without_user_is_dropped {W} (env env' : Env W) (s : St W)
    (tweets : list Tweet) (currentFetchTime currentTime : Z) (tweet : Tweet)
    (n : nat) :
  later_cycle env s tweets currentFetchTime currentTime ->
  In tweet tweets -> is_recent currentTime tweet = true ->
  unseen (lastProcessedIds s) (tw_id tweet) = true ->
  (forall t, In t tweets -> is_recent currentTime t = true ->
     tw_id t = tw_id tweet -> tw_user t = None) ->
  let s' := (processTweets env s).2 in
  seen (lastProcessedIds s') (tw_id tweet) = true /\
  (exists pre next post,
     emitted s s' = pre ++ EvMarkSeen (tw_id tweet) :: next :: post /\
     next_step next /\
     Forall (fun ev => ~ about (tw_id tweet) ev) pre /\
     Forall (fun ev => ~ about (tw_id tweet) ev) post) /\
  forall ev, In ev (emitted s' (runCycles env' n s').2) -> ~ about (tw_id tweet) ev.
Proof.
  intros Hlater Hin Hrec Hunseen Huser s'.
  pose proof (unseen_not_seen _ _ Hunseen) as Hseen.
  destruct (later_cycle_run_feed env s tweets currentFetchTime currentTime Hlater)
    as (s4 & (Hi4 & _ & _ & evs0 & Htr4 & Hevs0) & Hrun).
  set (L := recentTweets_of currentTime tweets) in *.
  assert (HinL : In tweet L) by (apply recentTweets_of_In; auto).
  destruct L as [|x L'] eqn:HL; [destruct HinL|].
  rewrite processRecent_cons in Hrun.
  destruct (forEach_drops env (x :: L') s4 (tw_id tweet))
    as (pre & post & HtrL & Hpre & Hpost & Hhead & HseenL).
  { rewrite Hi4. exact Hseen. }
  { exists tweet. auto. }
  { intros t Ht Hid. rewrite <- HL in Ht.
    apply recentTweets_of_In in Ht as [H1 H2]. apply Huser; assumption. }
  set (sL := (forEach (processTweet env) (x :: L') s4).2) in *.
  destruct (saveState_effect env (setTimestamp currentFetchTime sL).2)
    as (r1 & rest & _ & Hi & _ & Htr & _ & Hrest).
  fold s' in Hrun. rewrite <- Hrun in Hi, Htr. simpl in Hi, Htr.
  assert (Hseen' : seen (lastProcessedIds s') (tw_id tweet) = true).
  { rewrite Hi. exact HseenL. }
  assert (Hclose : Forall (fun ev => ~ about (tw_id tweet) ev)
                     (EvWriteFile (IdsData (lastProcessedIds sL)) r1 :: rest)).
  { constructor; [simpl; tauto|].
    destruct r1; [destruct Hrest as [r2 ->]|subst rest]; repeat constructor.
    simpl. tauto. }
  assert (Hfeed : Forall (fun ev => ~ about (tw_id tweet) ev) evs0).
  { eapply Forall_impl; [exact Hevs0|]. intros ev. destruct ev; simpl; tauto. }
  split; [exact Hseen'|]. split.
  - destruct post as [|next post].
    + exists (evs0 ++ pre), (EvSetTimestamp currentFetchTime),
        (EvWriteFile (IdsData (lastProcessedIds sL)) r1 :: rest).
      split; [|split; [exact I|split; [apply Forall_app; split; assumption|exact Hclose]]].
      apply emitted_app. rewrite Htr, HtrL, Htr4, <- !app_assoc. reflexivity.
    + exists (evs0 ++ pre), next,
        (post ++ EvSetTimestamp currentFetchTime
           :: EvWriteFile (IdsData (lastProcessedIds sL)) r1 :: rest).
      split; [|split; [exact Hhead|split; [apply Forall_app; split; assumption|]]].
      * apply emitted_app. rewrite Htr, HtrL, Htr4, <- !app_assoc. reflexivity.
      * apply Forall_cons in Hpost as [_ Hpost]. apply Forall_app. split; [exact Hpost|].
        constructor; [simpl; tauto|exact Hclose].
  - apply runCycles_leaves_alone, Hseen'.
Qed.

(** The feed shows a post without a user between two posts that have one:
    the three are marked, the one without a user is passed over, and three
    further cycles on the same feed do nothing for it. *)
Lemma post_without_user_is_dropped_witness :
  let env := fixed_env [fresh_post; anonymous_post; picture_post] None true in
  let s' := (processTweets env running_state).2 in
  seen (lastProcessedIds s') "3" = true /\
  (exists pre next post,
     emitted running_state s' = pre ++ EvMarkSeen "3" :: next :: post /\
     next_step next /\
     Forall (fun ev => ~ about "3" ev) pre /\
     Forall (fun ev => ~ about "3" ev) post) /\
  forall ev, In ev (emitted s' (runCycles env 3 s').2) -> ~ about "3" ev.
Proof.
  intros env.
  apply (post_without_user_is_dropped env env running_state
           [fresh_post; anonymous_post; picture_post] 100000 100000
           anonymous_post 3).
  - split; [discriminate|]. eexists _, tt, tt, tt. repeat split; reflexivity.
  - right. left. reflexivity.
  - reflexivity.
  - reflexivity.
  - intros t [<-|[<-|[<-|[]]]] _ Hid; try discriminate Hid. reflexivity.
Defined.
